(** * FaultMap node ranking: a shallow embedding of [ranking/noderank.py]

    The development follows the Python module function by function:
    the construction of the personalised weight matrix inside
    [calc_simple_rank], the two graphs handed to the centrality
    routines, the dispatch on package and rank method,
    [normalise_rankinglist], [calc_transient_importancediffs],
    [create_importance_graph] and the accumulation of per-box ranking
    dictionaries in [dorankcalc].

    Numbers.  numpy's float64 is modelled by exact rationals extended
    with the IEEE special values; rounding, overflow, underflow and
    the sign of zero are abstracted away (no divisor in the module can
    be a negative zero: they are sums started at 0 or sums of absolute
    values).  What is kept is the behaviour the module relies on: a
    numpy division by zero does not raise, it yields an infinity or a
    NaN that then propagates.  Because the finite arithmetic is exact
    where that of the code is rounded, the general theorems say which
    operations the code applies to which values, what raises, what is
    not finite and what stays zero; none of them states an identity of
    the field of rationals (a sum that is exactly one, a difference
    that cancels) as a property of the code. *)

From Stdlib Require Import QArith Qcanon Ascii.
From stdpp Require Import gmap strings list fin_maps numbers sorting pretty.

Local Open Scope Qc_scope.
Set Warnings "-clear-no-such-hyp".

(** ** Floating point values *)

Inductive float64 : Type :=
  | Fin (q : Qc)
  | PInf
  | NInf
  | NaN.

Global Instance float64_eq_dec : EqDecision float64.
Proof. solve_decision. Defined.

Global Instance float64_inhabited : Inhabited float64 := populate NaN.

Definition is_finite (x : float64) : bool :=
  match x with Fin _ => true | _ => false end.

Definition fneg (x : float64) : float64 :=
  match x with
  | Fin q => Fin (- q)
  | PInf => NInf
  | NInf => PInf
  | NaN => NaN
  end.

(** [abs(x)] *)
Definition fabs (x : float64) : float64 :=
  match x with
  | Fin q => Fin (if decide (q < 0) then - q else q)
  | PInf | NInf => PInf
  | NaN => NaN
  end.

(** [x + y] *)
Definition fadd (x y : float64) : float64 :=
  match x, y with
  | NaN, _ | _, NaN => NaN
  | Fin a, Fin b => Fin (a + b)
  | PInf, NInf | NInf, PInf => NaN
  | PInf, _ | _, PInf => PInf
  | NInf, _ | _, NInf => NInf
  end.

(** [x - y] *)
Definition fsub (x y : float64) : float64 := fadd x (fneg y).

(** The infinity that a product or quotient with a finite factor [a]
    turns [inf] into: [NaN] for [0 * inf]. *)
Definition scale_inf (a : Qc) (inf : float64) : float64 :=
  if decide (a = 0) then NaN
  else if decide (0 < a) then inf else fneg inf.

(** [x * y] *)
Definition fmul (x y : float64) : float64 :=
  match x, y with
  | NaN, _ | _, NaN => NaN
  | Fin a, Fin b => Fin (a * b)
  | Fin a, inf => scale_inf a inf
  | inf, Fin b => scale_inf b inf
  | PInf, PInf | NInf, NInf => PInf
  | PInf, NInf | NInf, PInf => NInf
  end.

(** numpy's [x / y]: never raises.  A zero divisor gives [NaN] for
    [0 / 0] and an infinity of the sign of [x] otherwise. *)
Definition fdiv (x y : float64) : float64 :=
  match x, y with
  | NaN, _ | _, NaN => NaN
  | Fin a, Fin b =>
      if decide (b = 0) then
        if decide (a = 0) then NaN
        else if decide (0 < a) then PInf else NInf
      else Fin (a / b)
  | Fin _, _ => Fin 0
  | inf, Fin b => if decide (b < 0) then fneg inf else inf
  | _, _ => NaN
  end.

(** [x == y] and [x != y]: a NaN differs from everything. *)
Definition feqb (x y : float64) : bool :=
  match x, y with
  | Fin a, Fin b => bool_decide (a = b)
  | PInf, PInf | NInf, NInf => true
  | _, _ => false
  end.

Definition fneb (x y : float64) : bool := negb (feqb x y).

(** [x < y]: false as soon as a NaN is involved. *)
Definition fltb (x y : float64) : bool :=
  match x, y with
  | NaN, _ | _, NaN => false
  | Fin a, Fin b => bool_decide (a < b)
  | PInf, _ | _, NInf => false
  | NInf, _ | _, PInf => true
  end.

(** [sum(xs)] and [np.sum(xs)]: the additions start from [0]. *)
Definition fsum (xs : list float64) : float64 := foldl fadd (Fin 0) xs.

(** ** Python exceptions *)

Inductive pyerror : Type :=
  | NameError (msg : string)
  | UnboundLocalError (var : string)
  | KeyError (key : string)
  | IndexError
  | ZeroDivisionError
  | AttributeError (attr : string)
  | ValueError (msg : string).

Global Instance pyerror_eq_dec : EqDecision pyerror.
Proof. solve_decision. Defined.

(** [isinstance(e, NameError)]: [UnboundLocalError] is a subclass of
    [NameError]. *)
Definition isinstance_NameError (e : pyerror) : bool :=
  match e with
  | NameError _ | UnboundLocalError _ => true
  | _ => false
  end.

Inductive result (A : Type) : Type :=
  | Ok (a : A)
  | Raise (e : pyerror).
Arguments Ok {A} a.
Arguments Raise {A} e.

Global Instance result_eq_dec `{EqDecision A} : EqDecision (result A).
Proof. solve_decision. Defined.

Global Instance result_ret : MRet result := @Ok.
Global Instance result_bind : MBind result := λ A B f r,
  match r with Ok a => f a | Raise e => Raise e end.
Global Instance result_fmap : FMap result := λ A B f r,
  match r with Ok a => Ok (f a) | Raise e => Raise e end.

(** A [for] loop whose body may raise. *)
Fixpoint foldlM {A B} (f : A → B → result A) (a : A) (l : list B) : result A :=
  match l with
  | [] => Ok a
  | x :: l => a' ← f a x; foldlM f a' l
  end.

(** [enumerate(l)] *)
Definition enumerate {A} (l : list A) : list (nat * A) := imap pair l.

(** ** Matrices

    A numpy matrix is the list of its rows.  Reading outside the
    matrix raises [IndexError] in numpy; the vectorised column
    operations below are only used inside the shape, and read [NaN]
    elsewhere. *)

Abbreviation matrix := (list (list float64)).

(** [M[row, col]] *)
Definition entry (M : matrix) (row col : nat) : float64 :=
  default NaN (M !! row ≫= (.!! col)).

Definition get_entry (M : matrix) (row col : nat) : result float64 :=
  match M !! row ≫= (.!! col) with
  | Some x => Ok x
  | None => Raise IndexError
  end.

(** [M[:, col]] *)
Definition column (M : matrix) (col : nat) : list float64 :=
  (λ r, default NaN (r !! col)) <$> M.

(** [M[:, col] = vals] *)
Definition set_column (M : matrix) (col : nat) (vals : list float64) : matrix :=
  zip_with (λ r v, <[col := v]> r) M vals.

Definition ncols (M : matrix) : nat := length (default [] (head M)).

(** [M.T] *)
Definition transpose (M : matrix) : matrix := column M <$> seq 0 (ncols M).

(** ** The weight matrix of [calc_simple_rank] *)

(** One turn of the loops at lines 149-158 and 189-198: a column whose
    absolute values sum to zero is skipped. *)
Definition normalise_column_skip_zero (M : matrix) (col : nat) : matrix :=
  let colsum := fsum (fabs <$> column M col) in
  if feqb colsum (Fin 0) then M
  else set_column M col ((λ x, fdiv x colsum) <$> column M col).

Definition normalise_columns_skip_zero (n : nat) (M : matrix) : matrix :=
  foldl normalise_column_skip_zero M (seq 0 n).

(** One turn of the loop at lines 177-179: the division is
    unconditional. *)
Definition normalise_column (M : matrix) (col : nat) : matrix :=
  set_column M col
    ((λ x, fdiv x (fsum (fabs <$> column M col))) <$> column M col).

Definition normalise_columns (n : nat) (M : matrix) : matrix :=
  foldl normalise_column M (seq 0 n).

(** Lines 162-165. *)
Definition relative_reset_vector_norm (biasvector : list float64) : list float64 :=
  (λ x, fdiv x (fsum biasvector)) <$> biasvector.

(** Line 167: [np.array([relative_reset_vector_norm, ]*n)], a list of
    [n] copies of the vector, each of them a row of the array. *)
Definition resetmatrix (n : nat) (biasvector : list float64) : matrix :=
  replicate n (relative_reset_vector_norm biasvector).

(** Line 171: [(m * gainmatrix) + ((1-m) * resetmatrix)], for two
    matrices of the same shape (numpy raises [ValueError] when the
    shapes differ; every statement on [mix] has both [n] by [n]). *)
Definition mix (m : float64) (G R : matrix) : matrix :=
  zip_with (zip_with (λ g r, fadd (fmul m g) (fmul (fsub (Fin 1) m) r))) G R.

(** Lines 145-198.  The first component is [weightmatrix], the second
    [gainmatrix] as it stands when the graphs are built, the third the
    column-normalised gain matrix of the first loop. *)
Definition weight_matrices (gainmatrix : matrix) (biasvector : list float64)
    (m : float64) : matrix * matrix * matrix :=
  let n := length gainmatrix in
  let gainmatrix1 := normalise_columns_skip_zero n gainmatrix in
  let weightmatrix := mix m gainmatrix1 (resetmatrix n biasvector) in
  let weightmatrix := transpose weightmatrix in
  let weightmatrix := normalise_columns n weightmatrix in
  let gainmatrix2 := transpose gainmatrix1 in
  let gainmatrix2 := normalise_columns_skip_zero n gainmatrix2 in
  (weightmatrix, gainmatrix2, gainmatrix1).

(** ** Directed graphs ([networkx.DiGraph])

    A graph keeps an attribute dictionary per node and per edge.
    Integer attributes ([controlloop]) are stored as finite values. *)

Abbreviation attrs := (gmap string float64).

Record DiGraph : Type := mkDiGraph {
  node : gmap string attrs;
  edge : gmap (string * string) attrs
}.

Global Instance DiGraph_eq_dec : EqDecision DiGraph.
Proof. solve_decision. Defined.

Definition empty_DiGraph : DiGraph := mkDiGraph ∅ ∅.

(** [G.add_node(n, **a)]: a new node gets [a], an existing node has
    its attributes updated with [a]. *)
Definition add_node (G : DiGraph) (n : string) (a : attrs) : DiGraph :=
  mkDiGraph (<[n := a ∪ default ∅ (node G !! n)]> (node G)) (edge G).

(** [G.add_edge(u, v, **a)]: both ends become nodes when they are not
    yet, and the edge's attributes are updated with [a]. *)
Definition add_edge (G : DiGraph) (u v : string) (a : attrs) : DiGraph :=
  let touch n (ns : gmap string attrs) :=
    match ns !! n with Some _ => ns | None => <[n := ∅]> ns end in
  mkDiGraph (touch v (touch u (node G)))
            (<[(u, v) := a ∪ default ∅ (edge G !! (u, v))]> (edge G)).

(** [G.reverse()] *)
Definition DiGraph_reverse (G : DiGraph) : DiGraph :=
  mkDiGraph (node G) (kmap prod_swap (edge G)).

(** [G.nodes()] and [G.edges()] *)
Definition DiGraph_nodes (G : DiGraph) : list string := (map_to_list (node G)).*1.
Definition DiGraph_edges (G : DiGraph) : list (string * string) :=
  (map_to_list (edge G)).*1.

Definition edge_weight (G : DiGraph) (u v : string) : option float64 :=
  edge G !! (u, v) ≫= (.!! "weight").

(** Lines 202-218 of [calc_simple_rank]. *)
Definition build_graphs (weightmatrix gainmatrix : matrix)
    (variables : list string) : result (DiGraph * DiGraph) :=
  foldlM (λ graphs '(col, colvar),
    foldlM (λ '(reset_gaingraph, sparse_gaingraph) '(row, rowvar),
      w ← get_entry weightmatrix row col;
      let reset_gaingraph :=
        add_edge reset_gaingraph rowvar colvar {["weight" := w]} in
      g ← get_entry gainmatrix row col;
      if fneb g (Fin 0) then
        Ok (reset_gaingraph,
            add_edge sparse_gaingraph rowvar colvar {["weight" := g]})
      else Ok (reset_gaingraph, sparse_gaingraph))
     graphs (enumerate variables))
   (empty_DiGraph, empty_DiGraph) (enumerate variables).

(** ** Ranking dictionaries and lists *)

(** [d[k]] *)
Definition getitem (d : gmap string float64) (k : string) : result float64 :=
  match d !! k with
  | Some x => Ok x
  | None => Raise (KeyError k)
  end.

(** [x / y] on the scores of a ranking dictionary, taken as Python
    floats: a zero divisor raises.  (On numpy scalars the quotient
    would be an infinity or a NaN; the two agree on every nonzero
    divisor.) *)
Definition pydiv (x y : float64) : result float64 :=
  if feqb y (Fin 0) then Raise ZeroDivisionError else Ok (fdiv x y).

(** [dictionary.values()], in the dictionary's own order. *)
Definition values (d : gmap string float64) : list float64 := (map_to_list d).*2.

(** Lines 129-132. *)
Definition norm_dict (dictionary : gmap string float64)
    : result (gmap string float64) :=
  let total := fsum (values dictionary) in
  foldlM (λ d '(key, value), x ← pydiv value total; Ok (<[key := x]> d))
         ∅ (map_to_list dictionary).

Fixpoint insert_desc (x : string * float64) (l : list (string * float64))
    : list (string * float64) :=
  match l with
  | [] => [x]
  | y :: l' => if fltb x.2 y.2 then y :: insert_desc x l' else x :: y :: l'
  end.

(** [sorted(items, key=operator.itemgetter(1), reverse=True)]: a
    stable sort, entries of equal score keep their order.  On scores
    without NaN every stable sort gives this list. *)
Definition sorted_desc (items : list (string * float64))
    : list (string * float64) :=
  foldr insert_desc [] items.

(** [dict(pairs)]: a later pair overrides an earlier one. *)
Definition dict_of (pairs : list (string * float64)) : gmap string float64 :=
  foldl (λ d '(k, v), <[k := v]> d) ∅ pairs.

(** ** The centrality routines

    [networkx] and [numpy.linalg] are outside the module.
    [calc_simple_rank] is split at its single library call: the first
    half returns the call it is about to make, the second half
    post-processes the library's answer. *)

Inductive centrality_call : Type :=
  | eigenvector_centrality (G : DiGraph)
  | katz_centrality (G : DiGraph) (alpha : float64)
  | pagerank (G : DiGraph) (alpha : float64)
  | linalg_eig (M : matrix).

Global Instance centrality_call_eq_dec : EqDecision centrality_call.
Proof. solve_decision. Defined.

Record library : Type := mkLibrary {
  nx_eigenvector_centrality : DiGraph → result (gmap string float64);
  nx_katz_centrality : DiGraph → float64 → result (gmap string float64);
  nx_pagerank : DiGraph → float64 → result (gmap string float64);
  np_linalg_eig : matrix → result (list float64 * matrix)
}.

(** The fields of the [NoderankData] object that the ranking reads. *)
Record NoderankData : Type := mkNoderankData {
  m : float64;
  alpha : option float64;
  variablelist : list string;
  connectionmatrix : matrix;
  biasvector : list float64;
  dummies : bool
}.

(** Lines 144-260, up to the library call. *)
Definition calc_simple_rank_call (gainmatrix : matrix) (variables : list string)
    (biasvector : list float64) (noderankdata : NoderankData)
    (rank_method package : string) : result centrality_call :=
  let '(weightmatrix, gainmatrix, _) :=
    weight_matrices gainmatrix biasvector (m noderankdata) in
  if decide (package = "networkx") then
    '(reset_gaingraph, sparse_gaingraph) ←
      build_graphs weightmatrix gainmatrix variables;
    if decide (rank_method = "eigenvector") then
      Ok (eigenvector_centrality (DiGraph_reverse reset_gaingraph))
    else if decide (rank_method = "katz") then
      match alpha noderankdata with
      | Some a => Ok (katz_centrality (DiGraph_reverse sparse_gaingraph) a)
      | None => Raise (AttributeError "alpha")
      end
    else if decide (rank_method = "pagerank") then
      Ok (pagerank (DiGraph_reverse sparse_gaingraph) (m noderankdata))
    else Raise (NameError "Method not defined")
  else if decide (package = "simple") then
    if decide (rank_method = "eigenvector") then Ok (linalg_eig weightmatrix)
    else Raise (NameError "Method not defined")
  else
    (* neither branch bound [rankingdict]: line 262 reads it unbound *)
    Raise (UnboundLocalError "rankingdict").

(** [np.argmax]: the first index of a largest element. *)
Definition argmax (xs : list float64) : nat :=
  (foldl (λ '(best, bestval, i) x,
            if fltb bestval x then (i, x, S i) else (best, bestval, S i))
         (0%nat, default NaN (head xs), 0%nat) xs).1.1.

(** Lines 221-258: the library call and what is done with its answer.
    Eigenpairs are taken as real. *)
Definition run_centrality (lib : library) (variables : list string)
    (call : centrality_call) : result (gmap string float64) :=
  match call with
  | eigenvector_centrality G => d ← nx_eigenvector_centrality lib G; norm_dict d
  | katz_centrality G a => d ← nx_katz_centrality lib G a; norm_dict d
  | pagerank G a => d ← nx_pagerank lib G a; norm_dict d
  | linalg_eig M =>
      '(eigval, eigvec) ← np_linalg_eig lib M;
      let rankarray := fabs <$> column eigvec (argmax eigval) in
      let rankarray_norm := fmul (fdiv (Fin 1) (fsum rankarray)) <$> rankarray in
      Ok (dict_of (zip variables rankarray_norm))
  end.

(** Lines 135-271. *)
Definition calc_simple_rank (lib : library) (gainmatrix : matrix)
    (variables : list string) (biasvector : list float64)
    (noderankdata : NoderankData) (rank_method package : string)
    : result (gmap string float64 * list (string * float64)) :=
  call ← calc_simple_rank_call gainmatrix variables biasvector noderankdata
            rank_method package;
  rankingdict ← run_centrality lib variables call;
  Ok (rankingdict, sorted_desc (map_to_list rankingdict)).

(** Lines 274-289. *)
Definition normalise_rankinglist (rankingdict : gmap string float64)
    (originalvariables : list string) : result (list (string * float64)) :=
  normalised_rankingdict ←
    foldlM (λ d variable, x ← getitem rankingdict variable;
                          Ok (<[variable := x]> d))
           ∅ originalvariables;
  let total := fsum (values normalised_rankingdict) in
  normalised_rankingdict ←
    foldlM (λ d variable, x ← getitem d variable;
                          y ← pydiv x total;
                          Ok (<[variable := y]> d))
           normalised_rankingdict originalvariables;
  Ok (sorted_desc (map_to_list normalised_rankingdict)).

(** [max(xs)] *)
Definition pymax (xs : list float64) : result float64 :=
  match xs with
  | [] => Raise (ValueError "max() arg is an empty sequence")
  | x :: xs => Ok (foldl (λ best y, if fltb best y then y else best) x xs)
  end.

Record transient : Type := mkTransient {
  transientdict : gmap string (list float64);
  basevaldict : gmap string float64;
  boxrankdict : gmap string (list float64);
  rel_boxrankdict : gmap string (list float64)
}.

Global Instance transient_eq_dec : EqDecision transient.
Proof. solve_decision. Defined.

(** The body of the loop at lines 324-326. *)
Definition diff_body (variable : string)
    : list float64 * float64 → nat * gmap string float64 →
      result (list float64 * float64) :=
  λ '(diffvect, prev_importance) '(index, rankingdict),
    x ← getitem rankingdict variable;
    Ok (<[index := fsub x prev_importance]> diffvect, x).

(** The body of the loop at lines 328-331. *)
Definition box_body (variable : string)
    : list float64 * list float64 → nat * gmap string float64 →
      result (list float64 * list float64) :=
  λ '(rankvect, rel_rankvect) '(index, rankingdict),
    maximum ← pymax (values rankingdict);
    x ← getitem rankingdict variable;
    r ← pydiv x maximum;
    Ok (<[index := x]> rankvect, <[index := r]> rel_rankvect).

(** The body of the loop at lines 317-333, for one variable. *)
Definition transient_of_variable (rankingdicts : list (gmap string float64))
    (variable : string)
    : result (list float64 * float64 * list float64 * list float64) :=
  match rankingdicts with
  | [] => Raise (ValueError "negative dimensions are not allowed")
  | first :: rest =>
      let diffvect := replicate (length rankingdicts - 1) NaN in
      let rankvect := replicate (length rankingdicts) NaN in
      let rel_rankvect := replicate (length rankingdicts) NaN in
      baseval ← getitem first variable;
      '(diffvect, _) ←
        foldlM (diff_body variable) (diffvect, baseval) (enumerate rest);
      '(rankvect, rel_rankvect) ←
        foldlM (box_body variable) (rankvect, rel_rankvect)
               (enumerate rankingdicts);
      Ok (diffvect, baseval, rankvect, rel_rankvect)
  end.

(** Lines 292-335. *)
Definition calc_transient_importancediffs
    (rankingdicts : list (gmap string float64)) (variablelist : list string)
    : result transient :=
  foldlM (λ t variable,
            '(diffvect, baseval, rankvect, rel_rankvect) ←
              transient_of_variable rankingdicts variable;
            Ok (mkTransient (<[variable := diffvect]> (transientdict t))
                            (<[variable := baseval]> (basevaldict t))
                            (<[variable := rankvect]> (boxrankdict t))
                            (<[variable := rel_rankvect]> (rel_boxrankdict t))))
         (mkTransient ∅ ∅ ∅ ∅) variablelist.

(** ** The importance graph *)

(** [M.nonzero()]: the (row, column) positions of the entries that
    differ from zero, row by row. *)
Definition nonzero (M : matrix) : list (nat * nat) :=
  '(r, row) ← enumerate M;
  '(c, x) ← enumerate row;
  if fneb x (Fin 0) then [(r, c)] else [].

(** [l[i]] *)
Definition getindex {A} (l : list A) (i : nat) : result A :=
  match l !! i with
  | Some x => Ok x
  | None => Raise IndexError
  end.

(** Lines 338-367. *)
Definition create_importance_graph (variablelist : list string)
    (closedconnections openconnections gainmatrix : matrix)
    (ranks : gmap string float64) : result (DiGraph * DiGraph) :=
  opengraph ←
    foldlM (λ opengraph '(row, col),
              u ← getindex variablelist col;
              v ← getindex variablelist row;
              w ← get_entry gainmatrix row col;
              Ok (add_edge opengraph u v {["weight" := w]}))
           empty_DiGraph (nonzero openconnections);
  let openedgelist := DiGraph_edges opengraph in
  closedgraph ←
    foldlM (λ closedgraph '(row, col),
              u ← getindex variablelist col;
              v ← getindex variablelist row;
              w ← get_entry gainmatrix row col;
              let controlloop :=
                if bool_decide ((u, v) ∈ openedgelist) then Fin 0 else Fin 1 in
              Ok (add_edge closedgraph u v
                    (<["controlloop" := controlloop]> {["weight" := w]})))
           empty_DiGraph (nonzero closedconnections);
  closedgraph ←
    foldlM (λ G n, r ← getitem ranks n;
                   Ok (add_node G n {["importance" := r]}))
           closedgraph (DiGraph_nodes closedgraph);
  Ok (closedgraph, opengraph).

(** ** The orchestration of [dorankcalc] *)

(** [M[row, col] = v] *)
Definition set_entry (M : matrix) (row col : nat) (v : float64) : matrix :=
  alter (<[col := v]>) row M.

(** Lines 370-404. *)
Definition gainmatrix_preprocessing (gainmatrix : matrix)
    : result (matrix * float64) :=
  let '(gainsum, counter) :=
    foldl (λ '(gainsum, counter) '(row, col),
             (fadd gainsum (entry gainmatrix row col), S counter))
          (Fin 0, 0%nat) (nonzero gainmatrix) in
  if decide (counter = 0%nat) then Raise ZeroDivisionError
  else
    let currentmean := fdiv gainsum (Fin (Qc_of_Z (Z.of_nat counter))) in
    let meanscale := fdiv (Fin 1) currentmean in
    let modgainmatrix :=
      foldl (λ M '(row, col),
               set_entry M row col (fmul (entry gainmatrix row col) meanscale))
            ((λ r : list float64, (λ _ : float64, Fin 0) <$> r) <$> gainmatrix)
            (nonzero gainmatrix) in
    Ok (modgainmatrix, currentmean).

(** [data_processing.rankbackward] is not part of the module: the
    backward transform is an argument of the functions that call it. *)
Definition rankbackward_t : Type :=
  list string → matrix → matrix → list float64 → float64 → bool →
  result (matrix * matrix * list string * list float64).

(** Lines 407-430.  Of the five one-element lists that are returned,
    the ranking dictionaries and the ranking lists are kept; the
    connections, variables and gains are only written to file. *)
Definition calc_gainrank (lib : library) (rankbackward : rankbackward_t)
    (gainmatrix : matrix) (noderankdata : NoderankData) (rank_method : string)
    (dummyweight : float64)
    : result (list (gmap string float64) * list (list (string * float64))) :=
  '(backwardconnection, backwardgain, backwardvariablelist, backwardbias) ←
    rankbackward (variablelist noderankdata) gainmatrix
      (connectionmatrix noderankdata) (biasvector noderankdata)
      dummyweight (dummies noderankdata);
  '(backwardrankingdict, backwardrankinglist) ←
    calc_simple_rank lib backwardgain backwardvariablelist backwardbias
      noderankdata rank_method "networkx";
  Ok ([backwardrankingdict], [backwardrankinglist]).

(** Lines 495-520 of [dorankcalc]: the list [backward_rankingdicts]
    as it stands after line 520.  The [for] loop over the boxes ends
    at line 503; the ranking call and the two [append]s are behind
    it.  The [writeoutput] branch that follows (lines 522-655) is not
    part of this definition. *)
Definition dorankcalc_rankingdicts (lib : library) (rankbackward : rankbackward_t)
    (noderankdata : NoderankData) (rank_method : string) (preprocessing : bool)
    (gainmatrices : list matrix) : result (list (gmap string float64)) :=
  let backward_rankingdicts := [] in
  modgainmatrix ←
    foldlM (λ _ gainmatrix,
              if preprocessing then
                '(modgainmatrix, _) ← gainmatrix_preprocessing gainmatrix;
                Ok (Some modgainmatrix)
              else Ok (Some gainmatrix))
           None gainmatrices;
  match modgainmatrix with
  | None => Raise (UnboundLocalError "modgainmatrix")
  | Some modgainmatrix =>
      let dummyweight := Fin (Qc_of_Z 10) in
      '(rankingdicts, rankinglists) ←
        calc_gainrank lib rankbackward modgainmatrix noderankdata
          rank_method dummyweight;
      _ ← getindex rankinglists 0;
      rankingdict ← getindex rankingdicts 0;
      Ok (backward_rankingdicts ++ [rankingdict])
  end.

(** ** Reading the gain matrices *)

(** [s[:n]] *)
Definition slice_to (n : nat) (s : string) : string := String.substring 0 n s.

(** [s.endswith('/')] *)
Fixpoint endswith_slash (s : string) : bool :=
  match s with
  | EmptyString => false
  | String c EmptyString => bool_decide (String c EmptyString = "/")
  | String _ s => endswith_slash s
  end.

(** [os.path.join(a, *p)] of [posixpath]. *)
Definition os_path_join (a : string) (p : list string) : string :=
  foldl (λ path b,
           if String.prefix "/" b then b
           else if bool_decide (path = EmptyString) || endswith_slash path
                then path +:+ b
                else path +:+ "/" +:+ b)
        a p.

(** [s.rjust(width, '0')] *)
Definition zero_pad (width : nat) (s : string) : string :=
  String.concat EmptyString (replicate (width - String.length s) "0") +:+ s.

(** ['{:03d}'.format(z)]: the sign counts in the width. *)
Definition format_03d (z : Z) : string :=
  match z with
  | Zneg p => "-" +:+ zero_pad 2 (pretty (Npos p))
  | _ => zero_pad 3 (pretty (Z.to_N z))
  end.

(** Lines 445-448 of [get_gainmatrices]: the file name, when one of
    the two tests binds it. *)
Definition gainmatrix_fname (typename : string) : option string :=
  if decide (slice_to 16 typename = "sigweight_arrays")
  then Some "sigweight_array.csv"
  else if decide (slice_to 13 typename = "weight_arrays")
       then Some "weight_array.csv"
       else None.

(** Lines 433-457.  [data_processing.read_gainmatrix] is not part of
    the module and is an argument. *)
Definition get_gainmatrices (read_gainmatrix : string → result matrix)
    (boxes : list Z) (datadir typename : string) : result (list matrix) :=
  let fname := gainmatrix_fname typename in
  foldlM (λ gainmatrices boxindex,
            let boxdir := "box" +:+ format_03d (boxindex + 1) in
            fname ← match fname with
                    | Some fname => Ok fname
                    | None => Raise (UnboundLocalError "fname")
                    end;
            gainmatrix ←
              read_gainmatrix (os_path_join datadir [typename; boxdir; fname]);
            Ok (gainmatrices ++ [gainmatrix]))
         [] boxes.

(** Lines 700-711 of [noderankcalc]: the array types ranked for one
    weight method and significance type. *)
Definition typenames (weight_method sigtype : string) : list string :=
  if decide (slice_to 16 weight_method = "transfer_entropy") then
    ["weight_absolute_arrays"; "weight_directional_arrays"]
    ++ (if decide (sigtype = "sigtest")
        then ["sigweight_absolute_arrays"; "sigweight_directional_arrays"]
        else [])
  else
    ["weight_arrays"]
    ++ (if decide (sigtype = "sigtest") then ["sigweight_arrays"] else []).

(** ** Folder names of a path *)

(** [c == '/'] *)
Definition is_slash (c : Ascii.ascii) : bool :=
  bool_decide (String c EmptyString = "/").

(** [p.rfind('/')] *)
Fixpoint rfind_slash (p : string) : Z :=
  match p with
  | EmptyString => -1
  | String c p =>
      let r := rfind_slash p in
      if decide (r = -1)%Z then (if is_slash c then 0 else -1)%Z else (r + 1)%Z
  end.

(** ['/' * n] *)
Definition slashes (n : nat) : string :=
  String.concat EmptyString (replicate n "/").

(** [s.rstrip('/')] *)
Fixpoint rstrip_slash (s : string) : string :=
  match s with
  | EmptyString => EmptyString
  | String c s =>
      let r := rstrip_slash s in
      if decide (r = EmptyString)
      then (if is_slash c then EmptyString else String c EmptyString)
      else String c r
  end.

(** [os.path.split(p)] of [posixpath]. *)
Definition os_path_split (p : string) : string * string :=
  let i := Z.to_nat (rfind_slash p + 1) in
  let head := String.substring 0 i p in
  let tail := String.substring i (String.length p - i) p in
  let head :=
    if bool_decide (head ≠ EmptyString)
       && bool_decide (head ≠ slashes (String.length head))
    then rstrip_slash head else head in
  (head, tail).

(** Lines 460-475.  The [while 1] loop runs on fuel; [getfolders]
    gives it more than the length of the path. *)
Fixpoint getfolders_loop (fuel : nat) (path : string) (folders : list string)
    : option (list string) :=
  match fuel with
  | O => None
  | S fuel =>
      let '(path, folder) := os_path_split path in
      if decide (folder ≠ EmptyString)
      then getfolders_loop fuel path (folders ++ [folder])
      else Some (if decide (path ≠ EmptyString) then folders ++ [path]
                 else folders)
  end.

Definition getfolders (path : string) : option (list string) :=
  reverse <$> getfolders_loop (S (String.length path)) path [].

(** ** Predicates used in the statements *)

(** The value [a/b]. *)
Definition rat (a : Z) (b : positive) : float64 := Fin (Q2Qc (a # b)).

(** An [n] by [n] matrix. *)
Definition square (n : nat) (M : matrix) : Prop :=
  length M = n ∧ Forall (λ r, length r = n) M.

(** [calc_simple_rank] is called on an [n] by [n] gain matrix with [n]
    variable names and a bias vector of length [n]. *)
Definition well_shaped (gainmatrix : matrix) (variables : list string)
    (biasvector : list float64) : Prop :=
  square (length gainmatrix) gainmatrix
  ∧ length variables = length gainmatrix
  ∧ length biasvector = length gainmatrix.

(** The invariant of a ranking dictionary: finite non-negative scores
    that sum to one. *)
Definition RankingMap (R : gmap string float64) : Prop :=
  (∀ k x, R !! k = Some x → ∃ p, x = Fin p ∧ 0 ≤ p)
  ∧ fsum (values R) = Fin 1.

(** [M] is a largest score of [R]. *)
Definition is_maximum (R : gmap string float64) (M : float64) : Prop :=
  (∃ k, R !! k = Some M) ∧ ∀ k x, R !! k = Some x → fltb M x = false.

(** The variable [v] names the row or the column of a nonzero entry
    of [M]. *)
Definition incident (variablelist : list string) (M : matrix) (v : string) : Prop :=
  ∃ row col x, M !! row ≫= (.!! col) = Some x ∧ fneb x (Fin 0) = true
    ∧ (variablelist !! row = Some v ∨ variablelist !! col = Some v).

(** A column divided by the sum of its absolute values, without and
    with the zero guard. *)
Definition scaled (xs : list float64) : list float64 :=
  (λ x, fdiv x (fsum (fabs <$> xs))) <$> xs.

Definition scaled_skip_zero (xs : list float64) : list float64 :=
  if feqb (fsum (fabs <$> xs)) (Fin 0) then xs else scaled xs.

(** The score of [v] in [R], and the largest score of [R], as the
    loops of [calc_transient_importancediffs] read them when nothing
    is raised. *)
Definition score (v : string) (R : gmap string float64) : float64 :=
  default NaN (R !! v).

Definition maxscore (R : gmap string float64) : float64 :=
  match pymax (values R) with Ok M => M | Raise _ => NaN end.

(** No character of [s] is a slash. *)
Fixpoint slash_free (s : string) : bool :=
  match s with
  | EmptyString => true
  | String c s => negb (is_slash c) && slash_free s
  end.

(** * Properties *)

(** ** Arithmetic of [float64] *)

Lemma fadd_0_l x : fadd (Fin 0) x = x.
Proof. destruct x; simpl; try done. by rewrite Qcplus_0_l. Qed.

Lemma fadd_0_r x : fadd x (Fin 0) = x.
Proof. destruct x; simpl; try done. by rewrite Qcplus_0_r. Qed.

Lemma fadd_comm x y : fadd x y = fadd y x.
Proof. destruct x, y; simpl; try done. by rewrite Qcplus_comm. Qed.

Lemma fadd_assoc x y z : fadd x (fadd y z) = fadd (fadd x y) z.
Proof. destruct x, y, z; simpl; try done. by rewrite Qcplus_assoc. Qed.

Lemma fmul_fin_0_r a : fmul (Fin a) (Fin 0) = Fin 0.
Proof. simpl. by rewrite Qcmult_0_r. Qed.

Lemma fabs_0 : fabs (Fin 0) = Fin 0.
Proof. done. Qed.

Lemma fdiv_0_nonfinite x : is_finite (fdiv x (Fin 0)) = false.
Proof.
  destruct x as [a| | |]; simpl; try done; by repeat case_decide.
Qed.

Lemma feqb_eq x y : feqb x y = true → x = y.
Proof.
  destruct x, y; simpl; try done.
  intros ?%bool_decide_eq_true. by subst.
Qed.

Lemma fsum_cons x xs : fsum (x :: xs) = fadd x (fsum xs).
Proof.
  unfold fsum. cbn [foldl]. rewrite fadd_0_l.
  revert x. induction xs as [|y xs IH]; intros x; cbn [foldl].
  - by rewrite fadd_0_r.
  - rewrite fadd_0_l. rewrite (IH (fadd x y)), (IH y). by rewrite fadd_assoc.
Qed.

Lemma fsum_nil : fsum [] = Fin 0.
Proof. done. Qed.

Lemma fsum_Permutation xs ys : xs ≡ₚ ys → fsum xs = fsum ys.
Proof.
  induction 1 as [|x xs ys _ IH|x y xs|xs ys zs _ IH1 _ IH2].
  - done.
  - by rewrite !fsum_cons, IH.
  - rewrite !fsum_cons, !fadd_assoc. by rewrite (fadd_comm y x).
  - by rewrite IH1.
Qed.

Lemma fsum_zeros xs : Forall (λ x, x = Fin 0) xs → fsum xs = Fin 0.
Proof.
  induction 1 as [|x xs -> _ IH]; [done|].
  by rewrite fsum_cons, IH.
Qed.

(* From here on the arithmetic is used through the lemmas above. *)
Global Arguments fadd : simpl never.
Global Arguments fmul : simpl never.
Global Arguments fsub : simpl never.
Global Arguments fdiv : simpl never.
Global Arguments fabs : simpl never.
Global Arguments fsum : simpl never.

(** ** Columns of a matrix *)

Lemma entry_column (M : matrix) i j : entry M i j = default NaN (column M j !! i).
Proof.
  unfold entry, column. rewrite list_lookup_fmap.
  by destruct (M !! i).
Qed.

Lemma length_column (M : matrix) c : length (column M c) = length M.
Proof. unfold column. by rewrite length_fmap. Qed.

Lemma length_set_column (M : matrix) c vals :
  length vals = length M → length (set_column M c vals) = length M.
Proof. intros H. unfold set_column. rewrite length_zip_with. lia. Qed.

Lemma rows_set_column (M : matrix) c vals k :
  Forall (λ r, length r = k) M → Forall (λ r, length r = k) (set_column M c vals).
Proof.
  unfold set_column. intros H. revert vals.
  induction H as [|r M Hr _ IH]; intros [|v vals]; simpl; try constructor.
  - by rewrite length_insert.
  - apply IH.
Qed.

Lemma column_set_column_ne (M : matrix) c j vals :
  c ≠ j → length vals = length M → column (set_column M c vals) j = column M j.
Proof.
  intros Hne. unfold column, set_column. revert vals.
  induction M as [|r M IH]; intros [|v vals] Hlen; simplify_eq/=; try done.
  rewrite list_lookup_insert_ne by done. f_equal. by apply IH.
Qed.

Lemma column_set_column_eq (M : matrix) c vals :
  length vals = length M → Forall (λ r, c < length r)%nat M →
  column (set_column M c vals) c = vals.
Proof.
  intros Hlen Hrows. unfold column, set_column. revert vals Hlen.
  induction Hrows as [|r M Hr _ IH]; intros [|v vals] Hlen; simplify_eq/=; try done.
  rewrite list_lookup_insert_eq by done. simpl. f_equal. by apply IH.
Qed.

(** ** The two column normalisations *)

Lemma normalise_column_spec (M : matrix) k c :
  Forall (λ r, length r = k) M → (c < k)%nat →
  length (normalise_column M c) = length M
  ∧ Forall (λ r, length r = k) (normalise_column M c)
  ∧ ∀ j, column (normalise_column M c) j
         = if decide (j = c) then scaled (column M c) else column M j.
Proof.
  intros Hrows Hc. unfold normalise_column.
  assert (length (scaled (column M c)) = length M) as Hlen.
  { unfold scaled. by rewrite length_fmap, length_column. }
  split_and!.
  - by apply length_set_column.
  - by apply rows_set_column.
  - intros j. case_decide as Hj.
    + subst j. apply column_set_column_eq; [done|].
      eapply Forall_impl; [done|]. simpl. lia.
    + by apply column_set_column_ne.
Qed.

Lemma normalise_column_skip_zero_spec (M : matrix) k c :
  Forall (λ r, length r = k) M → (c < k)%nat →
  length (normalise_column_skip_zero M c) = length M
  ∧ Forall (λ r, length r = k) (normalise_column_skip_zero M c)
  ∧ ∀ j, column (normalise_column_skip_zero M c) j
         = if decide (j = c) then scaled_skip_zero (column M c) else column M j.
Proof.
  intros Hrows Hc. unfold normalise_column_skip_zero, scaled_skip_zero.
  destruct (feqb _ _) eqn:Hz.
  - split_and!; [done..|]. intros j. case_decide; by subst.
  - by apply (normalise_column_spec M k c).
Qed.

Lemma normalise_columns_spec n (M : matrix) k :
  Forall (λ r, length r = k) M → (n ≤ k)%nat →
  length (normalise_columns n M) = length M
  ∧ Forall (λ r, length r = k) (normalise_columns n M)
  ∧ ∀ j, column (normalise_columns n M) j
         = if decide (j < n)%nat then scaled (column M j) else column M j.
Proof.
  intros Hrows. unfold normalise_columns.
  induction n as [|n IH]; intros Hn.
  - split_and!; [done..|]. intros j. by rewrite decide_False by lia.
  - destruct IH as (Hlen & Hrows' & Hcol); [lia|].
    rewrite seq_S, foldl_app. cbn [foldl plus].
    destruct (normalise_column_spec (foldl normalise_column M (seq 0 n)) k n)
      as (Hlen2 & Hrows2 & Hcol2); [done|lia|].
    split_and!; [congruence|done|].
    intros j. rewrite Hcol2, !Hcol.
    repeat case_decide; subst; try done; lia.
Qed.

Lemma normalise_columns_skip_zero_spec n (M : matrix) k :
  Forall (λ r, length r = k) M → (n ≤ k)%nat →
  length (normalise_columns_skip_zero n M) = length M
  ∧ Forall (λ r, length r = k) (normalise_columns_skip_zero n M)
  ∧ ∀ j, column (normalise_columns_skip_zero n M) j
         = if decide (j < n)%nat then scaled_skip_zero (column M j)
           else column M j.
Proof.
  intros Hrows. unfold normalise_columns_skip_zero.
  induction n as [|n IH]; intros Hn.
  - split_and!; [done..|]. intros j. by rewrite decide_False by lia.
  - destruct IH as (Hlen & Hrows' & Hcol); [lia|].
    rewrite seq_S, foldl_app. cbn [foldl plus].
    destruct (normalise_column_skip_zero_spec
                (foldl normalise_column_skip_zero M (seq 0 n)) k n)
      as (Hlen2 & Hrows2 & Hcol2); [done|lia|].
    split_and!; [congruence|done|].
    intros j. rewrite Hcol2, !Hcol.
    repeat case_decide; subst; try done; lia.
Qed.

(** ** Shapes, transposition and the mixing step *)

Lemma fmap_lookup_seq (r : list float64) :
  (λ j, default NaN (r !! j)) <$> seq 0 (length r) = r.
Proof.
  apply list_eq. intros i. rewrite list_lookup_fmap.
  destruct (decide (i < length r)%nat) as [Hi|Hi].
  - rewrite lookup_seq_lt by done. simpl.
    destruct (lookup_lt_is_Some_2 r i Hi) as [x Hx]. by rewrite Hx.
  - rewrite lookup_seq_ge by lia. by rewrite lookup_ge_None_2 by lia.
Qed.

Lemma ncols_square n (M : matrix) : square n M → ncols M = n.
Proof.
  intros [Hlen Hrows]. unfold ncols.
  destruct Hrows as [|r M Hr _]; simpl in *; congruence.
Qed.

Lemma square_rows n (M : matrix) i r : square n M → M !! i = Some r → length r = n.
Proof.
  intros [_ Hrows] Hi. rewrite Forall_forall in Hrows.
  apply Hrows. by eapply list_elem_of_lookup_2.
Qed.

Lemma transpose_square n (M : matrix) : square n M → square n (transpose M).
Proof.
  intros HM. unfold transpose. rewrite (ncols_square n M HM).
  split.
  - by rewrite length_fmap, length_seq.
  - apply Forall_fmap, Forall_forall. intros c _. simpl.
    rewrite length_column. apply HM.
Qed.

Lemma column_transpose n (M : matrix) c r :
  square n M → M !! c = Some r → column (transpose M) c = r.
Proof.
  intros HM Hc. unfold transpose. rewrite (ncols_square n M HM).
  unfold column at 1. rewrite <-list_fmap_compose.
  rewrite <-(fmap_lookup_seq r) at 1. rewrite (square_rows n M c r HM Hc).
  apply list_fmap_ext. intros _ j _. simpl.
  rewrite <-entry_column. unfold entry. by rewrite Hc.
Qed.

Lemma length_relative_reset_vector_norm b :
  length (relative_reset_vector_norm b) = length b.
Proof. unfold relative_reset_vector_norm. by rewrite length_fmap. Qed.

Lemma resetmatrix_square b : square (length b) (resetmatrix (length b) b).
Proof.
  unfold resetmatrix. split.
  - by rewrite length_replicate.
  - apply Forall_replicate. apply length_relative_reset_vector_norm.
Qed.

Lemma mix_square n m (G R : matrix) : square n G → square n R → square n (mix m G R).
Proof.
  intros [HG1 HG2] [HR1 HR2]. unfold mix. split.
  - rewrite length_zip_with. lia.
  - clear HG1 HR1. revert R HR2.
    induction HG2 as [|g G Hg _ IH]; intros R HR; [constructor|].
    destruct HR as [|r R Hr HR]; simpl; constructor.
    + rewrite length_zip_with. lia.
    + by apply IH.
Qed.

Lemma mix_lookup m (G R : matrix) i g r :
  G !! i = Some g → R !! i = Some r →
  mix m G R !! i
  = Some (zip_with (λ x y, fadd (fmul m x) (fmul (fsub (Fin 1) m) y)) g r).
Proof.
  intros HG HR. unfold mix. rewrite lookup_zip_with, HG. simpl. by rewrite HR.
Qed.

Lemma normalise_columns_skip_zero_square n (M : matrix) :
  square n M → square n (normalise_columns_skip_zero n M).
Proof.
  intros [Hlen Hrows].
  destruct (normalise_columns_skip_zero_spec n M n Hrows) as (? & ? & _); [lia|].
  split; [congruence|done].
Qed.

Lemma normalise_columns_square n (M : matrix) :
  square n M → square n (normalise_columns n M).
Proof.
  intros [Hlen Hrows].
  destruct (normalise_columns_spec n M n Hrows) as (? & ? & _); [lia|].
  split; [congruence|done].
Qed.

(** The weight matrix is square, and its column [c] is row [c] of the
    mixed matrix divided by the sum of its absolute values. *)
Lemma weightmatrix_spec (G : matrix) b m :
  let n := length G in
  let W := mix m (normalise_columns_skip_zero n G) (resetmatrix n b) in
  square n G → length b = n →
  square n (weight_matrices G b m).1.1
  ∧ ∀ c r, W !! c = Some r → column (weight_matrices G b m).1.1 c = scaled r.
Proof.
  intros n W HG Hb. unfold weight_matrices. fold n. fold W. cbn [fst].
  assert (square n W) as HW.
  { apply mix_square; [by apply normalise_columns_skip_zero_square|].
    rewrite <-Hb. apply resetmatrix_square. }
  assert (square n (transpose W)) as HT by by apply transpose_square.
  split; [by apply normalise_columns_square|].
  intros c r Hc.
  destruct (normalise_columns_spec n (transpose W) n) as (_ & _ & Hcol);
    [apply HT|lia|].
  rewrite Hcol, (column_transpose n W c r HW Hc).
  rewrite decide_True; [done|].
  apply lookup_lt_Some in Hc. destruct HW as [HW _]. lia.
Qed.

Lemma gainmatrix2_square (G : matrix) b m :
  square (length G) G → square (length G) (weight_matrices G b m).1.2.
Proof.
  intros HG. unfold weight_matrices. cbn [fst snd].
  by apply normalise_columns_skip_zero_square, transpose_square,
    normalise_columns_skip_zero_square.
Qed.

(** ** The reset matrix (C4) *)

Lemma resetmatrix_lookup n b i :
  (i < n)%nat → resetmatrix n b !! i = Some (relative_reset_vector_norm b).
Proof. intros Hi. unfold resetmatrix. by apply lookup_replicate_2. Qed.

(** C4, counterexample.  The claim reads: every column of the reset
    matrix is the normalised bias vector, [R[i,j] = b_norm[i]].  For the
    bias vector [1, 3] the normalised vector is [1/4, 3/4]; the reset
    matrix has it as each of its rows, so [R[0,1] = 3/4] while
    [b_norm[0] = 1/4], and column 1 is [3/4, 3/4]. *)
Lemma resetmatrix_columns_counterexample :
  relative_reset_vector_norm [rat 1 1; rat 3 1] = [rat 1 4; rat 3 4]
  ∧ resetmatrix 2 [rat 1 1; rat 3 1] = [[rat 1 4; rat 3 4]; [rat 1 4; rat 3 4]]
  ∧ entry (resetmatrix 2 [rat 1 1; rat 3 1]) 0 1
    ≠ default NaN (relative_reset_vector_norm [rat 1 1; rat 3 1] !! 0%nat)
  ∧ column (resetmatrix 2 [rat 1 1; rat 3 1]) 1
    ≠ relative_reset_vector_norm [rat 1 1; rat 3 1].
Proof. split_and!; compute_done. Qed.

(** C4, amended.  Every row of the reset matrix is the bias vector
    divided by its sum: [R[i,j] = b[j] / sum(b)] for every row [i], so
    column [j] repeats the single value [b_norm[j]]. *)
Theorem resetmatrix_rows_are_bias (n : nat) (b : list float64) (i j : nat) :
  (i < n)%nat →
  resetmatrix n b !! i = Some (relative_reset_vector_norm b)
  ∧ entry (resetmatrix n b) i j
    = default NaN (relative_reset_vector_norm b !! j)
  ∧ relative_reset_vector_norm b !! j = (λ x, fdiv x (fsum b)) <$> b !! j
  ∧ column (resetmatrix n b) j
    = replicate n (default NaN (relative_reset_vector_norm b !! j)).
Proof.
  intros Hi.
  pose proof (resetmatrix_lookup n b i Hi) as Hrow.
  split_and!.
  - done.
  - unfold entry. by rewrite Hrow.
  - unfold relative_reset_vector_norm. by rewrite list_lookup_fmap.
  - unfold column, resetmatrix. by rewrite fmap_replicate.
Qed.

Lemma resetmatrix_rows_are_bias_witness :
  entry (resetmatrix 2 [rat 1 1; rat 3 1]) 0 1
  = default NaN (relative_reset_vector_norm [rat 1 1; rat 3 1] !! 1%nat).
Proof.
  apply (resetmatrix_rows_are_bias 2 [rat 1 1; rat 3 1] 0 1). lia.
Defined.

(** ** A zero column of the gain matrix (C2) *)

Lemma scaled_skip_zero_zeros n :
  scaled_skip_zero (replicate n (Fin 0)) = replicate n (Fin 0).
Proof.
  unfold scaled_skip_zero.
  rewrite fsum_zeros; [done|].
  rewrite fmap_replicate. by apply Forall_replicate.
Qed.

Lemma column_lookup (M : matrix) i j r :
  M !! i = Some r → column M j !! i = Some (default NaN (r !! j)).
Proof. intros H. unfold column. by rewrite list_lookup_fmap, H. Qed.

(** C2, counterexample.  Gain matrix [[0,1],[0,0]] (column 0 is zero),
    bias [1, 1], m = 1/2.  The mixed matrix is [[1/4,3/4],[1/4,1/4]],
    its transpose [[1/4,1/4],[3/4,1/4]] has column sums 1 and 1/2, and
    the weight matrix is [[1/4,1/2],[3/4,1/2]]: neither column 0 nor
    row 0 of it is zero. *)
Lemma zero_column_weightmatrix_counterexample :
  column [[rat 0 1; rat 1 1]; [rat 0 1; rat 0 1]] 0 = [Fin 0; Fin 0]
  ∧ (weight_matrices [[rat 0 1; rat 1 1]; [rat 0 1; rat 0 1]]
       [rat 1 1; rat 1 1] (rat 1 2)).1.1
    = [[rat 1 4; rat 1 2]; [rat 3 4; rat 1 2]]
  ∧ column (weight_matrices [[rat 0 1; rat 1 1]; [rat 0 1; rat 0 1]]
              [rat 1 1; rat 1 1] (rat 1 2)).1.1 0
    ≠ [Fin 0; Fin 0].
Proof. split_and!; compute_done. Qed.

(** C2, amended.  For an n by n gain matrix whose column [j] is zero,
    a bias vector of length n and a finite m: the first normalisation
    leaves column [j] zero (nothing is filled in); column [j] of
    [m*G1 + (1-m)*R] then holds the reset term [(1-m) * b_norm[j]] in
    every row; and after the transposition this is row [j] of the
    weight matrix, whose entry in column [c] is the reset term divided
    by the sum of the absolute values of row [c] of the mixed matrix. *)
Theorem zero_gain_column_carries_reset_term (G : matrix) (b : list float64)
    (mq : Qc) (j : nat) :
  let n := length G in
  let G1 := normalise_columns_skip_zero n G in
  let W := mix (Fin mq) G1 (resetmatrix n b) in
  let reset_term :=
    fmul (fsub (Fin 1) (Fin mq))
         (default NaN (relative_reset_vector_norm b !! j)) in
  square n G → length b = n → (j < n)%nat →
  column G j = replicate n (Fin 0) →
  (weight_matrices G b (Fin mq)).2 = G1
  ∧ column G1 j = replicate n (Fin 0)
  ∧ column W j = replicate n reset_term
  ∧ ∀ c, (c < n)%nat →
      entry (weight_matrices G b (Fin mq)).1.1 j c
      = fdiv reset_term (fsum (fabs <$> column (transpose W) c)).
Proof.
  intros n G1 W reset_term HG Hb Hj Hzero.
  assert (square n G1) as HG1 by by apply normalise_columns_skip_zero_square.
  assert (square n (resetmatrix n b)) as HR.
  { rewrite <-Hb. apply resetmatrix_square. }
  assert (square n W) as HW by by apply mix_square.
  assert (column G1 j = replicate n (Fin 0)) as HG1j.
  { destruct (normalise_columns_skip_zero_spec n G n) as (_ & _ & Hcol);
      [apply HG|lia|].
    unfold G1. rewrite (Hcol j), decide_True by done.
    rewrite Hzero. apply scaled_skip_zero_zeros. }
  (* every row of the mixed matrix has the reset term at position j *)
  assert (∀ i r, W !! i = Some r → r !! j = Some reset_term) as Hrowj.
  { intros i r Hi.
    assert (i < n)%nat as Hin.
    { apply lookup_lt_Some in Hi. destruct HW as [HW _]. lia. }
    destruct (lookup_lt_is_Some_2 G1 i) as [g Hg]; [destruct HG1; lia|].
    pose proof (resetmatrix_lookup n b i Hin) as Hr.
    unfold W in Hi.
    rewrite (mix_lookup (Fin mq) G1 (resetmatrix n b) i g _ Hg Hr) in Hi.
    injection Hi as <-.
    assert (g !! j = Some (Fin 0)) as Hgj.
    { pose proof (column_lookup G1 i j g Hg) as Hc.
      rewrite HG1j, lookup_replicate_2 in Hc by done.
      destruct (lookup_lt_is_Some_2 g j) as [x Hx].
      { rewrite (square_rows n G1 i g HG1 Hg). done. }
      rewrite Hx in Hc. simpl in Hc. congruence. }
    destruct (lookup_lt_is_Some_2 (relative_reset_vector_norm b) j) as [y Hy].
    { rewrite length_relative_reset_vector_norm. lia. }
    rewrite lookup_zip_with, Hgj. simpl. rewrite Hy. simpl.
    unfold reset_term. rewrite Hy. simpl.
    by rewrite fmul_fin_0_r, fadd_0_l. }
  split_and!.
  - done.
  - done.
  - apply list_eq. intros i. unfold column. rewrite list_lookup_fmap.
    destruct (decide (i < n)%nat) as [Hi|Hi].
    + destruct (lookup_lt_is_Some_2 W i) as [r Hr]; [destruct HW; lia|].
      rewrite Hr. simpl. rewrite (Hrowj i r Hr). simpl.
      by rewrite lookup_replicate_2.
    + rewrite lookup_ge_None_2 by (destruct HW; lia). simpl.
      symmetry. apply lookup_replicate_None. lia.
  - intros c Hc.
    destruct (lookup_lt_is_Some_2 W c) as [r Hr]; [destruct HW; lia|].
    destruct (weightmatrix_spec G b (Fin mq) HG Hb) as [_ Hcol].
    rewrite entry_column, (Hcol c r Hr).
    rewrite (column_transpose n W c r HW Hr).
    unfold scaled. rewrite list_lookup_fmap, (Hrowj c r Hr). done.
Qed.

Lemma zero_gain_column_carries_reset_term_witness :
  column (mix (rat 1 2)
            (normalise_columns_skip_zero 2 [[rat 0 1; rat 1 1]; [rat 0 1; rat 0 1]])
            (resetmatrix 2 [rat 1 1; rat 1 1])) 0
  = replicate 2 (fmul (fsub (Fin 1) (rat 1 2))
       (default NaN (relative_reset_vector_norm [rat 1 1; rat 1 1] !! 0%nat))).
Proof.
  apply (zero_gain_column_carries_reset_term
           [[rat 0 1; rat 1 1]; [rat 0 1; rat 0 1]] [rat 1 1; rat 1 1]
           (Q2Qc (1 # 2)) 0).
  - split; [done|]. repeat constructor.
  - done.
  - simpl. lia.
  - compute_done.
Defined.

(** ** The second normalisation has no zero guard (C5) *)

(** C5, the code at two failing inputs.  With the gain matrix
    [[0,0],[1,1]], bias [1, 1] and m = 1 the mixed matrix is the gain
    matrix itself, column 0 of its transpose is zero, and the loop at
    lines 177-179 divides it by its zero sum: the weight matrix has
    NaN there, where the guarded loop of lines 149-158 would have left
    the zeros.  With the 1 by 1 gain matrix [[-1]], bias [1] and
    m = 1/2 the same happens for an m below one. *)
Theorem unguarded_normalisation_divides_by_zero :
  column (transpose (mix (rat 1 1)
            (normalise_columns_skip_zero 2 [[rat 0 1; rat 0 1]; [rat 1 1; rat 1 1]])
            (resetmatrix 2 [rat 1 1; rat 1 1]))) 0
  = [Fin 0; Fin 0]
  ∧ (weight_matrices [[rat 0 1; rat 0 1]; [rat 1 1; rat 1 1]]
       [rat 1 1; rat 1 1] (rat 1 1)).1.1
    = [[NaN; rat 1 2]; [NaN; rat 1 2]]
  ∧ normalise_columns_skip_zero 2
      (transpose (mix (rat 1 1)
         (normalise_columns_skip_zero 2 [[rat 0 1; rat 0 1]; [rat 1 1; rat 1 1]])
         (resetmatrix 2 [rat 1 1; rat 1 1])))
    = [[Fin 0; rat 1 2]; [Fin 0; rat 1 2]]
  ∧ transpose (mix (rat 1 2) (normalise_columns_skip_zero 1 [[rat (-1) 1]])
                 (resetmatrix 1 [rat 1 1]))
    = [[Fin 0]]
  ∧ (weight_matrices [[rat (-1) 1]] [rat 1 1] (rat 1 2)).1.1 = [[NaN]].
Proof. split_and!; compute_done. Qed.

(** ** Loops that may raise *)

Lemma foldlM_app {A B} (f : A → B → result A) l1 l2 a :
  foldlM f a (l1 ++ l2) = (a' ← foldlM f a l1; foldlM f a' l2).
Proof.
  revert a. induction l1 as [|x l1 IH]; intros a; simpl; [done|].
  destruct (f a x) as [a'|e]; simpl; [apply IH|done].
Qed.

(** A loop invariant indexed by the part of the list already seen. *)
Lemma foldlM_ind {A B} (f : A → B → result A) (I : list B → A → Prop) l a r :
  foldlM f a l = Ok r →
  I [] a →
  (∀ pre x a a', x ∈ l → I pre a → f a x = Ok a' → I (pre ++ [x]) a') →
  I l r.
Proof.
  intros Hrun Hinit Hstep.
  assert (∀ pre suf a, pre ++ suf = l → I pre a → foldlM f a suf = Ok r → I l r)
    as Hgen.
  { intros pre suf. revert pre.
    induction suf as [|x suf IH]; intros pre a0 Hl Hpre Hfold; simpl in *.
    - rewrite app_nil_r in Hl. by simplify_eq.
    - destruct (f a0 x) as [a'|e] eqn:Hf; simpl in Hfold; [|done].
      apply (IH (pre ++ [x]) a'); [by rewrite <-app_assoc| |done].
      eapply Hstep; [|done..]. subst l. set_solver. }
  by apply (Hgen [] l a).
Qed.

Lemma bind_Ok {A B} (x : A) (f : A → result B) : (Ok x ≫= f) = f x.
Proof. done. Qed.

(** A loop whose body never raises returns. *)
Lemma foldlM_ok {A B} (f : A → B → result A) l a :
  (∀ a x, x ∈ l → ∃ a', f a x = Ok a') → ∃ r, foldlM f a l = Ok r.
Proof.
  revert a. induction l as [|x l IH]; intros a Hstep; simpl; [by eexists|].
  destruct (Hstep a x) as [a' ->]; [set_solver|]. simpl.
  apply IH. intros a0 y Hy. apply Hstep. set_solver.
Qed.

Lemma elem_of_enumerate {A} (l : list A) i x :
  (i, x) ∈ enumerate l ↔ l !! i = Some x.
Proof.
  unfold enumerate. rewrite elem_of_lookup_imap. split.
  - intros (j & y & ? & ?). by simplify_eq.
  - intros ?. by exists i, x.
Qed.

Lemma get_entry_ok n (M : matrix) row col :
  square n M → (row < n)%nat → (col < n)%nat →
  get_entry M row col = Ok (entry M row col).
Proof.
  intros HM Hr Hc. unfold get_entry, entry.
  destruct (lookup_lt_is_Some_2 M row) as [r Hrow]; [destruct HM; lia|].
  rewrite Hrow. simpl.
  destruct (lookup_lt_is_Some_2 r col) as [x Hx].
  { by rewrite (square_rows n M row r HM Hrow). }
  by rewrite Hx.
Qed.

(** ** Edges of a graph *)

Lemma edge_add_edge G u v a k :
  edge (add_edge G u v a) !! k
  = if decide (k = (u, v)) then Some (a ∪ default ∅ (edge G !! (u, v)))
    else edge G !! k.
Proof.
  unfold add_edge. simpl. case_decide as Hk.
  - subst k. by rewrite lookup_insert_eq.
  - by rewrite lookup_insert_ne.
Qed.

Lemma edge_weight_add_edge G u v (a : attrs) w u' v' :
  a !! "weight" = Some w →
  edge_weight (add_edge G u v a) u' v'
  = if decide ((u', v') = (u, v)) then Some w else edge_weight G u' v'.
Proof.
  intros Ha. unfold edge_weight. rewrite edge_add_edge.
  case_decide; [|done]. simpl.
  by apply lookup_union_Some_l.
Qed.

Lemma edge_weight_reverse G u v :
  edge_weight (DiGraph_reverse G) v u = edge_weight G u v.
Proof.
  unfold edge_weight, DiGraph_reverse. simpl.
  by rewrite (lookup_kmap prod_swap (edge G) (u, v)).
Qed.

(** ** The graphs built by [calc_simple_rank] *)

Lemma build_graphs_spec n (WM GM : matrix) (variables : list string) :
  square n WM → square n GM → (length variables ≤ n)%nat →
  ∃ reset sparse, build_graphs WM GM variables = Ok (reset, sparse)
    ∧ (∀ row col rv cv,
         variables !! row = Some rv → variables !! col = Some cv →
         is_Some (edge_weight reset rv cv))
    ∧ (∀ u v w, edge_weight reset u v = Some w →
         ∃ row col, variables !! row = Some u ∧ variables !! col = Some v
                    ∧ w = entry WM row col).
Proof.
  intros HWM HGM Hlen.
  set (inner := λ (col : nat) (colvar : string)
         '((reset_gaingraph, sparse_gaingraph) : DiGraph * DiGraph)
         '((row, rowvar) : nat * string),
      w ← get_entry WM row col;
      let reset_gaingraph :=
        add_edge reset_gaingraph rowvar colvar {["weight" := w]} in
      g ← get_entry GM row col;
      if fneb g (Fin 0) then
        Ok (reset_gaingraph,
            add_edge sparse_gaingraph rowvar colvar {["weight" := g]})
      else Ok (reset_gaingraph, sparse_gaingraph)).
  set (sound := λ G : DiGraph, ∀ u v w, edge_weight G u v = Some w →
         ∃ row col, variables !! row = Some u ∧ variables !! col = Some v
                    ∧ w = entry WM row col).
  (* one turn of the inner loop *)
  assert (∀ col cv row rv gs, variables !! col = Some cv →
            variables !! row = Some rv →
            ∃ sparse', inner col cv gs (row, rv)
              = Ok (add_edge gs.1 rv cv {["weight" := entry WM row col]}, sparse'))
    as Hinner.
  { intros col cv row rv [r s] Hcol Hrow. unfold inner.
    apply lookup_lt_Some in Hcol, Hrow.
    rewrite (get_entry_ok n WM row col), (get_entry_ok n GM row col)
      by (done || lia).
    simpl. destruct (fneb _ _); by eexists. }
  (* the inner loop, for one column *)
  assert (∀ col cv gs, variables !! col = Some cv → sound gs.1 →
            ∃ gs', foldlM (inner col cv) gs (enumerate variables) = Ok gs'
              ∧ sound gs'.1
              ∧ (∀ u v, is_Some (edge_weight gs.1 u v) →
                        is_Some (edge_weight gs'.1 u v))
              ∧ (∀ row rv, variables !! row = Some rv →
                           is_Some (edge_weight gs'.1 rv cv)))
    as Hcolumn.
  { intros col cv gs Hcol Hsound.
    destruct (foldlM_ok (inner col cv) (enumerate variables) gs) as [gs' Hrun].
    { intros a [row rv] Hx%elem_of_enumerate.
      destruct (Hinner col cv row rv a Hcol Hx) as [s' ->]. by eexists. }
    exists gs'. split; [done|].
    pose proof (foldlM_ind (inner col cv)
      (λ pre a, sound a.1
         ∧ (∀ u v, is_Some (edge_weight gs.1 u v) → is_Some (edge_weight a.1 u v))
         ∧ (∀ row rv, (row, rv) ∈ pre → is_Some (edge_weight a.1 rv cv)))
      (enumerate variables) gs gs' Hrun) as Hind.
    destruct Hind as (Hs & Hmono & Hpres).
    - split_and!; [done|done|]. intros ?? []%elem_of_nil.
    - intros pre [row rv] a a' Hx%elem_of_enumerate (Hs & Hmono & Hpres) Hstep.
      destruct (Hinner col cv row rv a Hcol Hx) as [s' Heq].
      rewrite Heq in Hstep. injection Hstep as <-. cbn [fst].
      split_and!.
      + intros u v w. rewrite (edge_weight_add_edge _ _ _ _ (entry WM row col))
          by apply lookup_singleton_eq.
        case_decide as Huv.
        * intros [= <-]. injection Huv as -> ->. by exists row, col.
        * apply Hs.
      + intros u v Huv. rewrite (edge_weight_add_edge _ _ _ _ (entry WM row col))
          by apply lookup_singleton_eq.
        case_decide; [by eexists|]. by apply Hmono.
      + intros row' rv' Hin.
        rewrite (edge_weight_add_edge _ _ _ _ (entry WM row col))
          by apply lookup_singleton_eq.
        case_decide; [by eexists|].
        apply elem_of_app in Hin as [Hin|Hin%list_elem_of_singleton].
        * by apply (Hpres row' rv').
        * by simplify_eq.
    - split_and!; [done|done|].
      intros row rv Hrow. apply (Hpres row rv). by apply elem_of_enumerate. }
  (* the outer loop *)
  set (outer := λ (graphs : DiGraph * DiGraph) '((col, colvar) : nat * string),
         foldlM (inner col colvar) graphs (enumerate variables)).
  assert (build_graphs WM GM variables
          = foldlM outer (empty_DiGraph, empty_DiGraph) (enumerate variables))
    as Hbuild by done.
  assert (∀ pre gs gs', Forall (λ x, x ∈ enumerate variables) pre →
            sound gs.1 → foldlM outer gs pre = Ok gs' →
            sound gs'.1
            ∧ (∀ u v, is_Some (edge_weight gs.1 u v) →
                      is_Some (edge_weight gs'.1 u v))
            ∧ (∀ col cv, (col, cv) ∈ pre → ∀ row rv,
                 variables !! row = Some rv → is_Some (edge_weight gs'.1 rv cv)))
    as Houter.
  { induction pre as [|[col cv] pre IH]; intros gs gs' Hall Hs Hrun.
    - simpl in Hrun. injection Hrun as <-.
      split_and!; [done|done|]. intros ?? []%elem_of_nil.
    - apply Forall_cons in Hall as [Hx%elem_of_enumerate Hall].
      simpl in Hrun.
      destruct (Hcolumn col cv gs Hx Hs) as (gs1 & Hrun1 & Hs1 & Hmono1 & Hpres1).
      unfold outer at 1 in Hrun. rewrite Hrun1 in Hrun. simpl in Hrun.
      destruct (IH gs1 gs' Hall Hs1 Hrun) as (Hs' & Hmono' & Hpres').
      split_and!; [done|by auto|].
      intros col' cv' Hin row rv Hrow.
      apply elem_of_cons in Hin as [Heq|Hin].
      + simplify_eq. apply Hmono'. by apply (Hpres1 row rv).
      + by apply (Hpres' col' cv' Hin row rv). }
  destruct (foldlM_ok outer (enumerate variables) (empty_DiGraph, empty_DiGraph))
    as [[reset sparse] Hrun].
  { intros a [col cv] Hx%elem_of_enumerate. unfold outer.
    apply (foldlM_ok (inner col cv)).
    intros a0 [row rv] Hy%elem_of_enumerate.
    destruct (Hinner col cv row rv a0 Hx Hy) as [s' ->]. by eexists. }
  exists reset, sparse. rewrite Hbuild. split; [done|].
  destruct (Houter (enumerate variables) (empty_DiGraph, empty_DiGraph)
              (reset, sparse)) as (Hs & _ & Hpres); [| |done|].
  { by apply Forall_forall. }
  { intros u v w Hw. unfold edge_weight in Hw. simpl in Hw.
    by rewrite lookup_empty in Hw. }
  split; [|done].
  intros row col rv cv Hrow Hcol.
  eapply (Hpres col cv); [by apply elem_of_enumerate|done].
Qed.

(** Two loops that stay related turn by turn end related. *)
Lemma foldlM_rel {A A' B} (f : A → B → result A) (g : A' → B → result A')
    (R : A → A' → Prop) l a a' r r' :
  R a a' →
  (∀ x a a' b b', x ∈ l → R a a' → f a x = Ok b → g a' x = Ok b' → R b b') →
  foldlM f a l = Ok r → foldlM g a' l = Ok r' → R r r'.
Proof.
  revert a a'. induction l as [|x l IH]; intros a a' HR Hstep Hf Hg.
  - cbn in Hf, Hg. by simplify_eq.
  - cbn [foldlM] in Hf, Hg.
    destruct (f a x) as [b|] eqn:Hfx; [|done].
    destruct (g a' x) as [b'|] eqn:Hgx; [|done].
    simpl in Hf, Hg.
    apply (IH b b'); [|intros; eapply Hstep; set_solver|done|done].
    eapply (Hstep x a a'); [set_solver|done..].
Qed.

(** The sparse graph depends on the gain matrix only. *)
Lemma build_graphs_sparse_indep (WM WM' GM : matrix) variables r s r' s' :
  build_graphs WM GM variables = Ok (r, s) →
  build_graphs WM' GM variables = Ok (r', s') →
  s = s'.
Proof.
  intros H1 H2. unfold build_graphs in H1, H2.
  refine (foldlM_rel _ _ (λ gs gs' : DiGraph * DiGraph, gs.2 = gs'.2)
            _ _ _ (r, s) (r', s') eq_refl _ H1 H2).
  intros [col cv] a a' b0 b0' _ HR Hf Hg.
  refine (foldlM_rel _ _ (λ gs gs' : DiGraph * DiGraph, gs.2 = gs'.2)
            _ _ _ b0 b0' HR _ Hf Hg).
  intros [row rv] [cr cs] [cr' cs'] d d' _ HR' Hf' Hg'.
  simpl in HR'. subst cs'.
  destruct (get_entry WM row col) as [w|]; [|done]. rewrite bind_Ok in Hf'.
  destruct (get_entry WM' row col) as [w'|]; [|done]. rewrite bind_Ok in Hg'.
  cbv zeta in Hf', Hg'.
  destruct (get_entry GM row col) as [g|]; [|done].
  rewrite bind_Ok in Hf', Hg'.
  destruct (fneb g (Fin 0)); by simplify_eq.
Qed.

Lemma weight_matrices_square (G : matrix) b m :
  square (length G) G → length b = length G →
  square (length G) (weight_matrices G b m).1.1
  ∧ square (length G) (weight_matrices G b m).1.2.
Proof.
  intros HG Hb. split.
  - by apply weightmatrix_spec.
  - by apply gainmatrix2_square.
Qed.

(** On well-shaped input the two graphs are built without an
    [IndexError]. *)
Lemma calc_simple_rank_graphs (G : matrix) variables b mm :
  well_shaped G variables b →
  ∃ reset sparse,
    build_graphs (weight_matrices G b mm).1.1 (weight_matrices G b mm).1.2
      variables = Ok (reset, sparse)
    ∧ (∀ row col rv cv,
         variables !! row = Some rv → variables !! col = Some cv →
         is_Some (edge_weight reset rv cv))
    ∧ (∀ u v w, edge_weight reset u v = Some w →
         ∃ row col, variables !! row = Some u ∧ variables !! col = Some v
                    ∧ w = entry (weight_matrices G b mm).1.1 row col).
Proof.
  intros (HG & Hv & Hb).
  destruct (weight_matrices_square G b mm HG Hb) as [HW HG2].
  apply (build_graphs_spec (length G)); [done|done|lia].
Qed.

(** ** The direction of the edges (C3) *)

(** C3, counterexample.  Gain matrix [[0,1],[0,0]], bias [1, 1],
    m = 1/2, variables a, b.  The weight matrix is
    [[1/4,1/2],[3/4,1/2]].  The claim gives the graph handed to
    [eigenvector_centrality], the reversal of a graph with edges from
    column variable to row variable, an edge from a (row 0) to b
    (column 1) of weight [weightmatrix[0,1] = 1/2].  In the code that
    edge has weight [weightmatrix[1,0] = 3/4]. *)
Lemma eigenvector_graph_direction_counterexample :
  (weight_matrices [[rat 0 1; rat 1 1]; [rat 0 1; rat 0 1]]
     [rat 1 1; rat 1 1] (rat 1 2)).1.1
  = [[rat 1 4; rat 1 2]; [rat 3 4; rat 1 2]]
  ∧ calc_simple_rank_call [[rat 0 1; rat 1 1]; [rat 0 1; rat 0 1]] ["a"; "b"]
      [rat 1 1; rat 1 1]
      (mkNoderankData (rat 1 2) None ["a"; "b"] [] [rat 1 1; rat 1 1] false)
      "eigenvector" "networkx"
    = Ok (eigenvector_centrality
            (mkDiGraph
               (list_to_map [("a", ∅); ("b", ∅)])
               (list_to_map
                  [(("a", "a"), {["weight" := rat 1 4]});
                   (("a", "b"), {["weight" := rat 3 4]});
                   (("b", "a"), {["weight" := rat 1 2]});
                   (("b", "b"), {["weight" := rat 1 2]})]))).
Proof. split; compute_done. Qed.

(** C3, amended.  For well-shaped input with distinct variable names
    the graph built for the eigenvector method has, for every row and
    column index, the edge from the row variable to the column
    variable with weight [weightmatrix[row,col]]; the centrality is
    computed on its reversal, which has the edge from the column
    variable to the row variable with that weight. *)
Theorem eigenvector_graph_edges (G : matrix) (variables : list string)
    (b : list float64) (data : NoderankData) :
  well_shaped G variables b → NoDup variables →
  ∃ reset sparse,
    build_graphs (weight_matrices G b (m data)).1.1
                 (weight_matrices G b (m data)).1.2 variables
    = Ok (reset, sparse)
    ∧ calc_simple_rank_call G variables b data "eigenvector" "networkx"
      = Ok (eigenvector_centrality (DiGraph_reverse reset))
    ∧ ∀ row col rowvar colvar,
        variables !! row = Some rowvar → variables !! col = Some colvar →
        edge_weight reset rowvar colvar
        = Some (entry (weight_matrices G b (m data)).1.1 row col)
        ∧ edge_weight (DiGraph_reverse reset) colvar rowvar
          = Some (entry (weight_matrices G b (m data)).1.1 row col).
Proof.
  intros Hshape Hnd.
  destruct (calc_simple_rank_graphs G variables b (m data) Hshape)
    as (reset & sparse & Hbuild & Hpres & Hsound).
  exists reset, sparse. split_and!.
  - done.
  - unfold calc_simple_rank_call.
    destruct (weight_matrices G b (m data)) as [[WM GM] G1].
    cbn [fst snd] in Hbuild. rewrite decide_True by done.
    by rewrite Hbuild.
  - intros row col rv cv Hrow Hcol.
    destruct (Hpres row col rv cv Hrow Hcol) as [w Hw].
    destruct (Hsound rv cv w Hw) as (row' & col' & Hrow' & Hcol' & ->).
    rewrite (NoDup_lookup variables row row' rv Hnd Hrow Hrow') in *.
    rewrite (NoDup_lookup variables col col' cv Hnd Hcol Hcol') in *.
    by rewrite edge_weight_reverse.
Qed.

Lemma eigenvector_graph_edges_witness :
  ∃ reset sparse,
    build_graphs
      (weight_matrices [[rat 0 1; rat 1 1]; [rat 0 1; rat 0 1]]
         [rat 1 1; rat 1 1] (rat 1 2)).1.1
      (weight_matrices [[rat 0 1; rat 1 1]; [rat 0 1; rat 0 1]]
         [rat 1 1; rat 1 1] (rat 1 2)).1.2 ["a"; "b"]
    = Ok (reset, sparse)
    ∧ edge_weight (DiGraph_reverse reset) "b" "a"
      = Some (entry (weight_matrices [[rat 0 1; rat 1 1]; [rat 0 1; rat 0 1]]
                       [rat 1 1; rat 1 1] (rat 1 2)).1.1 0 1).
Proof.
  destruct (eigenvector_graph_edges
              [[rat 0 1; rat 1 1]; [rat 0 1; rat 0 1]] ["a"; "b"]
              [rat 1 1; rat 1 1]
              (mkNoderankData (rat 1 2) None ["a"; "b"] [] [rat 1 1; rat 1 1] false))
    as (reset & sparse & Hbuild & _ & Hedges).
  - repeat split; repeat constructor.
  - compute_done.
  - exists reset, sparse. split; [exact Hbuild|].
    by apply (Hedges 0%nat 1%nat "a" "b").
Defined.

(** ** A bias vector that sums to zero (C8) *)

(** C8, counterexample.  Gain matrix [[0,1],[1,0]], variables a, b,
    m = 1/2 and the bias vector [0, 0], whose sum is zero.  Nothing is
    raised: the normalised reset vector is [NaN, NaN], every entry of
    the weight matrix is NaN, and the eigenvector method reaches its
    library call with a graph whose weights are all NaN; the pagerank
    method reaches its call with the graph of the gain matrix, which
    the bias vector does not enter. *)
Lemma zero_sum_bias_counterexample :
  fsum [rat 0 1; rat 0 1] = Fin 0
  ∧ relative_reset_vector_norm [rat 0 1; rat 0 1] = [NaN; NaN]
  ∧ calc_simple_rank_call [[rat 0 1; rat 1 1]; [rat 1 1; rat 0 1]] ["a"; "b"]
      [rat 0 1; rat 0 1]
      (mkNoderankData (rat 1 2) None ["a"; "b"] [] [rat 0 1; rat 0 1] false)
      "eigenvector" "networkx"
    = Ok (eigenvector_centrality
            (mkDiGraph
               (list_to_map [("a", ∅); ("b", ∅)])
               (list_to_map
                  [(("a", "a"), {["weight" := NaN]});
                   (("a", "b"), {["weight" := NaN]});
                   (("b", "a"), {["weight" := NaN]});
                   (("b", "b"), {["weight" := NaN]})])))
  ∧ calc_simple_rank_call [[rat 0 1; rat 1 1]; [rat 1 1; rat 0 1]] ["a"; "b"]
      [rat 0 1; rat 0 1]
      (mkNoderankData (rat 1 2) None ["a"; "b"] [] [rat 0 1; rat 0 1] false)
      "pagerank" "networkx"
    = Ok (pagerank
            (mkDiGraph
               (list_to_map [("a", ∅); ("b", ∅)])
               (list_to_map
                  [(("a", "b"), {["weight" := rat 1 1]});
                   (("b", "a"), {["weight" := rat 1 1]})]))
            (rat 1 2)).
Proof. split_and!; compute_done. Qed.

(** Once a value is not finite, what is computed from it is not. *)
Lemma fmul_nonfinite_r x y : is_finite y = false → is_finite (fmul x y) = false.
Proof.
  unfold fmul, scale_inf.
  destruct x as [a| | |], y as [c| | |]; try done; intros _;
    repeat case_decide; done.
Qed.

Lemma fadd_nonfinite_r x y : is_finite y = false → is_finite (fadd x y) = false.
Proof. unfold fadd. by destruct x as [a| | |], y as [c| | |]. Qed.

Lemma fadd_nonfinite_l x y : is_finite x = false → is_finite (fadd x y) = false.
Proof. unfold fadd. by destruct x as [a| | |], y as [c| | |]. Qed.

Lemma fabs_nonfinite x : is_finite x = false → is_finite (fabs x) = false.
Proof. unfold fabs. by destruct x. Qed.

Lemma fdiv_nonfinite x y :
  is_finite x = false → is_finite y = false → fdiv x y = NaN.
Proof. unfold fdiv. by destruct x as [a| | |], y as [c| | |]. Qed.

Lemma fsum_nonfinite xs :
  Exists (λ x, is_finite x = false) xs → is_finite (fsum xs) = false.
Proof.
  induction 1 as [x xs Hx|x xs _ IH]; rewrite fsum_cons.
  - by apply fadd_nonfinite_l.
  - by apply fadd_nonfinite_r.
Qed.

(** A row that holds no finite value is all NaN after its division by
    the sum of its absolute values. *)
Lemma scaled_nonfinite xs :
  Forall (λ x, is_finite x = false) xs → Forall (λ x, x = NaN) (scaled xs).
Proof.
  intros Hxs. unfold scaled. apply Forall_fmap, Forall_forall.
  intros x Hx. simpl.
  rewrite Forall_forall in Hxs. apply fdiv_nonfinite; [by apply Hxs|].
  apply fsum_nonfinite, Exists_exists. exists (fabs x). split.
  - apply list_elem_of_fmap. by exists x.
  - by apply fabs_nonfinite, Hxs.
Qed.

Lemma mix_row_nonfinite mm (g r : list float64) :
  Forall (λ x, is_finite x = false) r →
  Forall (λ x, is_finite x = false)
    (zip_with (λ x y, fadd (fmul mm x) (fmul (fsub (Fin 1) mm) y)) g r).
Proof.
  intros Hr. revert g. induction Hr as [|y r Hy _ IH]; intros [|x g];
    simpl; constructor.
  - by apply fadd_nonfinite_r, fmul_nonfinite_r.
  - apply IH.
Qed.

Lemma relative_reset_vector_norm_zero_sum b :
  fsum b = Fin 0 →
  Forall (λ x, is_finite x = false) (relative_reset_vector_norm b).
Proof.
  intros Hsum. unfold relative_reset_vector_norm. rewrite Hsum.
  apply Forall_fmap, Forall_forall. intros x _. apply fdiv_0_nonfinite.
Qed.

(** With a bias vector that sums to zero every entry of the weight
    matrix is NaN. *)
Lemma zero_sum_bias_weightmatrix (G : matrix) b mm :
  square (length G) G → length b = length G → fsum b = Fin 0 →
  ∀ row col, (row < length G)%nat → (col < length G)%nat →
    (weight_matrices G b mm).1.1 !! row ≫= (.!! col) = Some NaN.
Proof.
  intros HG Hb Hsum row col Hrow Hcol.
  destruct (weightmatrix_spec G b mm HG Hb) as [HW Hcols].
  pose proof (normalise_columns_skip_zero_square _ G HG) as [HG1 _].
  destruct (lookup_lt_is_Some_2 (normalise_columns_skip_zero (length G) G) col)
    as [g Hg]; [lia|].
  pose proof (Hcols col _ (mix_lookup mm _ _ col g _ Hg
                (resetmatrix_lookup (length G) b col Hcol))) as Hc.
  pose proof (scaled_nonfinite _
    (mix_row_nonfinite mm g _ (relative_reset_vector_norm_zero_sum b Hsum)))
    as Hnan.
  rewrite <-Hc in Hnan.
  destruct (lookup_lt_is_Some_2 (weight_matrices G b mm).1.1 row)
    as [r Hr]; [destruct HW; lia|].
  destruct (lookup_lt_is_Some_2 r col) as [x Hx].
  { by rewrite (square_rows _ _ row r HW Hr). }
  rewrite Hr. simpl. rewrite Hx. f_equal.
  rewrite Forall_forall in Hnan. apply Hnan.
  unfold column. apply list_elem_of_fmap. exists r.
  split; [by rewrite Hx|]. by eapply list_elem_of_lookup_2.
Qed.

(** C8, amended.  For well-shaped input and a bias vector whose
    entries sum to zero, the module raises nothing of its own.  Every
    entry of the normalised reset vector is an infinity or a NaN and
    every entry of the weight matrix is NaN.  The eigenvector method
    reaches its library call with these: the graph handed to
    [eigenvector_centrality] has an edge for every pair of variables
    and all its weights are NaN, and the simple package hands the
    all-NaN weight matrix to [linalg.eig].  The pagerank method, and
    the katz method when its alpha is configured, reach their library
    call with the graph of the normalised gain matrix, which the bias
    vector does not enter: every other bias vector of that length
    gives the same graph. *)
Theorem zero_sum_bias_reaches_library (G : matrix) (variables : list string)
    (b : list float64) (data : NoderankData) :
  well_shaped G variables b →
  fsum b = Fin 0 →
  Forall (λ x, is_finite x = false) (relative_reset_vector_norm b)
  ∧ Forall (Forall (λ x, x = NaN)) (weight_matrices G b (m data)).1.1
  ∧ ∃ reset sparse,
      build_graphs (weight_matrices G b (m data)).1.1
                   (weight_matrices G b (m data)).1.2 variables
      = Ok (reset, sparse)
      ∧ calc_simple_rank_call G variables b data "eigenvector" "networkx"
        = Ok (eigenvector_centrality (DiGraph_reverse reset))
      ∧ (∀ rowvar colvar, rowvar ∈ variables → colvar ∈ variables →
           is_Some (edge_weight (DiGraph_reverse reset) colvar rowvar))
      ∧ (∀ u v w, edge_weight (DiGraph_reverse reset) u v = Some w → w = NaN)
      ∧ calc_simple_rank_call G variables b data "eigenvector" "simple"
        = Ok (linalg_eig (weight_matrices G b (m data)).1.1)
      ∧ calc_simple_rank_call G variables b data "pagerank" "networkx"
        = Ok (pagerank (DiGraph_reverse sparse) (m data))
      ∧ (∀ a, alpha data = Some a →
           calc_simple_rank_call G variables b data "katz" "networkx"
           = Ok (katz_centrality (DiGraph_reverse sparse) a))
      ∧ ∀ b', length b' = length G →
          ∃ reset',
            build_graphs (weight_matrices G b' (m data)).1.1
                         (weight_matrices G b' (m data)).1.2 variables
            = Ok (reset', sparse).
Proof.
  intros Hshape Hsum.
  destruct (calc_simple_rank_graphs G variables b (m data) Hshape)
    as (reset & sparse & Hbuild & Hpres & Hsound).
  destruct Hshape as (HG & Hv & Hb).
  pose proof (zero_sum_bias_weightmatrix G b (m data) HG Hb Hsum) as Hnan.
  destruct (weight_matrices_square G b (m data) HG Hb) as [HW HG2].
  split_and!.
  - by apply relative_reset_vector_norm_zero_sum.
  - apply Forall_lookup. intros row r Hr. apply Forall_lookup. intros col x Hx.
    assert (row < length G)%nat as Hrow
      by (destruct HW as [<- _]; by eapply lookup_lt_Some).
    assert (col < length G)%nat as Hcol
      by (rewrite <-(square_rows _ _ row r HW Hr); by eapply lookup_lt_Some).
    specialize (Hnan row col Hrow Hcol). rewrite Hr in Hnan. simpl in Hnan.
    congruence.
  - exists reset, sparse.
    assert (∀ c, calc_simple_rank_call G variables b data c "networkx"
              = (let '(reset_gaingraph, sparse_gaingraph) := (reset, sparse) in
                 if decide (c = "eigenvector") then
                   Ok (eigenvector_centrality (DiGraph_reverse reset_gaingraph))
                 else if decide (c = "katz") then
                   match alpha data with
                   | Some a =>
                       Ok (katz_centrality (DiGraph_reverse sparse_gaingraph) a)
                   | None => Raise (AttributeError "alpha")
                   end
                 else if decide (c = "pagerank") then
                   Ok (pagerank (DiGraph_reverse sparse_gaingraph) (m data))
                 else Raise (NameError "Method not defined"))) as Hcall.
    { intros c. unfold calc_simple_rank_call.
      destruct (weight_matrices G b (m data)) as [[WM GM] G1].
      cbn [fst snd] in Hbuild. rewrite decide_True by done.
      by rewrite Hbuild, bind_Ok. }
    split_and!.
    + exact Hbuild.
    + by rewrite Hcall.
    + intros rv cv [row Hrow]%list_elem_of_lookup_1 [col Hcol]%list_elem_of_lookup_1.
      rewrite edge_weight_reverse. by apply (Hpres row col).
    + intros u v w. rewrite edge_weight_reverse. intros Hw.
      destruct (Hsound v u w Hw) as (row & col & Hrow & Hcol & ->).
      apply lookup_lt_Some in Hrow, Hcol. unfold entry.
      rewrite Hnan by lia. done.
    + unfold calc_simple_rank_call.
      by destruct (weight_matrices G b (m data)) as [[WM GM] G1].
    + by rewrite Hcall.
    + intros a Ha. rewrite Hcall. simpl. by rewrite Ha.
    + intros b' Hb'.
      destruct (calc_simple_rank_graphs G variables b' (m data))
        as (reset' & sparse' & Hbuild' & _); [by split_and!|].
      exists reset'. rewrite Hbuild'. do 2 f_equal.
      assert ((weight_matrices G b' (m data)).1.2
              = (weight_matrices G b (m data)).1.2) as HGM by done.
      rewrite HGM in Hbuild'.
      symmetry. exact (build_graphs_sparse_indep _ _ _ _ _ _ _ _ Hbuild Hbuild').
Qed.

Lemma zero_sum_bias_reaches_library_witness :
  Forall (λ x, is_finite x = false)
    (relative_reset_vector_norm [rat 1 1; rat (-1) 1])
  ∧ Forall (Forall (λ x, x = NaN))
      (weight_matrices [[rat 0 1; rat 1 1]; [rat 1 1; rat 0 1]]
         [rat 1 1; rat (-1) 1] (rat 1 2)).1.1
  ∧ ∃ reset sparse,
      calc_simple_rank_call [[rat 0 1; rat 1 1]; [rat 1 1; rat 0 1]]
        ["a"; "b"] [rat 1 1; rat (-1) 1]
        (mkNoderankData (rat 1 2) None ["a"; "b"] [] [rat 1 1; rat (-1) 1] false)
        "eigenvector" "networkx"
      = Ok (eigenvector_centrality (DiGraph_reverse reset))
      ∧ (∀ u v w, edge_weight (DiGraph_reverse reset) u v = Some w → w = NaN)
      ∧ calc_simple_rank_call [[rat 0 1; rat 1 1]; [rat 1 1; rat 0 1]]
          ["a"; "b"] [rat 1 1; rat (-1) 1]
          (mkNoderankData (rat 1 2) None ["a"; "b"] [] [rat 1 1; rat (-1) 1] false)
          "pagerank" "networkx"
        = Ok (pagerank (DiGraph_reverse sparse) (rat 1 2)).
Proof.
  destruct (zero_sum_bias_reaches_library
              [[rat 0 1; rat 1 1]; [rat 1 1; rat 0 1]] ["a"; "b"]
              [rat 1 1; rat (-1) 1]
              (mkNoderankData (rat 1 2) None ["a"; "b"] []
                 [rat 1 1; rat (-1) 1] false))
    as (Hreset & Hweights & reset & sparse & _ & Heig & _ & Hnan & _ & Hpr & _).
  - repeat split; repeat constructor.
  - compute_done.
  - split; [exact Hreset|]. split; [exact Hweights|].
    exists reset, sparse. by split_and!.
Defined.

(** ** Unsupported methods and packages (C9) *)

(** C9.  On well-shaped input, a rank method other than eigenvector,
    katz and pagerank under the networkx package, a rank method other
    than eigenvector under the simple package, and any other package
    name make [calc_simple_rank] raise a [NameError] (for an unknown
    package its subclass [UnboundLocalError], from reading
    [rankingdict] unbound): no ranking dictionary or list is
    returned, whatever the library routines would do. *)
Theorem unsupported_method_raises (lib : library) (G : matrix)
    (variables : list string) (b : list float64) (data : NoderankData)
    (rank_method package : string) :
  well_shaped G variables b →
  (package = "networkx" ∧ rank_method ≠ "eigenvector"
     ∧ rank_method ≠ "katz" ∧ rank_method ≠ "pagerank")
  ∨ (package = "simple" ∧ rank_method ≠ "eigenvector")
  ∨ (package ≠ "networkx" ∧ package ≠ "simple") →
  ∃ e, calc_simple_rank lib G variables b data rank_method package = Raise e
       ∧ isinstance_NameError e = true.
Proof.
  intros Hshape Hcase.
  destruct (calc_simple_rank_graphs G variables b (m data) Hshape)
    as (reset & sparse & Hbuild & _).
  unfold calc_simple_rank, calc_simple_rank_call.
  destruct (weight_matrices G b (m data)) as [[WM GM] G1].
  cbn [fst snd] in Hbuild.
  destruct Hcase as [(-> & H1 & H2 & H3)|[(-> & H1)|(H1 & H2)]].
  - rewrite decide_True by done. rewrite Hbuild. simpl.
    rewrite !decide_False by done. simpl. by eexists.
  - rewrite decide_False by done. rewrite decide_True by done.
    rewrite decide_False by done. simpl. by eexists.
  - rewrite !decide_False by done. simpl. by eexists.
Qed.

Lemma unsupported_method_raises_witness :
  ∃ e,
    calc_simple_rank
      (mkLibrary (λ _, Raise (ValueError "stub")) (λ _ _, Raise (ValueError "stub"))
                 (λ _ _, Raise (ValueError "stub")) (λ _, Raise (ValueError "stub")))
      [[rat 0 1; rat 1 1]; [rat 1 1; rat 0 1]] ["a"; "b"] [rat 1 1; rat 1 1]
      (mkNoderankData (rat 1 2) None ["a"; "b"] [] [rat 1 1; rat 1 1] false)
      "betweenness" "networkx" = Raise e
    ∧ isinstance_NameError e = true.
Proof.
  apply unsupported_method_raises.
  - repeat split; repeat constructor.
  - left. repeat split; compute_done.
Defined.

(** ** Sorting by score *)

Lemma insert_desc_Permutation x l : insert_desc x l ≡ₚ x :: l.
Proof.
  induction l as [|y l IH]; simpl; [done|].
  destruct (fltb _ _); [|done].
  rewrite IH. apply perm_swap.
Qed.

Lemma sorted_desc_Permutation l : sorted_desc l ≡ₚ l.
Proof.
  unfold sorted_desc. induction l as [|x l IH]; simpl; [done|].
  by rewrite insert_desc_Permutation, IH.
Qed.

Lemma fltb_asym x y : fltb x y = true → fltb y x = false.
Proof.
  destruct x as [a| | |], y as [b| | |]; simpl; try done.
  intros Hab%bool_decide_eq_true. apply bool_decide_eq_false.
  intros Hba. by eapply (Qclt_not_le a b); [|apply Qclt_le_weak].
Qed.

Lemma fltb_ge_trans x y z :
  is_finite x = true → is_finite y = true → is_finite z = true →
  fltb x y = false → fltb y z = false → fltb x z = false.
Proof.
  destruct x as [a| | |], y as [b| | |], z as [c| | |]; simpl; try done.
  intros _ _ _ Hab%bool_decide_eq_false Hbc%bool_decide_eq_false.
  apply bool_decide_eq_false. intros Hac.
  apply Qcnot_lt_le in Hab, Hbc.
  eapply (Qclt_not_le a c); [done|]. by eapply Qcle_trans.
Qed.

Lemma insert_desc_sorted x l :
  is_finite x.2 = true → Forall (λ y, is_finite y.2 = true) l →
  StronglySorted (λ a b, fltb a.2 b.2 = false) l →
  StronglySorted (λ a b, fltb a.2 b.2 = false) (insert_desc x l).
Proof.
  intros Hx Hfin Hsorted.
  induction Hsorted as [|y l Hsorted IH Hy]; simpl.
  - by repeat constructor.
  - apply Forall_cons in Hfin as [Hyfin Hfin].
    destruct (fltb x.2 y.2) eqn:Hxy.
    + constructor; [by apply IH|].
      rewrite insert_desc_Permutation. constructor; [|done].
      by apply fltb_asym.
    + constructor; [by constructor|].
      constructor; [done|].
      rewrite Forall_forall in Hy, Hfin. apply Forall_forall. intros z Hz.
      apply (fltb_ge_trans x.2 y.2 z.2); auto.
Qed.

Lemma sorted_desc_sorted l :
  Forall (λ y, is_finite y.2 = true) l →
  StronglySorted (λ a b, fltb a.2 b.2 = false) (sorted_desc l).
Proof.
  unfold sorted_desc. induction 1 as [|x l Hx Hl IH]; simpl; [constructor|].
  apply insert_desc_sorted; [done| |done].
  fold (sorted_desc l). by rewrite sorted_desc_Permutation.
Qed.

(** ** Dummy suppression (C7) *)

Lemma feqb_ne x y : x ≠ y → feqb x y = false.
Proof.
  destruct x, y; simpl; try done.
  intros Hne. apply bool_decide_eq_false. congruence.
Qed.

Lemma pydiv_ok x y : y ≠ Fin 0 → pydiv x y = Ok (fdiv x y).
Proof. intros Hy. unfold pydiv. by rewrite feqb_ne. Qed.

(** The first loop of [normalise_rankinglist] copies the kept entries. *)
Lemma restrict_loop (rd : gmap string float64) keep (d0 : gmap string float64) :
  (∀ v, v ∈ keep → is_Some (rd !! v)) →
  ∃ d, foldlM (λ d variable, x ← getitem rd variable; Ok (<[variable := x]> d))
              d0 keep = Ok d
     ∧ ∀ k, d !! k = if decide (k ∈ keep) then rd !! k else d0 !! k.
Proof.
  revert d0. induction keep as [|v keep IH]; intros d0 Hkeys; cbn [foldlM].
  - exists d0. split; [done|]. intros k. by case_decide; [set_solver|].
  - destruct (Hkeys v) as [x Hx]; [set_solver|].
    assert (getitem rd v = Ok x) as -> by (unfold getitem; by rewrite Hx).
    simpl.
    destruct (IH (<[v := x]> d0)) as (d & Hrun & Hd); [set_solver|].
    exists d. split; [done|]. intros k. rewrite Hd.
    destruct (decide (k = v)) as [->|Hkv].
    + rewrite (decide_True (P := v ∈ v :: keep)) by set_solver.
      case_decide; [done|]. by rewrite lookup_insert_eq.
    + rewrite lookup_insert_ne by done.
      do 2 (case_decide; try done); set_solver.
Qed.

(** The second loop divides each kept entry once when the names are
    distinct. *)
Lemma divide_loop total keep (d0 : gmap string float64) :
  total ≠ Fin 0 → NoDup keep → (∀ v, v ∈ keep → is_Some (d0 !! v)) →
  ∃ d, foldlM (λ d variable, x ← getitem d variable;
                             y ← pydiv x total;
                             Ok (<[variable := y]> d))
              d0 keep = Ok d
     ∧ ∀ k, d !! k = if decide (k ∈ keep)
                     then (λ x, fdiv x total) <$> d0 !! k else d0 !! k.
Proof.
  intros Htotal. revert d0.
  induction keep as [|v keep IH]; intros d0 Hnd Hkeys; cbn [foldlM].
  - exists d0. split; [done|]. intros k. by case_decide; [set_solver|].
  - apply NoDup_cons in Hnd as [Hv Hnd].
    destruct (Hkeys v) as [x Hx]; [set_solver|].
    assert (getitem d0 v = Ok x) as -> by (unfold getitem; by rewrite Hx).
    simpl. rewrite pydiv_ok by done. simpl.
    destruct (IH (<[v := fdiv x total]> d0)) as (d & Hrun & Hd); [done| |].
    { intros k Hk. destruct (decide (k = v)) as [->|Hkv].
      - by rewrite lookup_insert_eq.
      - rewrite lookup_insert_ne by done. apply Hkeys. set_solver. }
    exists d. split; [done|]. intros k. rewrite Hd.
    destruct (decide (k = v)) as [->|Hkv].
    + rewrite (decide_True (P := v ∈ v :: keep)) by set_solver.
      rewrite decide_False by done. by rewrite lookup_insert_eq, Hx.
    + rewrite lookup_insert_ne by done.
      do 2 (case_decide; try done); set_solver.
Qed.

(** A dictionary that agrees with a function on a list of distinct
    keys, and is empty elsewhere, lists exactly those entries. *)
Lemma map_to_list_of_keys (d : gmap string float64) keep (f : string → float64) :
  NoDup keep →
  (∀ k, d !! k = if decide (k ∈ keep) then Some (f k) else None) →
  map_to_list d ≡ₚ (λ v, (v, f v)) <$> keep.
Proof.
  intros Hnd Hd.
  assert (((λ v, (v, f v)) <$> keep).*1 = keep) as Hfst.
  { rewrite <-list_fmap_compose. apply list_fmap_id. }
  assert (d = list_to_map ((λ v, (v, f v)) <$> keep)) as ->.
  { apply map_eq. intros k. rewrite Hd. case_decide as Hk; symmetry.
    - apply elem_of_list_to_map; [by rewrite Hfst|].
      apply list_elem_of_fmap. by exists k.
    - apply not_elem_of_list_to_map. by rewrite Hfst. }
  apply map_to_list_to_map. by rewrite Hfst.
Qed.

(** C7, counterexample.  Ranking dictionary {a: 3/10, b: 3/10,
    dummy: 4/10} and the keep-list [a, a, b], all of whose elements
    are keys, with kept sum 6/10.  The second loop divides the entry
    of a twice: the result gives a the score 5/6, not
    (3/10)/(6/10) = 1/2. *)
Lemma normalise_rankinglist_duplicate_counterexample :
  normalise_rankinglist
    (list_to_map [("a", rat 3 10); ("b", rat 3 10); ("dummy", rat 4 10)])
    ["a"; "a"; "b"]
  = Ok [("a", rat 5 6); ("b", rat 1 2)]
  ∧ fdiv (rat 3 10) (fsum [rat 3 10; rat 3 10]) = rat 1 2.
Proof. split; compute_done. Qed.

(** C7, amended.  For a keep-list of distinct names, all of them keys
    of the ranking dictionary with finite scores whose sum is not
    zero, [normalise_rankinglist] returns exactly the kept entries,
    each divided by the sum of the kept scores, as a list in which no
    entry is followed by one of larger score. *)
Theorem normalise_rankinglist_spec (rankingdict : gmap string float64)
    (keep : list string) :
  let score v := default NaN (rankingdict !! v) in
  let total := fsum (score <$> keep) in
  NoDup keep →
  (∀ v, v ∈ keep → ∃ p, rankingdict !! v = Some (Fin p)) →
  total ≠ Fin 0 →
  ∃ l, normalise_rankinglist rankingdict keep = Ok l
    ∧ l ≡ₚ (λ v, (v, fdiv (score v) total)) <$> keep
    ∧ StronglySorted (λ x y, fltb x.2 y.2 = false) l.
Proof.
  intros score total Hnd Hfin Htotal.
  destruct (restrict_loop rankingdict keep ∅) as (d1 & Hrun1 & Hd1).
  { intros v Hv. destruct (Hfin v Hv) as [p ->]. by eexists. }
  assert (∀ k, d1 !! k = if decide (k ∈ keep) then Some (score k) else None)
    as Hd1'.
  { intros k. rewrite Hd1. case_decide as Hk; [|by rewrite lookup_empty].
    unfold score. by destruct (Hfin k Hk) as [p ->]. }
  assert (fsum (values d1) = total) as Htot.
  { unfold values, total. apply fsum_Permutation.
    rewrite (map_to_list_of_keys d1 keep score Hnd Hd1').
    by rewrite <-list_fmap_compose. }
  destruct (divide_loop total keep d1 Htotal Hnd) as (d2 & Hrun2 & Hd2).
  { intros v Hv. rewrite Hd1', decide_True by done. by eexists. }
  assert (∀ k, d2 !! k = if decide (k ∈ keep)
                         then Some (fdiv (score k) total) else None) as Hd2'.
  { intros k. rewrite Hd2, Hd1'. by case_decide. }
  pose proof (map_to_list_of_keys d2 keep (λ v, fdiv (score v) total) Hnd Hd2')
    as Hperm.
  unfold normalise_rankinglist. rewrite Hrun1. simpl.
  rewrite Htot, Hrun2. simpl.
  eexists. split; [done|]. split.
  - by rewrite sorted_desc_Permutation.
  - apply sorted_desc_sorted. rewrite Hperm.
    apply Forall_fmap, Forall_forall. intros v Hv. simpl.
    unfold score. destruct (Hfin v Hv) as [p ->]. simpl.
    assert (∃ t, total = Fin t) as [t Ht].
    { unfold total. clear -Hfin.
      induction keep as [|v keep IH]; [by eexists|].
      rewrite fmap_cons, fsum_cons.
      destruct IH as [t ->]; [set_solver|].
      unfold score. destruct (Hfin v) as [p ->]; [set_solver|]. by eexists. }
    rewrite Ht. unfold fdiv. rewrite decide_False; [done|]. congruence.
Qed.

Lemma normalise_rankinglist_spec_witness :
  ∃ l,
    normalise_rankinglist
      (list_to_map [("a", rat 3 10); ("b", rat 3 10); ("dummy", rat 4 10)])
      ["a"; "b"] = Ok l
    ∧ l ≡ₚ [("a", rat 1 2); ("b", rat 1 2)]
    ∧ StronglySorted (λ x y, fltb x.2 y.2 = false) l.
Proof.
  destruct (normalise_rankinglist_spec
              (list_to_map [("a", rat 3 10); ("b", rat 3 10); ("dummy", rat 4 10)])
              ["a"; "b"]) as (l & Hl & Hperm & Hsorted).
  - compute_done.
  - intros v [->|[->|[]%elem_of_nil]%elem_of_cons]%elem_of_cons; by eexists.
  - compute_done.
  - exists l. split; [exact Hl|]. split; [|exact Hsorted].
    rewrite Hperm. simpl.
    assert (∀ x y : float64, x = y → ∀ k : string, (k, x) = (k, y)) as Heq
      by (by intros ?? ->).
    apply Permutation_cons; [by apply Heq; compute_done|].
    apply Permutation_cons; [by apply Heq; compute_done|done].
Defined.

(** ** The largest score of a ranking dictionary *)

Lemma elem_of_values (R : gmap string float64) x :
  x ∈ values R ↔ ∃ k, R !! k = Some x.
Proof.
  unfold values. rewrite list_elem_of_fmap. split.
  - intros ([k y] & -> & Hk%elem_of_map_to_list). by exists k.
  - intros [k Hk]. exists (k, x). split; [done|]. by apply elem_of_map_to_list.
Qed.

Lemma fltb_irrefl x : fltb x x = false.
Proof.
  destruct x; simpl; try done.
  apply bool_decide_eq_false. intros H. by apply (Qclt_not_eq _ _ H).
Qed.

Lemma max_loop x xs :
  is_finite x = true → Forall (λ y, is_finite y = true) xs →
  let M := foldl (λ best y, if fltb best y then y else best) x xs in
  is_finite M = true ∧ M ∈ x :: xs ∧ ∀ y, y ∈ x :: xs → fltb M y = false.
Proof.
  intros Hx Hxs. revert x Hx.
  induction Hxs as [|y xs Hy Hxs IH]; intros x Hx; simpl.
  - split_and!; [done|set_solver|].
    intros y ->%list_elem_of_singleton. apply fltb_irrefl.
  - destruct (fltb x y) eqn:Hxy.
    + destruct (IH y Hy) as (HM & Hin & Hmax).
      split_and!; [done|set_solver|].
      intros z Hz.
      assert (fltb (foldl (λ best y0, if fltb best y0 then y0 else best) y xs) y
              = false) as HMy by (apply Hmax; set_solver).
      apply elem_of_cons in Hz as [->|Hz]; [|by apply Hmax].
      apply (fltb_ge_trans _ y x); auto using fltb_asym.
    + destruct (IH x Hx) as (HM & Hin & Hmax).
      split_and!; [done|set_solver|].
      intros z Hz.
      assert (fltb (foldl (λ best y0, if fltb best y0 then y0 else best) x xs) x
              = false) as HMx by (apply Hmax; set_solver).
      apply elem_of_cons in Hz as [->|Hz]; [done|].
      apply elem_of_cons in Hz as [->|Hz]; [|apply Hmax; set_solver].
      by apply (fltb_ge_trans _ x y).
Qed.

Lemma RankingMap_finite R x : RankingMap R → x ∈ values R → is_finite x = true.
Proof.
  intros [Hfin _] [k Hk]%elem_of_values.
  by destruct (Hfin k x Hk) as (p & -> & _).
Qed.

(** The maximum of a ranking dictionary exists, is one of its scores,
    and is not zero. *)
Lemma RankingMap_maximum R :
  RankingMap R →
  pymax (values R) = Ok (maxscore R)
  ∧ is_maximum R (maxscore R)
  ∧ maxscore R ≠ Fin 0.
Proof.
  intros HR. unfold maxscore.
  destruct (values R) as [|x xs] eqn:Hvals.
  { destruct HR as [_ Hsum]. rewrite Hvals in Hsum. by compute in Hsum. }
  simpl.
  destruct (max_loop x xs) as (HM & Hin & Hmax).
  { apply (RankingMap_finite R); [done|]. rewrite Hvals. set_solver. }
  { apply Forall_forall. intros y Hy. apply (RankingMap_finite R); [done|].
    rewrite Hvals. set_solver. }
  set (M := foldl (λ best y, if fltb best y then y else best) x xs) in *.
  split_and!; [done| |].
  - split.
    + apply elem_of_values. by rewrite Hvals.
    + intros k y Hk. apply Hmax. rewrite <-Hvals. apply elem_of_values. by exists k.
  - intros HM0.
    destruct HR as [Hfin Hsum].
    assert (Forall (λ y, y = Fin 0) (values R)) as Hzero.
    { apply Forall_forall. intros y Hy.
      pose proof Hy as [k Hk]%elem_of_values.
      destruct (Hfin k y Hk) as (p & -> & Hp).
      assert (fltb M (Fin p) = false) as Hlt.
      { apply Hmax. by rewrite <-Hvals. }
      rewrite HM0 in Hlt. simpl in Hlt. apply bool_decide_eq_false in Hlt.
      f_equal. apply Qcle_antisym; [by apply Qcnot_lt_le|done]. }
    rewrite (fsum_zeros _ Hzero) in Hsum. by compute in Hsum.
Qed.

(** ** The loops of [calc_transient_importancediffs] (C6) *)

Lemma getitem_score R v : is_Some (R !! v) → getitem R v = Ok (score v R).
Proof. intros [x Hx]. unfold getitem, score. by rewrite Hx. Qed.

Lemma diff_body_unfold v diffvect prev index R :
  diff_body v (diffvect, prev) (index, R)
  = (x ← getitem R v; Ok (<[index := fsub x prev]> diffvect, x)).
Proof. done. Qed.

Lemma box_body_unfold v rankvect rel_rankvect index R :
  box_body v (rankvect, rel_rankvect) (index, R)
  = (maximum ← pymax (values R);
     x ← getitem R v;
     r ← pydiv x maximum;
     Ok (<[index := x]> rankvect, <[index := r]> rel_rankvect)).
Proof. done. Qed.

(** The loop at lines 324-326 fills the difference vector from the
    left. *)
Lemma diff_loop v (rest : list (gmap string float64)) :
  (∀ R, R ∈ rest → is_Some (R !! v)) →
  ∀ (pre : list float64) prev k, length pre = k →
  ∃ last,
    foldlM (diff_body v) (pre ++ replicate (length rest) NaN, prev)
           (imap (λ i R, ((k + i)%nat, R)) rest)
    = Ok (pre ++ zip_with fsub (score v <$> rest) (prev :: (score v <$> rest)),
          last).
Proof.
  induction rest as [|R rest IH]; intros Hkeys pre prev k Hk.
  - exists prev. done.
  - cbn [imap foldlM length replicate]. rewrite diff_body_unfold.
    rewrite getitem_score by (apply Hkeys; set_solver). rewrite !bind_Ok.
    rewrite insert_app_r_alt by lia.
    replace (k + 0 - length pre)%nat with 0%nat by lia. cbn [insert list_insert].
    rewrite (cons_middle _ pre), app_assoc.
    destruct (IH (λ R' H, Hkeys R' (list_elem_of_further _ _ _ H))
                 (pre ++ [fsub (score v R) prev]) (score v R) (S k))
      as [last Hrun].
    { rewrite length_app. simpl. lia. }
    exists last.
    rewrite (imap_ext _ (λ i R0, ((S k + i)%nat, R0))).
    + rewrite Hrun. by rewrite <-app_assoc.
    + intros i x _. simpl. f_equal. lia.
Qed.

(** The loop at lines 328-331 fills the two score vectors from the
    left. *)
Lemma box_loop v (Rs : list (gmap string float64)) :
  (∀ R, R ∈ Rs → is_Some (R !! v) ∧ pymax (values R) = Ok (maxscore R)
                  ∧ maxscore R ≠ Fin 0) →
  ∀ (pre1 pre2 : list float64) k, length pre1 = k → length pre2 = k →
  foldlM (box_body v)
         (pre1 ++ replicate (length Rs) NaN, pre2 ++ replicate (length Rs) NaN)
         (imap (λ i R, ((k + i)%nat, R)) Rs)
  = Ok (pre1 ++ (score v <$> Rs),
        pre2 ++ ((λ R, fdiv (score v R) (maxscore R)) <$> Rs)).
Proof.
  induction Rs as [|R Rs IH]; intros Hkeys pre1 pre2 k Hk1 Hk2.
  - done.
  - cbn [imap foldlM length replicate]. rewrite box_body_unfold.
    destruct (Hkeys R) as (Hv & Hmax & Hnz); [set_solver|].
    rewrite Hmax, bind_Ok, getitem_score by done.
    rewrite bind_Ok, pydiv_ok by done. rewrite !bind_Ok.
    rewrite !insert_app_r_alt by lia.
    replace (k + 0 - length pre1)%nat with 0%nat by lia.
    replace (k + 0 - length pre2)%nat with 0%nat by lia.
    cbn [insert list_insert].
    rewrite (cons_middle _ pre1), (cons_middle _ pre2), !app_assoc.
    rewrite (imap_ext _ (λ i R0, ((S k + i)%nat, R0))).
    + rewrite IH.
      * by rewrite <-!app_assoc.
      * intros R' HR'. apply Hkeys. set_solver.
      * rewrite length_app. simpl. lia.
      * rewrite length_app. simpl. lia.
    + intros i x _. simpl. f_equal. lia.
Qed.

Lemma transient_of_variable_spec v first rest :
  (∀ R, R ∈ first :: rest →
        is_Some (R !! v) ∧ pymax (values R) = Ok (maxscore R)
        ∧ maxscore R ≠ Fin 0) →
  transient_of_variable (first :: rest) v
  = Ok (zip_with fsub (score v <$> rest) (score v <$> first :: rest),
        score v first,
        score v <$> first :: rest,
        (λ R, fdiv (score v R) (maxscore R)) <$> first :: rest).
Proof.
  intros Hkeys. unfold transient_of_variable. cbv zeta.
  rewrite getitem_score by (apply Hkeys; set_solver). rewrite bind_Ok.
  destruct (diff_loop v rest (λ R H, proj1 (Hkeys R (list_elem_of_further _ _ _ H)))
              [] (score v first) 0%nat eq_refl) as [last Hdiff].
  pose proof (box_loop v (first :: rest) Hkeys [] [] 0%nat eq_refl eq_refl) as Hbox.
  cbn [length Nat.sub]. rewrite Nat.sub_0_r.
  rewrite (Hdiff : foldlM (diff_body v) (replicate (length rest) NaN, score v first)
                     (enumerate rest) = _).
  rewrite bind_Ok.
  rewrite (Hbox : foldlM (box_body v)
                    (replicate (S (length rest)) NaN, replicate (S (length rest)) NaN)
                    (enumerate (first :: rest)) = _).
  done.
Qed.

(** The loop over the variables stores one record per name. *)
Lemma variables_loop (Rs : list (gmap string float64)) variablelist
    (f : string → list float64 * float64 * list float64 * list float64) t0 :
  (∀ v, v ∈ variablelist → transient_of_variable Rs v = Ok (f v)) →
  ∃ t,
    foldlM (λ t variable,
              '(diffvect, baseval, rankvect, rel_rankvect) ←
                transient_of_variable Rs variable;
              Ok (mkTransient (<[variable := diffvect]> (transientdict t))
                              (<[variable := baseval]> (basevaldict t))
                              (<[variable := rankvect]> (boxrankdict t))
                              (<[variable := rel_rankvect]> (rel_boxrankdict t))))
           t0 variablelist = Ok t
    ∧ ∀ v, v ∈ variablelist →
        transientdict t !! v = Some (f v).1.1.1
        ∧ basevaldict t !! v = Some (f v).1.1.2
        ∧ boxrankdict t !! v = Some (f v).1.2
        ∧ rel_boxrankdict t !! v = Some (f v).2.
Proof.
  induction variablelist as [|v vs IH] using rev_ind; intros Hf.
  - exists t0. split; [done|]. intros v []%elem_of_nil.
  - destruct IH as (t & Hrun & Ht); [intros; apply Hf; set_solver|].
    rewrite foldlM_app, Hrun. simpl.
    rewrite (Hf v) by set_solver.
    destruct (f v) as [[[d b] a] r] eqn:Hfv. simpl.
    eexists. split; [done|]. simpl.
    intros v' Hv'. destruct (decide (v' = v)) as [->|Hne].
    + rewrite !lookup_insert_eq, Hfv. done.
    + rewrite !lookup_insert_ne by done. apply Ht. set_solver.
Qed.

(** C6.  For a non-empty list of ranking dictionaries (finite
    non-negative scores summing to one) and a variable list whose
    names are keys of every dictionary, the tracker returns, for every
    variable [v]: as base value the score of [v] in the first
    dictionary; a difference vector of length [k - 1] whose entry [i]
    is the score in dictionary [i + 1] minus the score in dictionary
    [i]; the vector of the [k] scores; and the vector whose entry [i]
    is the score in dictionary [i] divided by a largest score of
    dictionary [i]. *)
Theorem calc_transient_importancediffs_spec
    (rankingdicts : list (gmap string float64)) (variablelist : list string) :
  rankingdicts ≠ [] →
  Forall RankingMap rankingdicts →
  (∀ R v, R ∈ rankingdicts → v ∈ variablelist → is_Some (R !! v)) →
  ∃ t, calc_transient_importancediffs rankingdicts variablelist = Ok t
    ∧ ∀ v, v ∈ variablelist →
        ∃ delta absolute relative,
          transientdict t !! v = Some delta
          ∧ boxrankdict t !! v = Some absolute
          ∧ rel_boxrankdict t !! v = Some relative
          ∧ basevaldict t !! v = rankingdicts !! 0%nat ≫= (.!! v)
          ∧ length delta = (length rankingdicts - 1)%nat
          ∧ length absolute = length rankingdicts
          ∧ length relative = length rankingdicts
          ∧ (∀ i Ri Rj x y,
               rankingdicts !! i = Some Ri → rankingdicts !! S i = Some Rj →
               Ri !! v = Some x → Rj !! v = Some y →
               delta !! i = Some (fsub y x))
          ∧ (∀ i Ri x,
               rankingdicts !! i = Some Ri → Ri !! v = Some x →
               absolute !! i = Some x
               ∧ ∃ M, is_maximum Ri M ∧ relative !! i = Some (fdiv x M)).
Proof.
  intros Hne HRs Hkeys.
  destruct rankingdicts as [|first rest]; [done|]. clear Hne.
  rewrite Forall_forall in HRs.
  set (f := λ v : string,
         (zip_with fsub (score v <$> rest) (score v <$> first :: rest),
          score v first,
          score v <$> first :: rest,
          (λ R, fdiv (score v R) (maxscore R)) <$> first :: rest)).
  destruct (variables_loop (first :: rest) variablelist f (mkTransient ∅ ∅ ∅ ∅))
    as (t & Hrun & Ht).
  { intros v Hv. apply transient_of_variable_spec. intros R HR.
    destruct (RankingMap_maximum R (HRs R HR)) as (Hmax & _ & Hnz).
    split_and!; [by apply Hkeys|done|done]. }
  exists t. split; [exact Hrun|].
  intros v Hv. destruct (Ht v Hv) as (Hd & Hb & Ha & Hr).
  unfold f in Hd, Hb, Ha, Hr. cbn [fst snd] in Hd, Hb, Ha, Hr.
  eexists _, _, _. split_and!; [exact Hd|exact Ha|exact Hr|..].
  - rewrite Hb. destruct (Hkeys first v) as [x Hx]; [set_solver|done|].
    unfold score. simpl. by rewrite Hx.
  - rewrite length_zip_with, !length_fmap. simpl. lia.
  - by rewrite length_fmap.
  - by rewrite length_fmap.
  - intros i Ri Rj x y Hi Hj Hx Hy. simpl in Hj.
    rewrite lookup_zip_with, !list_lookup_fmap, Hi, Hj. simpl.
    unfold score. by rewrite Hx, Hy.
  - intros i Ri x Hi Hx.
    rewrite !list_lookup_fmap, Hi. simpl.
    unfold score. rewrite Hx. simpl. split; [done|].
    exists (maxscore Ri). split; [|done].
    apply RankingMap_maximum, HRs. by eapply list_elem_of_lookup_2.
Qed.

Lemma calc_transient_importancediffs_spec_witness :
  ∃ t,
    calc_transient_importancediffs
      [list_to_map [("a", rat 6 10); ("b", rat 4 10)];
       list_to_map [("a", rat 5 10); ("b", rat 5 10)]] ["a"; "b"] = Ok t
    ∧ ∃ delta absolute relative,
        transientdict t !! "a" = Some delta
        ∧ boxrankdict t !! "a" = Some absolute
        ∧ rel_boxrankdict t !! "a" = Some relative
        ∧ length delta = 1%nat ∧ length absolute = 2%nat
        ∧ length relative = 2%nat.
Proof.
  destruct (calc_transient_importancediffs_spec
              [list_to_map [("a", rat 6 10); ("b", rat 4 10)];
               list_to_map [("a", rat 5 10); ("b", rat 5 10)]] ["a"; "b"])
    as (t & Hrun & Ht).
  - done.
  - assert (∀ a b : Z, (0 <= a)%Z → (0 <= b)%Z →
              fsum (values (list_to_map [("a", rat a 10); ("b", rat b 10)]))
              = Fin 1 →
              RankingMap (list_to_map [("a", rat a 10); ("b", rat b 10)])) as HR.
    { intros a b Ha Hb Hsum. split; [|exact Hsum].
      intros k x Hk. simpl in Hk.
      destruct (decide (k = "a")) as [->|Hka].
      - rewrite lookup_insert_eq in Hk. injection Hk as <-.
        eexists. split; [done|]. unfold Qcle. simpl.
        apply Qred_le. unfold Qle. simpl. lia.
      - rewrite lookup_insert_ne in Hk by done.
        destruct (decide (k = "b")) as [->|Hkb].
        + rewrite lookup_insert_eq in Hk. injection Hk as <-.
          eexists. split; [done|]. unfold Qcle. simpl.
          apply Qred_le. unfold Qle. simpl. lia.
        + rewrite lookup_insert_ne in Hk by done. by rewrite lookup_empty in Hk. }
    repeat constructor; apply HR; (lia || compute_done).
  - intros R v HR Hv.
    apply elem_of_cons in Hv as [->|[->|[]%elem_of_nil]%elem_of_cons];
      apply elem_of_cons in HR as [->|[->|[]%elem_of_nil]%elem_of_cons];
      compute_done.
  - exists t. split; [exact Hrun|].
    destruct (Ht "a") as (d & a & r & Hd & Ha & Hr & _ & Hld & Hla & Hlr & _);
      [set_solver|].
    exists d, a, r. by split_and!.
Defined.

(** ** The importance graph (C10) *)

Lemma elem_of_nonzero (M : matrix) row col :
  (row, col) ∈ nonzero M
  ↔ ∃ x, M !! row ≫= (.!! col) = Some x ∧ fneb x (Fin 0) = true.
Proof.
  unfold nonzero. rewrite list_elem_of_bind. split.
  - intros ([r rw] & Hin & Hr%elem_of_enumerate).
    apply list_elem_of_bind in Hin as ([c x] & Hin & Hc%elem_of_enumerate).
    destruct (fneb x (Fin 0)) eqn:Hx; [|by apply elem_of_nil in Hin].
    apply list_elem_of_singleton in Hin. simplify_eq.
    exists x. rewrite Hr. simpl. by rewrite Hc.
  - intros (x & Hx & Hnz).
    destruct (M !! row) as [rw|] eqn:Hr; [|done]. simpl in Hx.
    exists (row, rw). split; [|by apply elem_of_enumerate].
    apply list_elem_of_bind. exists (col, x). split; [|by apply elem_of_enumerate].
    rewrite Hnz. set_solver.
Qed.

Lemma dom_node_add_edge G u v a :
  dom (node (add_edge G u v a)) = {[u; v]} ∪ dom (node G).
Proof.
  unfold add_edge. simpl.
  apply set_eq. intros k. rewrite !elem_of_union, !elem_of_singleton.
  rewrite !elem_of_dom.
  destruct (node G !! u) as [au|] eqn:Hu.
  - destruct (node G !! v) as [av|] eqn:Hv.
    + split; [tauto|]. intros [[->| ->]|?]; [by rewrite Hu|by rewrite Hv|done].
    + destruct (decide (k = v)) as [->|Hk].
      * rewrite lookup_insert_eq. naive_solver.
      * rewrite lookup_insert_ne by done.
        split; [tauto|]. intros [[->| ->]|?]; [by rewrite Hu|done|done].
  - destruct (decide (v = u)) as [->|Hvu].
    + rewrite lookup_insert_eq.
      destruct (decide (k = u)) as [->|Hk].
      * rewrite lookup_insert_eq. naive_solver.
      * rewrite lookup_insert_ne by done. naive_solver.
    + rewrite lookup_insert_ne by done.
      destruct (node G !! v) as [av|] eqn:Hv.
      * destruct (decide (k = u)) as [->|Hk].
        -- rewrite lookup_insert_eq. naive_solver.
        -- rewrite lookup_insert_ne by done.
           split; [tauto|]. intros [[->| ->]|?]; [done|by rewrite Hv|done].
      * destruct (decide (k = v)) as [->|Hkv].
        -- rewrite lookup_insert_eq. naive_solver.
        -- rewrite lookup_insert_ne by done.
           destruct (decide (k = u)) as [->|Hk].
           ++ rewrite lookup_insert_eq. naive_solver.
           ++ rewrite lookup_insert_ne by done. naive_solver.
Qed.

(** The edge-adding loops of [create_importance_graph], with the
    attributes of an edge left open. *)
Lemma edges_loop_nodes (variablelist : list string) (gainmatrix : matrix)
    (mk : string → string → float64 → attrs) (L : list (nat * nat)) G :
  foldlM (λ G '(row, col),
            u ← getindex variablelist col;
            v ← getindex variablelist row;
            w ← get_entry gainmatrix row col;
            Ok (add_edge G u v (mk u v w)))
         empty_DiGraph L = Ok G →
  ∀ v, v ∈ dom (node G)
       ↔ ∃ row col, (row, col) ∈ L
           ∧ (variablelist !! row = Some v ∨ variablelist !! col = Some v).
Proof.
  intros Hrun.
  apply (foldlM_ind _ (λ pre G, ∀ v, v ∈ dom (node G)
       ↔ ∃ row col, (row, col) ∈ pre
           ∧ (variablelist !! row = Some v ∨ variablelist !! col = Some v))
     L empty_DiGraph G Hrun).
  - intros v. simpl. rewrite dom_empty_L. split; [set_solver|].
    intros (? & ? & []%elem_of_nil & _).
  - intros pre [row col] G1 G2 _ IH Hstep.
    unfold getindex in Hstep.
    destruct (variablelist !! col) as [u|] eqn:Hu; [|done].
    destruct (variablelist !! row) as [v'|] eqn:Hv; [|done]. simpl in Hstep.
    destruct (get_entry gainmatrix row col) as [w|]; [|done]. simpl in Hstep.
    injection Hstep as <-.
    intros v. rewrite dom_node_add_edge, !elem_of_union, !elem_of_singleton, IH.
    split.
    + intros [[->| ->]|(r & c & Hin & Hrc)].
      * exists row, col. split; [set_solver|by right].
      * exists row, col. split; [set_solver|by left].
      * exists r, c. split; [set_solver|done].
    + intros (r & c & Hin & Hrc).
      apply elem_of_app in Hin as [Hin|Hin%list_elem_of_singleton].
      * right. by exists r, c.
      * simplify_eq. left. destruct Hrc as [Hrc|Hrc]; simplify_eq; auto.
Qed.

Lemma edges_loop_ok (variablelist : list string) (gainmatrix : matrix)
    (mk : string → string → float64 → attrs) (M : matrix) G0 :
  square (length variablelist) M → square (length variablelist) gainmatrix →
  ∃ G, foldlM (λ G '(row, col),
                 u ← getindex variablelist col;
                 v ← getindex variablelist row;
                 w ← get_entry gainmatrix row col;
                 Ok (add_edge G u v (mk u v w)))
              G0 (nonzero M) = Ok G.
Proof.
  intros HM HG. apply foldlM_ok.
  intros G [row col] (x & Hx & _)%elem_of_nonzero.
  destruct (M !! row) as [rw|] eqn:Hrow; [|done]. simpl in Hx.
  assert (row < length variablelist)%nat as Hr.
  { apply lookup_lt_Some in Hrow. destruct HM. lia. }
  assert (col < length variablelist)%nat as Hc.
  { apply lookup_lt_Some in Hx.
    by rewrite (square_rows _ M row rw HM Hrow) in Hx. }
  destruct (lookup_lt_is_Some_2 variablelist row Hr) as [v Hv].
  destruct (lookup_lt_is_Some_2 variablelist col Hc) as [u Hu].
  unfold getindex. rewrite Hu, Hv. simpl.
  rewrite (get_entry_ok _ gainmatrix row col HG Hr Hc). by eexists.
Qed.

Lemma dom_node_add_node G n a :
  dom (node (add_node G n a)) = {[n]} ∪ dom (node G).
Proof. unfold add_node. simpl. by rewrite dom_insert_L. Qed.

Lemma importance_add_node G n r k :
  node (add_node G n {["importance" := r]}) !! k ≫= (.!! "importance")
  = if decide (k = n) then Some r else node G !! k ≫= (.!! "importance").
Proof.
  unfold add_node. simpl. case_decide as Hk.
  - subst k. rewrite lookup_insert_eq. simpl.
    apply lookup_union_Some_l, lookup_singleton_eq.
  - by rewrite lookup_insert_ne.
Qed.

(** The loop at lines 364-365 adds no node and stores the rank of each
    node it visits. *)
Lemma importance_loop (ranks : gmap string float64) G0 ns G :
  foldlM (λ G n, r ← getitem ranks n;
                 Ok (add_node G n {["importance" := r]})) G0 ns = Ok G →
  (∀ n, n ∈ ns → n ∈ dom (node G0)) →
  dom (node G) = dom (node G0)
  ∧ ∀ n, n ∈ ns → node G !! n ≫= (.!! "importance") = ranks !! n.
Proof.
  intros Hrun Hns.
  apply (foldlM_ind _ (λ pre G, dom (node G) = dom (node G0)
       ∧ ∀ n, n ∈ pre → node G !! n ≫= (.!! "importance") = ranks !! n)
     ns G0 G Hrun).
  - split; [done|]. intros ? []%elem_of_nil.
  - intros pre n G1 G2 Hn [Hdom Himp] Hstep.
    unfold getitem in Hstep. destruct (ranks !! n) as [r|] eqn:Hr; [|done].
    simpl in Hstep. injection Hstep as <-. split.
    + rewrite dom_node_add_node, Hdom. specialize (Hns n Hn). set_solver.
    + intros k Hk. rewrite importance_add_node. case_decide as Hkn.
      * by subst k.
      * apply Himp. set_solver.
Qed.

Lemma incident_nonzero variablelist (M : matrix) v :
  incident variablelist M v
  ↔ ∃ row col, (row, col) ∈ nonzero M
      ∧ (variablelist !! row = Some v ∨ variablelist !! col = Some v).
Proof.
  unfold incident. split.
  - intros (row & col & x & Hx & Hnz & Hv). exists row, col.
    split; [|done]. apply elem_of_nonzero. by exists x.
  - intros (row & col & (x & Hx & Hnz)%elem_of_nonzero & Hv).
    by exists row, col, x.
Qed.

(** C10.  Whenever [create_importance_graph] returns, the nodes of the
    closed graph are exactly the variables that name the row or the
    column of a nonzero entry of the closed connectivity matrix, and
    likewise for the open graph and the open matrix; each node of the
    closed graph carries its rank as [importance], and a variable that
    is not incident to a nonzero entry of the closed matrix is no node
    of the closed graph and has no attribute there, whether or not it
    has a rank.  On square matrices of the size of the variable list
    and ranks for every variable the function does return. *)
Theorem create_importance_graph_nodes (variablelist : list string)
    (closedconnections openconnections gainmatrix : matrix)
    (ranks : gmap string float64) :
  (square (length variablelist) closedconnections →
   square (length variablelist) openconnections →
   square (length variablelist) gainmatrix →
   (∀ v, v ∈ variablelist → is_Some (ranks !! v)) →
   ∃ closedgraph opengraph,
     create_importance_graph variablelist closedconnections openconnections
       gainmatrix ranks = Ok (closedgraph, opengraph))
  ∧ ∀ closedgraph opengraph,
      create_importance_graph variablelist closedconnections openconnections
        gainmatrix ranks = Ok (closedgraph, opengraph) →
      (∀ v, v ∈ dom (node closedgraph)
            ↔ incident variablelist closedconnections v)
      ∧ (∀ v, v ∈ dom (node opengraph)
              ↔ incident variablelist openconnections v)
      ∧ (∀ v, incident variablelist closedconnections v →
              node closedgraph !! v ≫= (.!! "importance") = ranks !! v)
      ∧ (∀ v, ¬ incident variablelist closedconnections v →
              node closedgraph !! v = None).
Proof.
  split.
  - intros Hclosed Hopen Hgain Hranks. unfold create_importance_graph.
    destruct (edges_loop_ok variablelist gainmatrix (λ _ _ w, {["weight" := w]})
                openconnections empty_DiGraph Hopen Hgain) as [og Hog].
    rewrite Hog, bind_Ok.
    destruct (edges_loop_ok variablelist gainmatrix
                (λ u v w, <["controlloop" :=
                   if bool_decide ((u, v) ∈ DiGraph_edges og)
                   then Fin 0 else Fin 1]> {["weight" := w]})
                closedconnections empty_DiGraph Hclosed Hgain) as [cg Hcg].
    rewrite Hcg, bind_Ok.
    pose proof (edges_loop_nodes _ _ _ _ _ Hcg) as Hnodes.
    destruct (foldlM_ok (λ G n, r ← getitem ranks n;
                                Ok (add_node G n {["importance" := r]}))
                (DiGraph_nodes cg) cg) as [cg' Hcg'].
    { intros G n Hn.
      assert (n ∈ dom (node cg)) as Hdom.
      { unfold DiGraph_nodes in Hn. apply list_elem_of_fmap in Hn as ([k a] & -> & Hka).
        apply elem_of_map_to_list in Hka. apply elem_of_dom. by eexists. }
      apply Hnodes in Hdom as (row & col & _ & Hv).
      destruct (Hranks n) as [r Hr].
      { destruct Hv as [Hv|Hv]; by eapply list_elem_of_lookup_2. }
      unfold getitem. rewrite Hr. by eexists. }
    rewrite Hcg'. by eexists _, _.
  - intros closedgraph opengraph Hrun. unfold create_importance_graph in Hrun.
    destruct (foldlM _ empty_DiGraph (nonzero openconnections))
      as [og|] eqn:Hog; [|done].
    rewrite bind_Ok in Hrun.
    destruct (foldlM _ empty_DiGraph (nonzero closedconnections))
      as [cg|] eqn:Hcg; [|done].
    rewrite bind_Ok in Hrun.
    destruct (foldlM _ cg (DiGraph_nodes cg)) as [cg'|] eqn:Hcg'; [|done].
    rewrite bind_Ok in Hrun. injection Hrun as <- <-.
    pose proof (edges_loop_nodes variablelist gainmatrix
                  (λ _ _ w, {["weight" := w]}) _ _ Hog) as Hopen.
    pose proof (edges_loop_nodes variablelist gainmatrix
                  (λ u v w, <["controlloop" :=
                     if bool_decide ((u, v) ∈ DiGraph_edges og)
                     then Fin 0 else Fin 1]> {["weight" := w]}) _ _ Hcg)
      as Hclosed.
    assert (∀ n, n ∈ DiGraph_nodes cg ↔ n ∈ dom (node cg)) as Hnodes.
    { intros n. unfold DiGraph_nodes. rewrite elem_of_dom, list_elem_of_fmap. split.
      - intros ([k a] & -> & Hka%elem_of_map_to_list). by eexists.
      - intros [a Ha]. exists (n, a). split; [done|].
        by apply elem_of_map_to_list. }
    destruct (importance_loop ranks cg (DiGraph_nodes cg) cg' Hcg')
      as [Hdom Himp]; [by intros n ?%Hnodes|].
    split_and!.
    + intros v. by rewrite Hdom, Hclosed, incident_nonzero.
    + intros v. by rewrite Hopen, incident_nonzero.
    + intros v Hv. apply Himp, Hnodes, Hclosed. by apply incident_nonzero.
    + intros v Hv. apply not_elem_of_dom.
      by rewrite Hdom, Hclosed, <-incident_nonzero.
Qed.

Lemma create_importance_graph_nodes_witness :
  ∃ closedgraph opengraph,
    create_importance_graph ["a"; "b"; "c"]
      [[rat 0 1; rat 1 1; rat 0 1]; [rat 0 1; rat 0 1; rat 0 1];
       [rat 0 1; rat 0 1; rat 0 1]]
      [[rat 0 1; rat 0 1; rat 0 1]; [rat 0 1; rat 0 1; rat 0 1];
       [rat 0 1; rat 0 1; rat 0 1]]
      [[rat 0 1; rat 7 1; rat 0 1]; [rat 0 1; rat 0 1; rat 0 1];
       [rat 0 1; rat 0 1; rat 0 1]]
      (list_to_map [("a", rat 1 2); ("b", rat 1 4); ("c", rat 1 4)])
    = Ok (closedgraph, opengraph)
    ∧ node closedgraph !! "a" ≫= (.!! "importance") = Some (rat 1 2)
    ∧ node closedgraph !! "c" = None.
Proof.
  destruct (create_importance_graph_nodes ["a"; "b"; "c"]
      [[rat 0 1; rat 1 1; rat 0 1]; [rat 0 1; rat 0 1; rat 0 1];
       [rat 0 1; rat 0 1; rat 0 1]]
      [[rat 0 1; rat 0 1; rat 0 1]; [rat 0 1; rat 0 1; rat 0 1];
       [rat 0 1; rat 0 1; rat 0 1]]
      [[rat 0 1; rat 7 1; rat 0 1]; [rat 0 1; rat 0 1; rat 0 1];
       [rat 0 1; rat 0 1; rat 0 1]]
      (list_to_map [("a", rat 1 2); ("b", rat 1 4); ("c", rat 1 4)]))
    as [Hok Hprops].
  destruct Hok as (cg & og & Hrun).
  - split; [done|]. repeat constructor.
  - split; [done|]. repeat constructor.
  - split; [done|]. repeat constructor.
  - intros v Hv. repeat (apply elem_of_cons in Hv as [->|Hv]; [compute_done|]).
    by apply elem_of_nil in Hv.
  - exists cg, og. split; [exact Hrun|].
    assert (Ok (cg, og) = Ok (
      mkDiGraph (list_to_map [("a", {["importance" := rat 1 2]});
                              ("b", {["importance" := rat 1 4]})])
                (list_to_map [(("b", "a"),
                   list_to_map [("weight", rat 7 1); ("controlloop", rat 1 1)])]),
      mkDiGraph ∅ ∅)) as Heq.
    { rewrite <-Hrun. compute_done. }
    injection Heq as -> ->. split; compute_done.
Defined.

(** ** The ranking dictionaries collected by [dorankcalc] (C1) *)

Lemma box_loop_length v L st0 st :
  foldlM (box_body v) st0 L = Ok st →
  length st.1 = length st0.1 ∧ length st.2 = length st0.2.
Proof.
  intros Hrun.
  apply (foldlM_ind (box_body v)
           (λ _ st, length st.1 = length st0.1 ∧ length st.2 = length st0.2)
           L st0 st Hrun); [done|].
  intros _ [index R] [rankvect rel_rankvect] st' _ [H1 H2] Hstep.
  rewrite box_body_unfold in Hstep.
  destruct (pymax (values R)) as [M|]; [|done]. rewrite bind_Ok in Hstep.
  destruct (getitem R v) as [x|]; [|done]. rewrite bind_Ok in Hstep.
  destruct (pydiv x M) as [r|]; [|done]. rewrite bind_Ok in Hstep.
  injection Hstep as <-. simpl in *. by rewrite !length_insert.
Qed.

Lemma transient_of_variable_lengths Rs v d b a r :
  transient_of_variable Rs v = Ok (d, b, a, r) →
  length a = length Rs ∧ length r = length Rs.
Proof.
  unfold transient_of_variable. destruct Rs as [|first rest]; [done|].
  cbv zeta. intros Hrun.
  destruct (getitem first v) as [x|]; [|done]. rewrite bind_Ok in Hrun.
  destruct (foldlM (diff_body v) _ _) as [[d' last]|]; [|done].
  rewrite bind_Ok in Hrun.
  destruct (foldlM (box_body v) _ _) as [[a' r']|] eqn:Hbox; [|done].
  rewrite bind_Ok in Hrun. injection Hrun as <- <- <- <-.
  apply box_loop_length in Hbox. simpl in Hbox.
  by rewrite !length_replicate in Hbox.
Qed.

Lemma boxes_loop_last (gainmatrices : list matrix) (gainmatrix : matrix) init :
  foldlM (λ (_ : option matrix) gainmatrix,
            if false then
              '(modgainmatrix, _) ← gainmatrix_preprocessing gainmatrix;
              Ok (Some modgainmatrix)
            else Ok (Some gainmatrix))
         init (gainmatrices ++ [gainmatrix])
  = Ok (Some gainmatrix).
Proof.
  revert init. induction gainmatrices as [|g gs IH]; intros init; [done|].
  simpl. apply IH.
Qed.

(** C1, the code on any list of boxes.  With preprocessing off (the
    default), lines 495-520 of [dorankcalc] on the gain matrices of k
    boxes compute what they compute on the last box alone: the loop
    over the boxes ends before the ranking call, so one ranking
    dictionary (that of the last box) is appended, and the list
    [backward_rankingdicts] has length one, however many boxes there
    are. *)
Theorem dorankcalc_ranks_last_box_only (lib : library)
    (rankbackward : rankbackward_t) (noderankdata : NoderankData)
    (rank_method : string) (gainmatrices : list matrix) (gainmatrix : matrix) :
  dorankcalc_rankingdicts lib rankbackward noderankdata rank_method false
    (gainmatrices ++ [gainmatrix])
  = dorankcalc_rankingdicts lib rankbackward noderankdata rank_method false
      [gainmatrix]
  ∧ match dorankcalc_rankingdicts lib rankbackward noderankdata rank_method
            false (gainmatrices ++ [gainmatrix]) with
    | Ok backward_rankingdicts => length backward_rankingdicts = 1%nat
    | Raise _ => True
    end.
Proof.
  split.
  - unfold dorankcalc_rankingdicts. cbv zeta.
    by rewrite boxes_loop_last.
  - unfold dorankcalc_rankingdicts. cbv zeta.
    rewrite boxes_loop_last, bind_Ok.
    destruct (calc_gainrank _ _ _ _ _ _) as [[rds rls]|]; [|done].
    rewrite bind_Ok.
    destruct (getindex rls 0) as [rl|]; [|done]. rewrite bind_Ok.
    destruct (getindex rds 0) as [rd|]; [|done]. by rewrite bind_Ok.
Qed.

Lemma dorankcalc_ranks_last_box_only_witness :
  dorankcalc_rankingdicts
    (mkLibrary (λ _, Ok (list_to_map [("a", rat 1 1); ("b", rat 1 1)]))
               (λ _ _, Raise (ValueError "stub"))
               (λ _ _, Raise (ValueError "stub"))
               (λ _, Raise (ValueError "stub")))
    (λ variables gain connection bias _ _, Ok (connection, gain, variables, bias))
    (mkNoderankData (rat 1 2) None ["a"; "b"]
       [[rat 1 1; rat 1 1]; [rat 1 1; rat 1 1]] [rat 1 1; rat 1 1] false)
    "eigenvector" false
    ([[[rat 0 1; rat 1 1]; [rat 1 1; rat 0 1]]]
     ++ [[[rat 0 1; rat 2 1]; [rat 3 1; rat 0 1]]])
  = Ok [list_to_map [("a", rat 1 2); ("b", rat 1 2)]].
Proof.
  rewrite (proj1 (dorankcalc_ranks_last_box_only _ _ _ _ _ _)).
  compute_done.
Defined.

(** * Further properties of the module *)

(** ** Quotients of finite values *)

Lemma fdiv_fin a t : t ≠ 0 → fdiv (Fin a) (Fin t) = Fin (a / t).
Proof. intros Ht. unfold fdiv. by rewrite decide_False. Qed.

Lemma fdiv_self t : t ≠ 0 → fdiv (Fin t) (Fin t) = Fin 1.
Proof. intros Ht. rewrite fdiv_fin by done. f_equal. by field. Qed.

Lemma Fin_ne_0 t : Fin t ≠ Fin 0 → t ≠ 0.
Proof. congruence. Qed.

(** ** [norm_dict] *)

Lemma norm_dict_fmap (d : gmap string float64) :
  fsum (values d) ≠ Fin 0 →
  norm_dict d = Ok ((λ x, fdiv x (fsum (values d))) <$> d).
Proof.
  intros Htotal. unfold norm_dict. cbv zeta.
  set (total := fsum (values d)) in *.
  set (step := λ (d : gmap string float64) '((key, value) : string * float64),
         x ← pydiv value total; Ok (<[key := x]> d)).
  destruct (foldlM_ok step (map_to_list d) ∅) as [r Hrun].
  { intros a [k v] _. unfold step. rewrite pydiv_ok by done. by eexists. }
  change (foldlM step ∅ (map_to_list d) = Ok ((λ x, fdiv x total) <$> d)).
  rewrite Hrun. f_equal. apply map_eq. intros j.
  pose proof (foldlM_ind step
    (λ pre acc, ∀ j, acc !! j = if decide (j ∈ pre.*1)
                               then (λ x, fdiv x total) <$> d !! j else None)
    (map_to_list d) ∅ r Hrun) as Hind.
  rewrite Hind.
  - rewrite lookup_fmap. case_decide as Hj; [done|].
    destruct (d !! j) as [x|] eqn:Hx; [|done].
    destruct Hj. apply list_elem_of_fmap. exists (j, x).
    split; [done|]. by apply elem_of_map_to_list.
  - intros j'. by rewrite lookup_empty.
  - intros pre [k v] a a' Hkv%elem_of_map_to_list IH Hstep.
    unfold step in Hstep. rewrite pydiv_ok in Hstep by done.
    rewrite bind_Ok in Hstep. injection Hstep as <-. intros j'.
    assert (j' ∈ (pre ++ [(k, v)]).*1 ↔ j' ∈ pre.*1 ∨ j' = k) as Hiff.
    { rewrite fmap_app, elem_of_app. simpl. set_solver. }
    destruct (decide (j' = k)) as [->|Hne].
    + rewrite lookup_insert_eq, Hkv. simpl.
      rewrite decide_True; [done|]. apply Hiff. by right.
    + rewrite lookup_insert_ne, IH by done.
      do 2 case_decide; try done; naive_solver.
Qed.

(** X1.  A dictionary whose values do not sum to zero is normalised
    without error: the keys are kept, and every value is the old
    value divided by the sum of all of them. *)
Theorem norm_dict_normalises (d : gmap string float64) :
  fsum (values d) ≠ Fin 0 →
  ∃ d', norm_dict d = Ok d'
    ∧ dom d' = dom d
    ∧ ∀ k x, d !! k = Some x → d' !! k = Some (fdiv x (fsum (values d))).
Proof.
  intros Htotal. eexists. split; [by apply norm_dict_fmap|]. split.
  - by rewrite dom_fmap_L.
  - intros k x Hk. by rewrite lookup_fmap, Hk.
Qed.

Lemma norm_dict_normalises_witness :
  ∃ d', norm_dict (list_to_map [("a", rat 1 1); ("b", rat 3 1)]) = Ok d'
    ∧ d' !! "b" = Some (rat 3 4).
Proof.
  destruct (norm_dict_normalises (list_to_map [("a", rat 1 1); ("b", rat 3 1)]))
    as (d' & Hrun & _ & Hval).
  - compute_done.
  - exists d'. split; [exact Hrun|].
    rewrite (Hval "b" (rat 3 1)) by done. compute_done.
Defined.

(** X2.  When the values sum to zero, [norm_dict] returns the empty
    dictionary for the empty dictionary and raises
    [ZeroDivisionError] for every other one. *)
Theorem norm_dict_zero_total (d : gmap string float64) :
  fsum (values d) = Fin 0 →
  norm_dict d = if decide (d = ∅) then Ok ∅ else Raise ZeroDivisionError.
Proof.
  intros Htotal. unfold norm_dict. cbv zeta. rewrite Htotal.
  destruct (map_to_list d) as [|[k v] l] eqn:Hl.
  - apply map_to_list_empty_iff in Hl. by rewrite decide_True.
  - rewrite decide_False.
    + done.
    + intros ->. by rewrite map_to_list_empty in Hl.
Qed.

Lemma norm_dict_zero_total_witness :
  norm_dict (list_to_map [("a", rat 1 1); ("b", rat (-1) 1)])
  = Raise ZeroDivisionError.
Proof.
  rewrite norm_dict_zero_total; compute_done.
Defined.

(** ** More on [normalise_rankinglist] *)

(** The first loop on a list of distinct keys, and the total it leads
    to. *)
Lemma normalise_first_loop (rankingdict : gmap string float64) keep :
  NoDup keep → (∀ v, v ∈ keep → is_Some (rankingdict !! v)) →
  ∃ d1,
    foldlM (λ d variable, x ← getitem rankingdict variable;
                          Ok (<[variable := x]> d)) ∅ keep = Ok d1
    ∧ (∀ k, d1 !! k = if decide (k ∈ keep)
                      then Some (score k rankingdict) else None)
    ∧ fsum (values d1) = fsum ((λ v, score v rankingdict) <$> keep).
Proof.
  intros Hnd Hkeys.
  destruct (restrict_loop rankingdict keep ∅ Hkeys) as (d1 & Hrun & Hd1).
  exists d1. split; [done|].
  assert (∀ k, d1 !! k = if decide (k ∈ keep)
                         then Some (score k rankingdict) else None) as Hd1'.
  { intros k. rewrite Hd1. case_decide as Hk; [|by rewrite lookup_empty].
    unfold score. by destruct (Hkeys k Hk) as [x ->]. }
  split; [done|].
  unfold values. apply fsum_Permutation.
  rewrite (map_to_list_of_keys d1 keep (λ v, score v rankingdict) Hnd Hd1').
  by rewrite <-list_fmap_compose.
Qed.

(** X3.  A keep-list that names a variable which is no key of the
    ranking dictionary makes [normalise_rankinglist] raise [KeyError]
    for the first such variable; no list is returned. *)
Theorem normalise_rankinglist_missing_key (rankingdict : gmap string float64)
    (pre post : list string) (v : string) :
  (∀ u, u ∈ pre → is_Some (rankingdict !! u)) →
  rankingdict !! v = None →
  normalise_rankinglist rankingdict (pre ++ v :: post) = Raise (KeyError v).
Proof.
  intros Hpre Hv. unfold normalise_rankinglist.
  rewrite foldlM_app.
  destruct (restrict_loop rankingdict pre ∅ Hpre) as (d & -> & _).
  rewrite bind_Ok. cbn [foldlM]. unfold getitem at 1.
  assert (getitem rankingdict v = Raise (KeyError v)) as Hget.
  { unfold getitem. by rewrite Hv. }
  by rewrite Hget.
Qed.

Lemma normalise_rankinglist_missing_key_witness :
  normalise_rankinglist (list_to_map [("a", rat 1 2); ("b", rat 1 2)])
    (["a"] ++ "c" :: ["b"])
  = Raise (KeyError "c").
Proof.
  apply normalise_rankinglist_missing_key.
  - intros u ->%list_elem_of_singleton. by eexists.
  - done.
Defined.

(** X5.  For a non-empty keep-list of distinct keys whose scores sum
    to zero, the division by the total raises [ZeroDivisionError]. *)
Theorem normalise_rankinglist_zero_total (rankingdict : gmap string float64)
    (keep : list string) :
  keep ≠ [] → NoDup keep →
  (∀ v, v ∈ keep → is_Some (rankingdict !! v)) →
  fsum ((λ v, score v rankingdict) <$> keep) = Fin 0 →
  normalise_rankinglist rankingdict keep = Raise ZeroDivisionError.
Proof.
  intros Hne Hnd Hkeys Htotal.
  destruct (normalise_first_loop rankingdict keep Hnd Hkeys)
    as (d1 & Hrun1 & Hd1 & Htot).
  unfold normalise_rankinglist. rewrite Hrun1, bind_Ok. cbv zeta.
  rewrite Htot, Htotal.
  destruct keep as [|v keep]; [done|]. cbn [foldlM].
  assert (getitem d1 v = Ok (score v rankingdict)) as Hget.
  { unfold getitem. rewrite Hd1, decide_True; [done|set_solver]. }
  rewrite Hget. by rewrite bind_Ok.
Qed.

Lemma normalise_rankinglist_zero_total_witness :
  normalise_rankinglist
    (list_to_map [("a", rat 0 1); ("b", rat 0 1); ("dummy", rat 1 1)])
    ["a"; "b"]
  = Raise ZeroDivisionError.
Proof.
  apply normalise_rankinglist_zero_total.
  - done.
  - compute_done.
  - intros v [->|[->|[]%elem_of_nil]%elem_of_cons]%elem_of_cons; by eexists.
  - compute_done.
Defined.

(** ** More on [calc_transient_importancediffs] *)

(** The four dictionaries in closed form. *)
Lemma calc_transient_closed_form first rest variablelist :
  Forall RankingMap (first :: rest) →
  (∀ R v, R ∈ first :: rest → v ∈ variablelist → is_Some (R !! v)) →
  ∃ t, calc_transient_importancediffs (first :: rest) variablelist = Ok t
    ∧ ∀ v, v ∈ variablelist →
        transientdict t !! v
        = Some (zip_with fsub (score v <$> rest) (score v <$> first :: rest))
        ∧ basevaldict t !! v = Some (score v first)
        ∧ boxrankdict t !! v = Some (score v <$> first :: rest)
        ∧ rel_boxrankdict t !! v
          = Some ((λ R, fdiv (score v R) (maxscore R)) <$> first :: rest).
Proof.
  intros HRs Hkeys. rewrite Forall_forall in HRs.
  set (f := λ v : string,
         (zip_with fsub (score v <$> rest) (score v <$> first :: rest),
          score v first,
          score v <$> first :: rest,
          (λ R, fdiv (score v R) (maxscore R)) <$> first :: rest)).
  destruct (variables_loop (first :: rest) variablelist f (mkTransient ∅ ∅ ∅ ∅))
    as (t & Hrun & Ht).
  { intros v Hv. apply transient_of_variable_spec. intros R HR.
    destruct (RankingMap_maximum R (HRs R HR)) as (Hmax & _ & Hnz).
    split_and!; [by apply Hkeys|done|done]. }
  exists t. split; [exact Hrun|]. intros v Hv. exact (Ht v Hv).
Qed.

Lemma RankingMap_score_finite R v :
  RankingMap R → is_Some (R !! v) → ∃ p, score v R = Fin p ∧ 0 ≤ p.
Proof.
  intros [Hfin _] [x Hx]. unfold score. rewrite Hx. simpl. by eapply Hfin.
Qed.

Lemma Qcinv_pos q : 0 < q → 0 < / q.
Proof.
  intros Hq. apply Qcnot_le_lt. intros Hle.
  assert (/ q * q ≤ 0 * q) as H.
  { apply Qcmult_le_compat_r; [done|by apply Qclt_le_weak]. }
  rewrite Qcmult_inv_l, Qcmult_0_l in H.
  - by apply (Qclt_not_le 0 1).
  - intros ->. by apply (Qclt_not_eq 0 0).
Qed.

Lemma Qcdiv_unit_interval p q : 0 ≤ p → p ≤ q → q ≠ 0 → 0 ≤ p / q ∧ p / q ≤ 1.
Proof.
  intros Hp Hpq Hq.
  assert (0 < q) as Hq0.
  { destruct (Qcle_lt_or_eq 0 q) as [?| <-]; [by eapply Qcle_trans|done|done]. }
  pose proof (Qclt_le_weak _ _ (Qcinv_pos q Hq0)) as Hinv.
  unfold Qcdiv. split.
  - rewrite <-(Qcmult_0_l (/ q)). by apply Qcmult_le_compat_r.
  - rewrite <-(Qcmult_inv_r q Hq). by apply Qcmult_le_compat_r.
Qed.

(** X7.  For ranking dictionaries with the invariant, every entry of a
    relative trajectory is a finite value between zero and one, and it
    is one in each window where the variable has a largest score. *)
Theorem relative_trajectory_bounds
    (rankingdicts : list (gmap string float64)) (variablelist : list string) :
  rankingdicts ≠ [] →
  Forall RankingMap rankingdicts →
  (∀ R v, R ∈ rankingdicts → v ∈ variablelist → is_Some (R !! v)) →
  ∃ t, calc_transient_importancediffs rankingdicts variablelist = Ok t
    ∧ ∀ v, v ∈ variablelist →
        ∃ relative,
          rel_boxrankdict t !! v = Some relative
          ∧ (∀ i r, relative !! i = Some r → ∃ q, r = Fin q ∧ 0 ≤ q ∧ q ≤ 1)
          ∧ (∀ i Ri x, rankingdicts !! i = Some Ri → Ri !! v = Some x →
                       is_maximum Ri x → relative !! i = Some (Fin 1)).
Proof.
  intros Hne HRs Hkeys. destruct rankingdicts as [|first rest]; [done|].
  destruct (calc_transient_closed_form first rest variablelist HRs Hkeys)
    as (t & Hrun & Ht).
  exists t. split; [exact Hrun|]. intros v Hv.
  destruct (Ht v Hv) as (_ & _ & _ & Hr).
  eexists. split; [exact Hr|].
  rewrite Forall_forall in HRs.
  assert (∀ i Ri, (first :: rest) !! i = Some Ri →
            ∃ p q, score v Ri = Fin p ∧ maxscore Ri = Fin q
                   ∧ 0 ≤ p ∧ p ≤ q ∧ q ≠ 0
                   ∧ (is_maximum Ri (Fin p) → p = q)) as Hwin.
  { intros i Ri Hi.
    assert (Ri ∈ first :: rest) as HRi by by eapply list_elem_of_lookup_2.
    destruct (RankingMap_score_finite Ri v (HRs Ri HRi) (Hkeys Ri v HRi Hv))
      as (p & Hp & Hp0).
    destruct (RankingMap_maximum Ri (HRs Ri HRi)) as (_ & [[k Hk] Hmax] & Hnz).
    destruct (HRs Ri HRi) as [Hfin _].
    destruct (Hfin k _ Hk) as (q & Hq & _).
    destruct (Hkeys Ri v HRi Hv) as [x Hx].
    assert (x = Fin p) as -> by (unfold score in Hp; by rewrite Hx in Hp).
    pose proof (Hmax v (Fin p) Hx) as Hle. rewrite Hq in Hle, Hk, Hnz.
    simpl in Hle. apply bool_decide_eq_false, Qcnot_lt_le in Hle.
    exists p, q. split_and!; [done|done|done|done|congruence|].
    intros [_ Hmaxp]. specialize (Hmaxp k (Fin q) Hk). simpl in Hmaxp.
    apply bool_decide_eq_false, Qcnot_lt_le in Hmaxp.
    by apply Qcle_antisym. }
  split.
  - intros i r Hi. rewrite list_lookup_fmap in Hi.
    destruct ((first :: rest) !! i) as [Ri|] eqn:HRi; [|done].
    injection Hi as <-.
    destruct (Hwin i Ri HRi) as (p & q & -> & -> & Hp & Hpq & Hq & _).
    rewrite fdiv_fin by done. eexists. split; [done|].
    by apply Qcdiv_unit_interval.
  - intros i Ri x Hi Hx Hmax. rewrite list_lookup_fmap, Hi. simpl.
    destruct (Hwin i Ri Hi) as (p & q & Hp & Hq & _ & _ & Hnz & Heq).
    assert (x = Fin p) as -> by (unfold score in Hp; by rewrite Hx in Hp).
    rewrite Hp, Hq, <-(Heq Hmax). f_equal. apply fdiv_self.
    by rewrite (Heq Hmax).
Qed.

(** Checkable forms of the hypotheses, for concrete dictionaries. *)
Lemma RankingMap_intro (R : gmap string float64) :
  map_Forall (λ _ x, is_finite x = true ∧ fltb x (Fin 0) = false) R →
  fsum (values R) = Fin 1 → RankingMap R.
Proof.
  intros Hall Hsum. split; [|done]. intros k x Hk.
  destruct (Hall k x Hk) as [Hfin Hlt]. destruct x as [p| | |]; try done.
  exists p. split; [done|]. simpl in Hlt.
  by apply bool_decide_eq_false, Qcnot_lt_le in Hlt.
Qed.

Lemma keys_present_intro (Rs : list (gmap string float64)) (vs : list string) :
  Forall (λ R, Forall (λ v, is_Some (R !! v)) vs) Rs →
  ∀ R v, R ∈ Rs → v ∈ vs → is_Some (R !! v).
Proof.
  rewrite Forall_forall. intros H R v HR Hv.
  specialize (H R HR). rewrite Forall_forall in H. by apply H.
Qed.

Ltac check_ranking_maps :=
  repeat first
    [ apply Forall_nil_2
    | apply Forall_cons_2;
      [apply RankingMap_intro;
       [apply (bool_decide_unpack _); vm_compute; exact I | compute_done]|] ].

Lemma relative_trajectory_bounds_witness :
  ∃ t,
    calc_transient_importancediffs
      [list_to_map [("a", rat 6 10); ("b", rat 4 10)];
       list_to_map [("a", rat 5 10); ("b", rat 5 10)]] ["a"; "b"] = Ok t
    ∧ ∃ relative,
        rel_boxrankdict t !! "b" = Some relative
        ∧ ∀ i r, relative !! i = Some r → ∃ q, r = Fin q ∧ 0 ≤ q ∧ q ≤ 1.
Proof.
  destruct (relative_trajectory_bounds
              [list_to_map [("a", rat 6 10); ("b", rat 4 10)];
               list_to_map [("a", rat 5 10); ("b", rat 5 10)]] ["a"; "b"])
    as (t & Hrun & Ht).
  - done.
  - check_ranking_maps.
  - apply keys_present_intro. apply (bool_decide_unpack _). vm_compute. exact I.
  - exists t. split; [exact Hrun|].
    destruct (Ht "b") as (r & Hr & Hbound & _); [set_solver|].
    by exists r.
Defined.

Lemma diff_loop_missing v (rest : list (gmap string float64))
    (g : nat → nat) st :
  (∃ R, R ∈ rest ∧ R !! v = None) →
  foldlM (diff_body v) st (imap (λ i R, (g i, R)) rest) = Raise (KeyError v).
Proof.
  revert g st. induction rest as [|R rest IH]; intros g [diffvect prev] HR.
  - destruct HR as (R & []%elem_of_nil & _).
  - cbn [imap foldlM]. rewrite diff_body_unfold.
    destruct (R !! v) as [x|] eqn:Hx.
    + assert (getitem R v = Ok x) as -> by (unfold getitem; by rewrite Hx).
      rewrite !bind_Ok. apply (IH (g ∘ S)).
      destruct HR as (R' & [->|HR']%elem_of_cons & Hnone); [congruence|].
      by exists R'.
    + assert (getitem R v = Raise (KeyError v)) as ->
        by (unfold getitem; by rewrite Hx).
      done.
Qed.

Lemma transient_of_variable_missing v first rest :
  (∃ R, R ∈ first :: rest ∧ R !! v = None) →
  transient_of_variable (first :: rest) v = Raise (KeyError v).
Proof.
  intros HR. unfold transient_of_variable. cbv zeta.
  destruct (first !! v) as [x|] eqn:Hx.
  - assert (getitem first v = Ok x) as -> by (unfold getitem; by rewrite Hx).
    rewrite bind_Ok. unfold enumerate.
    rewrite (diff_loop_missing v rest (λ i, i)); [done|].
    destruct HR as (R' & [->|HR']%elem_of_cons & Hnone); [congruence|].
    by exists R'.
  - assert (getitem first v = Raise (KeyError v)) as ->
      by (unfold getitem; by rewrite Hx).
    done.
Qed.

(** X8.  When the variable list names a variable that is missing from
    one of the ranking dictionaries, the tracker raises [KeyError] for
    the first such variable and returns none of its dictionaries. *)
Theorem calc_transient_importancediffs_missing_key
    (rankingdicts : list (gmap string float64)) (pre post : list string)
    (v : string) :
  rankingdicts ≠ [] →
  Forall RankingMap rankingdicts →
  (∀ R u, R ∈ rankingdicts → u ∈ pre → is_Some (R !! u)) →
  (∃ R, R ∈ rankingdicts ∧ R !! v = None) →
  calc_transient_importancediffs rankingdicts (pre ++ v :: post)
  = Raise (KeyError v).
Proof.
  intros Hne HRs Hpre Hv. destruct rankingdicts as [|first rest]; [done|].
  destruct (calc_transient_closed_form first rest pre HRs Hpre) as (t & Hrun & _).
  unfold calc_transient_importancediffs in *.
  rewrite foldlM_app, Hrun, bind_Ok. cbn [foldlM].
  by rewrite (transient_of_variable_missing v first rest Hv).
Qed.

Lemma calc_transient_importancediffs_missing_key_witness :
  calc_transient_importancediffs
    [list_to_map [("a", rat 6 10); ("b", rat 4 10)];
     list_to_map [("a", rat 1 1)]] (["a"] ++ "b" :: ["c"])
  = Raise (KeyError "b").
Proof.
  apply calc_transient_importancediffs_missing_key.
  - done.
  - check_ranking_maps.
  - apply keys_present_intro. apply (bool_decide_unpack _). vm_compute. exact I.
  - exists (list_to_map [("a", rat 1 1)]). split; [set_solver|done].
Defined.

Lemma diff_loop_length v L st0 st :
  foldlM (diff_body v) st0 L = Ok st → length st.1 = length st0.1.
Proof.
  intros Hrun.
  apply (foldlM_ind (diff_body v) (λ _ st, length st.1 = length st0.1)
           L st0 st Hrun); [done|].
  intros _ [index R] [diffvect prev] st' _ H1 Hstep.
  rewrite diff_body_unfold in Hstep.
  destruct (getitem R v) as [x|]; [|done]. rewrite bind_Ok in Hstep.
  injection Hstep as <-. simpl in *. by rewrite length_insert.
Qed.

(** X9.  Whenever the tracker returns, each of its four dictionaries
    has exactly the names of the variable list as keys; every
    difference vector has one entry less than there are ranking
    dictionaries, and every score vector has one entry per ranking
    dictionary. *)
Theorem calc_transient_importancediffs_shape
    (rankingdicts : list (gmap string float64)) (variablelist : list string)
    (t : transient) :
  calc_transient_importancediffs rankingdicts variablelist = Ok t →
  dom (transientdict t) = list_to_set variablelist
  ∧ dom (basevaldict t) = list_to_set variablelist
  ∧ dom (boxrankdict t) = list_to_set variablelist
  ∧ dom (rel_boxrankdict t) = list_to_set variablelist
  ∧ (∀ v delta, transientdict t !! v = Some delta →
                length delta = (length rankingdicts - 1)%nat)
  ∧ (∀ v traj, boxrankdict t !! v = Some traj ∨ rel_boxrankdict t !! v = Some traj →
               length traj = length rankingdicts).
Proof.
  intros Hrun. unfold calc_transient_importancediffs in Hrun.
  apply (foldlM_ind _
    (λ pre t,
       dom (transientdict t) = list_to_set pre
       ∧ dom (basevaldict t) = list_to_set pre
       ∧ dom (boxrankdict t) = list_to_set pre
       ∧ dom (rel_boxrankdict t) = list_to_set pre
       ∧ (∀ v delta, transientdict t !! v = Some delta →
                     length delta = (length rankingdicts - 1)%nat)
       ∧ (∀ v traj,
            boxrankdict t !! v = Some traj ∨ rel_boxrankdict t !! v = Some traj →
            length traj = length rankingdicts))
    variablelist (mkTransient ∅ ∅ ∅ ∅) t Hrun).
  - simpl. rewrite !dom_empty_L. split_and!; try done.
    intros v traj. rewrite !lookup_empty. by intros [|].
  - intros pre variable t1 t2 _ (H1 & H2 & H3 & H4 & H5 & H6) Hstep.
    destruct (transient_of_variable rankingdicts variable)
      as [[[[d b] a] r]|] eqn:Hv; [|done].
    rewrite bind_Ok in Hstep. injection Hstep as <-. simpl.
    rewrite !dom_insert_L, H1, H2, H3, H4, list_to_set_app_L.
    assert ({[variable]} ∪ list_to_set pre
            =@{gset string} list_to_set pre ∪ list_to_set [variable]) as Hset
      by set_solver.
    assert (length d = (length rankingdicts - 1)%nat
            ∧ length a = length rankingdicts ∧ length r = length rankingdicts)
      as (Hd & Ha & Hr).
    { destruct (transient_of_variable_lengths rankingdicts variable d b a r Hv).
      split; [|done]. unfold transient_of_variable in Hv.
      destruct rankingdicts as [|first rest]; [done|]. cbv zeta in Hv.
      destruct (getitem first variable) as [x|]; [|done].
      rewrite bind_Ok in Hv.
      destruct (foldlM (diff_body variable) _ _) as [[d' last]|] eqn:Hdiff;
        [|done].
      rewrite bind_Ok in Hv.
      destruct (foldlM (box_body variable) _ _) as [[a' r']|]; [|done].
      rewrite bind_Ok in Hv. injection Hv as <- <- <- <-.
      apply diff_loop_length in Hdiff. simpl in Hdiff.
      by rewrite length_replicate in Hdiff. }
    split_and!; [done..| |].
    + intros v delta. destruct (decide (v = variable)) as [->|Hne].
      * rewrite lookup_insert_eq. by intros [= <-].
      * rewrite lookup_insert_ne by done. apply H5.
    + intros v traj. destruct (decide (v = variable)) as [->|Hne].
      * rewrite !lookup_insert_eq. by intros [[= <-]|[= <-]].
      * rewrite !lookup_insert_ne by done. apply H6.
Qed.

Lemma calc_transient_importancediffs_shape_witness :
  dom (boxrankdict
         (mkTransient
            (list_to_map [("a", [rat (-1) 10])]) (list_to_map [("a", rat 6 10)])
            (list_to_map [("a", [rat 6 10; rat 5 10])])
            (list_to_map [("a", [rat 1 1; rat 1 1])])))
  = list_to_set ["a"].
Proof.
  apply (calc_transient_importancediffs_shape
           [list_to_map [("a", rat 6 10); ("b", rat 4 10)];
            list_to_map [("a", rat 5 10); ("b", rat 5 10)]] ["a"]).
  compute_done.
Defined.

(** ** The edges of the importance graph *)

(** What an edge-adding loop of [create_importance_graph] leaves in
    the edge dictionary: an edge for every position visited, from the
    column variable to the row variable, whose attributes include
    those of the last position that produced it. *)
Lemma edges_loop_edges (variablelist : list string) (gainmatrix : matrix)
    (mk : string → string → float64 → attrs) (L : list (nat * nat)) G :
  foldlM (λ G '(row, col),
            u ← getindex variablelist col;
            v ← getindex variablelist row;
            w ← get_entry gainmatrix row col;
            Ok (add_edge G u v (mk u v w)))
         empty_DiGraph L = Ok G →
  (∀ u v, is_Some (edge G !! (u, v))
          ↔ ∃ row col, (row, col) ∈ L ∧ variablelist !! col = Some u
                       ∧ variablelist !! row = Some v)
  ∧ (∀ u v a, edge G !! (u, v) = Some a →
       ∃ row col w, (row, col) ∈ L ∧ variablelist !! col = Some u
         ∧ variablelist !! row = Some v
         ∧ get_entry gainmatrix row col = Ok w ∧ mk u v w ⊆ a).
Proof.
  intros Hrun.
  apply (foldlM_ind _ (λ pre G,
      (∀ u v, is_Some (edge G !! (u, v))
          ↔ ∃ row col, (row, col) ∈ pre ∧ variablelist !! col = Some u
                       ∧ variablelist !! row = Some v)
      ∧ (∀ u v a, edge G !! (u, v) = Some a →
           ∃ row col w, (row, col) ∈ pre ∧ variablelist !! col = Some u
             ∧ variablelist !! row = Some v
             ∧ get_entry gainmatrix row col = Ok w ∧ mk u v w ⊆ a))
     L empty_DiGraph G Hrun).
  - split.
    + intros u v. simpl. rewrite lookup_empty. split; [by intros []|].
      intros (? & ? & []%elem_of_nil & _).
    + intros u v a. simpl. by rewrite lookup_empty.
  - intros pre [row col] G1 G2 _ [IH1 IH2] Hstep.
    unfold getindex in Hstep.
    destruct (variablelist !! col) as [u0|] eqn:Hu; [|done].
    destruct (variablelist !! row) as [v0|] eqn:Hv; [|done].
    rewrite !bind_Ok in Hstep.
    destruct (get_entry gainmatrix row col) as [w|] eqn:Hw; [|done].
    rewrite bind_Ok in Hstep. injection Hstep as <-. split.
    + intros u v. rewrite edge_add_edge. case_decide as Huv.
      * injection Huv as -> ->. split; [|by eexists].
        intros _. exists row, col. split; [set_solver|done].
      * rewrite IH1. split.
        -- intros (r & c & Hin & Hc & Hr). exists r, c. split; [set_solver|done].
        -- intros (r & c & Hin & Hc & Hr).
           apply elem_of_app in Hin as [Hin|Hin%list_elem_of_singleton].
           ++ by exists r, c.
           ++ simplify_eq.
    + intros u v a. rewrite edge_add_edge. case_decide as Huv.
      * injection Huv as -> ->. intros [= <-].
        exists row, col, w. split_and!; [set_solver|done|done|done|].
        apply map_union_subseteq_l.
      * intros Ha. destruct (IH2 u v a Ha) as (r & c & w' & Hin & ?).
        exists r, c, w'. split; [set_solver|done].
Qed.

Lemma importance_loop_edges (ranks : gmap string float64) G0 ns G :
  foldlM (λ G n, r ← getitem ranks n;
                 Ok (add_node G n {["importance" := r]})) G0 ns = Ok G →
  edge G = edge G0.
Proof.
  intros Hrun.
  apply (foldlM_ind _ (λ _ G, edge G = edge G0) ns G0 G Hrun); [done|].
  intros _ n G1 G2 _ IH Hstep.
  destruct (getitem ranks n) as [r|]; [|done].
  rewrite bind_Ok in Hstep. by injection Hstep as <-.
Qed.

(** The three loops of [create_importance_graph], when it returns. *)
Lemma create_importance_graph_inv variablelist
    (closedconnections openconnections gainmatrix : matrix) ranks cg og :
  create_importance_graph variablelist closedconnections openconnections
    gainmatrix ranks = Ok (cg, og) →
  ∃ cg0,
    foldlM (λ G '(row, col),
              u ← getindex variablelist col;
              v ← getindex variablelist row;
              w ← get_entry gainmatrix row col;
              Ok (add_edge G u v ((λ _ _ w, {["weight" := w]}) u v w)))
           empty_DiGraph (nonzero openconnections) = Ok og
    ∧ foldlM (λ G '(row, col),
                u ← getindex variablelist col;
                v ← getindex variablelist row;
                w ← get_entry gainmatrix row col;
                Ok (add_edge G u v
                      ((λ u v w, <["controlloop" :=
                          if bool_decide ((u, v) ∈ DiGraph_edges og)
                          then Fin 0 else Fin 1]> {["weight" := w]}) u v w)))
             empty_DiGraph (nonzero closedconnections) = Ok cg0
    ∧ edge cg = edge cg0.
Proof.
  intros Hrun. unfold create_importance_graph in Hrun.
  match type of Hrun with
  | context [foldlM ?f empty_DiGraph (nonzero openconnections)] =>
      destruct (foldlM f empty_DiGraph (nonzero openconnections))
        as [og'|] eqn:Hog; [|discriminate Hrun]
  end.
  rewrite bind_Ok in Hrun.
  match type of Hrun with
  | context [foldlM ?f empty_DiGraph (nonzero closedconnections)] =>
      destruct (foldlM f empty_DiGraph (nonzero closedconnections))
        as [cg0|] eqn:Hcg; [|discriminate Hrun]
  end.
  rewrite bind_Ok in Hrun.
  match type of Hrun with
  | context [foldlM ?f cg0 (DiGraph_nodes cg0)] =>
      destruct (foldlM f cg0 (DiGraph_nodes cg0))
        as [cg'|] eqn:Hcg'; [|discriminate Hrun]
  end.
  rewrite bind_Ok in Hrun. injection Hrun as <- <-.
  exists cg0. split_and!; [reflexivity|exact Hcg|].
  exact (importance_loop_edges ranks cg0 _ cg' Hcg').
Qed.

(** X10.  Whenever [create_importance_graph] returns, the closed graph
    has an edge from [u] to [v] exactly when some nonzero entry of the
    closed connectivity matrix has [u] as its column variable and [v]
    as its row variable, and likewise for the open graph and the open
    matrix: edges run from the column (cause) to the row (effect). *)
Theorem create_importance_graph_edges (variablelist : list string)
    (closedconnections openconnections gainmatrix : matrix)
    (ranks : gmap string float64) (closedgraph opengraph : DiGraph) :
  create_importance_graph variablelist closedconnections openconnections
    gainmatrix ranks = Ok (closedgraph, opengraph) →
  (∀ u v, (u, v) ∈ dom (edge closedgraph)
          ↔ ∃ row col x, closedconnections !! row ≫= (.!! col) = Some x
               ∧ fneb x (Fin 0) = true
               ∧ variablelist !! col = Some u ∧ variablelist !! row = Some v)
  ∧ (∀ u v, (u, v) ∈ dom (edge opengraph)
            ↔ ∃ row col x, openconnections !! row ≫= (.!! col) = Some x
                 ∧ fneb x (Fin 0) = true
                 ∧ variablelist !! col = Some u ∧ variablelist !! row = Some v).
Proof.
  intros Hrun.
  destruct (create_importance_graph_inv _ _ _ _ _ _ _ Hrun)
    as (cg0 & Hog & Hcg & Hedge).
  apply edges_loop_edges in Hog as [Hopen _].
  apply edges_loop_edges in Hcg as [Hclosed _].
  split; intros u v; rewrite elem_of_dom, ?Hedge.
  - rewrite Hclosed. split.
    + intros (row & col & (x & Hx & Hnz)%elem_of_nonzero & Hu & Hv).
      by exists row, col, x.
    + intros (row & col & x & Hx & Hnz & Hu & Hv). exists row, col.
      split; [|done]. apply elem_of_nonzero. by exists x.
  - rewrite Hopen. split.
    + intros (row & col & (x & Hx & Hnz)%elem_of_nonzero & Hu & Hv).
      by exists row, col, x.
    + intros (row & col & x & Hx & Hnz & Hu & Hv). exists row, col.
      split; [|done]. apply elem_of_nonzero. by exists x.
Qed.

Lemma create_importance_graph_edges_witness :
  ("b", "a") ∈ dom (edge (mkDiGraph
     (list_to_map [("a", {["importance" := rat 1 2]});
                   ("b", {["importance" := rat 1 2]})])
     (list_to_map [(("b", "a"),
        list_to_map [("weight", rat 7 1); ("controlloop", rat 1 1)])])))
  ↔ ∃ row col x,
      [[rat 0 1; rat 1 1]; [rat 0 1; rat 0 1]] !! row ≫= (.!! col) = Some x
      ∧ fneb x (Fin 0) = true
      ∧ ["a"; "b"] !! col = Some "b" ∧ ["a"; "b"] !! row = Some "a".
Proof.
  apply (create_importance_graph_edges ["a"; "b"]
           [[rat 0 1; rat 1 1]; [rat 0 1; rat 0 1]]
           [[rat 0 1; rat 0 1]; [rat 0 1; rat 0 1]]
           [[rat 0 1; rat 7 1]; [rat 0 1; rat 0 1]]
           (list_to_map [("a", rat 1 2); ("b", rat 1 2)]) _ (mkDiGraph ∅ ∅)).
  compute_done.
Defined.

Lemma get_entry_entry (M : matrix) row col w :
  get_entry M row col = Ok w → entry M row col = w.
Proof.
  unfold get_entry, entry. destruct (M !! row ≫= (.!! col)); [|done].
  by intros [= ->].
Qed.

(** X11.  With distinct variable names, every edge of the closed graph
    carries as [weight] the gain matrix entry at the position of its
    row (target) and column (source) variable. *)
Theorem create_importance_graph_weights (variablelist : list string)
    (closedconnections openconnections gainmatrix : matrix)
    (ranks : gmap string float64) (closedgraph opengraph : DiGraph) :
  NoDup variablelist →
  create_importance_graph variablelist closedconnections openconnections
    gainmatrix ranks = Ok (closedgraph, opengraph) →
  ∀ row col u v,
    variablelist !! col = Some u → variablelist !! row = Some v →
    (u, v) ∈ dom (edge closedgraph) →
    edge_weight closedgraph u v = Some (entry gainmatrix row col).
Proof.
  intros Hnd Hrun row col u v Hu Hv Hin.
  destruct (create_importance_graph_inv _ _ _ _ _ _ _ Hrun)
    as (cg0 & _ & Hcg & Hedge).
  apply edges_loop_edges in Hcg as [_ Hsound].
  apply elem_of_dom in Hin as [a Ha]. unfold edge_weight. rewrite Ha. simpl.
  rewrite Hedge in Ha.
  destruct (Hsound u v a Ha) as (r & c & w & _ & Hc & Hr & Hw & Hsub).
  rewrite (NoDup_lookup variablelist row r v Hnd Hv Hr).
  rewrite (NoDup_lookup variablelist col c u Hnd Hu Hc).
  rewrite (get_entry_entry _ _ _ _ Hw).
  eapply lookup_weaken; [|exact Hsub].
  rewrite lookup_insert_ne by done. apply lookup_singleton_eq.
Qed.

Lemma create_importance_graph_weights_witness :
  edge_weight (mkDiGraph
       (list_to_map [("a", {["importance" := rat 1 2]});
                     ("b", {["importance" := rat 1 2]})])
       (list_to_map [(("b", "a"),
          list_to_map [("weight", rat 7 1); ("controlloop", rat 1 1)])]))
    "b" "a"
  = Some (entry [[rat 0 1; rat 7 1]; [rat 0 1; rat 0 1]] 0 1).
Proof.
  apply (create_importance_graph_weights ["a"; "b"]
           [[rat 0 1; rat 1 1]; [rat 0 1; rat 0 1]]
           [[rat 0 1; rat 0 1]; [rat 0 1; rat 0 1]]
           [[rat 0 1; rat 7 1]; [rat 0 1; rat 0 1]]
           (list_to_map [("a", rat 1 2); ("b", rat 1 2)]) _ (mkDiGraph ∅ ∅)).
  - compute_done.
  - compute_done.
  - done.
  - done.
  - compute_done.
Defined.

Lemma elem_of_DiGraph_edges G e : e ∈ DiGraph_edges G ↔ e ∈ dom (edge G).
Proof.
  unfold DiGraph_edges. rewrite elem_of_dom, list_elem_of_fmap. split.
  - intros ([k a] & -> & Hka%elem_of_map_to_list). by eexists.
  - intros [a Ha]. exists (e, a). split; [done|]. by apply elem_of_map_to_list.
Qed.

(** X12.  Whenever [create_importance_graph] returns, the
    [controlloop] flag of an edge of the closed graph is 0 when the
    open graph has that edge and 1 when it has not; when the two
    connectivity matrices are the same matrix, as in the calls made by
    [dorankcalc], every flag is 0. *)
Theorem create_importance_graph_controlloop (variablelist : list string)
    (closedconnections openconnections gainmatrix : matrix)
    (ranks : gmap string float64) (closedgraph opengraph : DiGraph) :
  create_importance_graph variablelist closedconnections openconnections
    gainmatrix ranks = Ok (closedgraph, opengraph) →
  (∀ e, e ∈ dom (edge closedgraph) →
        edge closedgraph !! e ≫= (.!! "controlloop")
        = Some (if decide (e ∈ dom (edge opengraph)) then Fin 0 else Fin 1))
  ∧ (closedconnections = openconnections →
     ∀ e, e ∈ dom (edge closedgraph) →
          edge closedgraph !! e ≫= (.!! "controlloop") = Some (Fin 0)).
Proof.
  intros Hrun.
  destruct (create_importance_graph_inv _ _ _ _ _ _ _ Hrun)
    as (cg0 & Hog & Hcg & Hedge).
  apply edges_loop_edges in Hog as [Hopen _].
  apply edges_loop_edges in Hcg as [Hclosed Hsound].
  assert (∀ e, e ∈ dom (edge closedgraph) →
            edge closedgraph !! e ≫= (.!! "controlloop")
            = Some (if decide (e ∈ dom (edge opengraph)) then Fin 0 else Fin 1))
    as Hflag.
  { intros [u v] [a Ha]%elem_of_dom. rewrite Ha. simpl. rewrite Hedge in Ha.
    destruct (Hsound u v a Ha) as (r & c & w & _ & _ & _ & _ & Hsub).
    eapply lookup_weaken; [|exact Hsub]. rewrite lookup_insert_eq. f_equal.
    destruct (decide ((u, v) ∈ dom (edge opengraph))) as [Hin|Hin].
    - rewrite bool_decide_eq_true_2; [done|]. by apply elem_of_DiGraph_edges.
    - rewrite bool_decide_eq_false_2; [done|]. by rewrite elem_of_DiGraph_edges. }
  split; [exact Hflag|].
  intros <- [u v] He. rewrite (Hflag _ He). rewrite decide_True; [done|].
  apply elem_of_dom, Hopen. apply elem_of_dom in He. rewrite Hedge in He.
  by apply Hclosed.
Qed.

Lemma create_importance_graph_controlloop_witness :
  edge (mkDiGraph
       (list_to_map [("a", {["importance" := rat 1 2]});
                     ("b", {["importance" := rat 1 2]})])
       (list_to_map [(("b", "a"),
          list_to_map [("weight", rat 7 1); ("controlloop", rat 0 1)])]))
    !! ("b", "a") ≫= (.!! "controlloop")
  = Some (Fin 0).
Proof.
  refine (proj2 (create_importance_graph_controlloop ["a"; "b"]
           [[rat 0 1; rat 1 1]; [rat 0 1; rat 0 1]]
           [[rat 0 1; rat 1 1]; [rat 0 1; rat 0 1]]
           [[rat 0 1; rat 7 1]; [rat 0 1; rat 0 1]]
           (list_to_map [("a", rat 1 2); ("b", rat 1 2)]) _
           (mkDiGraph (list_to_map [("a", ∅); ("b", ∅)])
              (list_to_map [(("b", "a"), {["weight" := rat 7 1]})])) _)
          eq_refl ("b", "a") _);
    compute_done.
Defined.

(** ** Errors of [create_importance_graph] *)

(** A loop whose turns can only raise [e], and one of whose turns
    does, raises [e]. *)
Lemma foldlM_raises {A B} (f : A → B → result A) (e : pyerror) l a :
  (∀ a x, x ∈ l → (∃ a', f a x = Ok a') ∨ f a x = Raise e) →
  (∃ x, x ∈ l ∧ ∀ a, f a x = Raise e) →
  foldlM f a l = Raise e.
Proof.
  revert a. induction l as [|x l IH]; intros a Hstep (y & Hy & Hraise).
  - by apply elem_of_nil in Hy.
  - cbn [foldlM]. destruct (Hstep a x) as [[a' Ha']|Ha']; [set_solver| |].
    + rewrite Ha', bind_Ok.
      apply elem_of_cons in Hy as [->|Hy].
      * by rewrite Hraise in Ha'.
      * apply IH; [intros; apply Hstep; set_solver|by exists y].
    + by rewrite Ha'.
Qed.

(** X13.  A nonzero entry of the open connectivity matrix whose row or
    column index lies beyond the variable list makes
    [create_importance_graph] raise [IndexError]. *)
Theorem create_importance_graph_index_error (variablelist : list string)
    (closedconnections openconnections gainmatrix : matrix)
    (ranks : gmap string float64) (row col : nat) (x : float64) :
  openconnections !! row ≫= (.!! col) = Some x →
  fneb x (Fin 0) = true →
  (length variablelist ≤ row ∨ length variablelist ≤ col)%nat →
  create_importance_graph variablelist closedconnections openconnections
    gainmatrix ranks = Raise IndexError.
Proof.
  intros Hx Hnz Hout. unfold create_importance_graph.
  rewrite (foldlM_raises _ IndexError); [done| |].
  - intros G [r c] _. unfold getindex, get_entry.
    destruct (variablelist !! c); [|by right].
    destruct (variablelist !! r); [|by right].
    rewrite !bind_Ok.
    destruct (gainmatrix !! r ≫= (.!! c)); [|by right].
    left. by eexists.
  - exists (row, col). split; [apply elem_of_nonzero; by exists x|].
    intros G. unfold getindex.
    destruct Hout as [Hout|Hout].
    + destruct (variablelist !! col); [|done].
      by rewrite bind_Ok, (lookup_ge_None_2 variablelist row Hout).
    + by rewrite (lookup_ge_None_2 variablelist col Hout).
Qed.

Lemma create_importance_graph_index_error_witness :
  create_importance_graph ["a"]
    [[rat 0 1; rat 0 1]; [rat 0 1; rat 0 1]]
    [[rat 0 1; rat 1 1]; [rat 0 1; rat 0 1]]
    [[rat 0 1; rat 7 1]; [rat 0 1; rat 0 1]]
    (list_to_map [("a", rat 1 1)])
  = Raise IndexError.
Proof.
  apply (create_importance_graph_index_error _ _ _ _ _ 0 1 (rat 1 1)).
  - done.
  - compute_done.
  - right. simpl. lia.
Defined.

Lemma importance_loop_missing (ranks : gmap string float64) ns G0 :
  (∃ n, n ∈ ns ∧ ranks !! n = None) →
  ∃ n, n ∈ ns ∧ ranks !! n = None
    ∧ foldlM (λ G n, r ← getitem ranks n;
                     Ok (add_node G n {["importance" := r]})) G0 ns
      = Raise (KeyError n).
Proof.
  revert G0. induction ns as [|n ns IH]; intros G0 (m & Hm & Hnone).
  - by apply elem_of_nil in Hm.
  - cbn [foldlM]. destruct (ranks !! n) as [r|] eqn:Hr.
    + assert (getitem ranks n = Ok r) as -> by (unfold getitem; by rewrite Hr).
      rewrite !bind_Ok.
      destruct (IH (add_node G0 n {["importance" := r]})) as (k & Hk & Hkn & Hrun).
      { apply elem_of_cons in Hm as [->|Hm]; [congruence|by exists m]. }
      exists k. split_and!; [set_solver|done|done].
    + exists n. split_and!; [set_solver|done|].
      assert (getitem ranks n = Raise (KeyError n)) as ->
        by (unfold getitem; by rewrite Hr).
      done.
Qed.

(** X14.  On square matrices of the size of the variable list, a
    variable that is incident to a nonzero entry of the closed
    connectivity matrix and has no rank makes
    [create_importance_graph] raise [KeyError] for such a variable. *)
Theorem create_importance_graph_missing_rank (variablelist : list string)
    (closedconnections openconnections gainmatrix : matrix)
    (ranks : gmap string float64) (v : string) :
  square (length variablelist) closedconnections →
  square (length variablelist) openconnections →
  square (length variablelist) gainmatrix →
  incident variablelist closedconnections v →
  ranks !! v = None →
  ∃ n, create_importance_graph variablelist closedconnections openconnections
         gainmatrix ranks = Raise (KeyError n)
       ∧ incident variablelist closedconnections n
       ∧ ranks !! n = None.
Proof.
  intros Hclosed Hopen Hgain Hv Hnone. unfold create_importance_graph.
  destruct (edges_loop_ok variablelist gainmatrix (λ _ _ w, {["weight" := w]})
              openconnections empty_DiGraph Hopen Hgain) as [og Hog].
  rewrite Hog, bind_Ok.
  destruct (edges_loop_ok variablelist gainmatrix
              (λ u v w, <["controlloop" :=
                 if bool_decide ((u, v) ∈ DiGraph_edges og)
                 then Fin 0 else Fin 1]> {["weight" := w]})
              closedconnections empty_DiGraph Hclosed Hgain) as [cg Hcg].
  rewrite Hcg, bind_Ok.
  pose proof (edges_loop_nodes _ _ _ _ _ Hcg) as Hnodes.
  assert (∀ n, n ∈ DiGraph_nodes cg ↔ incident variablelist closedconnections n)
    as Hinc.
  { intros n. rewrite incident_nonzero, <-Hnodes.
    unfold DiGraph_nodes. rewrite elem_of_dom, list_elem_of_fmap. split.
    - intros ([k a] & -> & Hka%elem_of_map_to_list). by eexists.
    - intros [a Ha]. exists (n, a). split; [done|].
      by apply elem_of_map_to_list. }
  destruct (importance_loop_missing ranks (DiGraph_nodes cg) cg)
    as (n & Hn & Hrn & Hrun).
  { exists v. split; [by apply Hinc|done]. }
  exists n. rewrite Hrun. split_and!; [done|by apply Hinc|done].
Qed.

Lemma create_importance_graph_missing_rank_witness :
  ∃ n,
    create_importance_graph ["a"; "b"]
      [[rat 0 1; rat 1 1]; [rat 0 1; rat 0 1]]
      [[rat 0 1; rat 0 1]; [rat 0 1; rat 0 1]]
      [[rat 0 1; rat 7 1]; [rat 0 1; rat 0 1]]
      (list_to_map [("a", rat 1 1)]) = Raise (KeyError n)
    ∧ incident ["a"; "b"] [[rat 0 1; rat 1 1]; [rat 0 1; rat 0 1]] n
    ∧ (list_to_map [("a", rat 1 1)] : gmap string float64) !! n = None.
Proof.
  apply (create_importance_graph_missing_rank _ _ _ _ _ "b").
  - split; [done|]. repeat constructor.
  - split; [done|]. repeat constructor.
  - split; [done|]. repeat constructor.
  - exists 0%nat, 1%nat, (rat 1 1). split_and!; [done|compute_done|by right].
  - done.
Defined.

(** ** More on [calc_simple_rank] *)

(** X15.  On well-shaped input, the katz method without a configured
    [alpha] raises [AttributeError] after the graphs are built; no
    library routine is called. *)
Theorem katz_without_alpha_raises (lib : library) (G : matrix)
    (variables : list string) (b : list float64) (data : NoderankData) :
  well_shaped G variables b →
  alpha data = None →
  calc_simple_rank lib G variables b data "katz" "networkx"
  = Raise (AttributeError "alpha").
Proof.
  intros Hshape Halpha.
  destruct (calc_simple_rank_graphs G variables b (m data) Hshape)
    as (reset & sparse & Hbuild & _).
  unfold calc_simple_rank, calc_simple_rank_call.
  destruct (weight_matrices G b (m data)) as [[WM GM] G1].
  cbn [fst snd] in Hbuild.
  rewrite decide_True by done. rewrite Hbuild, bind_Ok.
  rewrite decide_False by done. rewrite decide_True by done.
  by rewrite Halpha.
Qed.

Lemma katz_without_alpha_raises_witness :
  calc_simple_rank
    (mkLibrary (λ _, Raise (ValueError "stub")) (λ _ _, Raise (ValueError "stub"))
               (λ _ _, Raise (ValueError "stub")) (λ _, Raise (ValueError "stub")))
    [[rat 0 1; rat 1 1]; [rat 1 1; rat 0 1]] ["a"; "b"] [rat 1 1; rat 1 1]
    (mkNoderankData (rat 1 2) None ["a"; "b"] [] [rat 1 1; rat 1 1] false)
    "katz" "networkx"
  = Raise (AttributeError "alpha").
Proof.
  apply katz_without_alpha_raises.
  - repeat split; repeat constructor.
  - done.
Defined.

(** X16.  For the katz and pagerank methods the bias vector has no
    influence: on well-shaped input, two bias vectors give the same
    result, whatever the library routines do. *)
Theorem sparse_methods_ignore_bias (lib : library) (G : matrix)
    (variables : list string) (b b' : list float64) (data : NoderankData)
    (rank_method : string) :
  well_shaped G variables b → well_shaped G variables b' →
  rank_method = "katz" ∨ rank_method = "pagerank" →
  calc_simple_rank lib G variables b data rank_method "networkx"
  = calc_simple_rank lib G variables b' data rank_method "networkx".
Proof.
  intros Hshape Hshape' Hmethod.
  destruct (calc_simple_rank_graphs G variables b (m data) Hshape)
    as (reset & sparse & Hbuild & _).
  destruct (calc_simple_rank_graphs G variables b' (m data) Hshape')
    as (reset' & sparse' & Hbuild' & _).
  assert ((weight_matrices G b' (m data)).1.2 = (weight_matrices G b (m data)).1.2)
    as HGM by done.
  unfold calc_simple_rank. f_equal.
  unfold calc_simple_rank_call.
  destruct (weight_matrices G b (m data)) as [[WM GM] G1].
  destruct (weight_matrices G b' (m data)) as [[WM' GM'] G1'].
  cbn [fst snd] in Hbuild, Hbuild', HGM. subst GM'.
  pose proof (build_graphs_sparse_indep _ _ _ _ _ _ _ _ Hbuild Hbuild') as <-.
  rewrite decide_True by done. rewrite Hbuild, Hbuild', !bind_Ok.
  destruct Hmethod as [-> | ->].
  - rewrite decide_False by done. by rewrite decide_True by done.
  - rewrite !decide_False by done. by rewrite decide_True by done.
Qed.

Lemma sparse_methods_ignore_bias_witness :
  calc_simple_rank
    (mkLibrary (λ _, Raise (ValueError "stub")) (λ _ _, Raise (ValueError "stub"))
               (λ _ _, Ok (list_to_map [("a", rat 1 1); ("b", rat 3 1)]))
               (λ _, Raise (ValueError "stub")))
    [[rat 0 1; rat 1 1]; [rat 1 1; rat 0 1]] ["a"; "b"] [rat 1 1; rat 1 1]
    (mkNoderankData (rat 1 2) None ["a"; "b"] [] [rat 1 1; rat 1 1] false)
    "pagerank" "networkx"
  = calc_simple_rank
      (mkLibrary (λ _, Raise (ValueError "stub")) (λ _ _, Raise (ValueError "stub"))
                 (λ _ _, Ok (list_to_map [("a", rat 1 1); ("b", rat 3 1)]))
                 (λ _, Raise (ValueError "stub")))
      [[rat 0 1; rat 1 1]; [rat 1 1; rat 0 1]] ["a"; "b"] [rat 0 1; rat 5 1]
      (mkNoderankData (rat 1 2) None ["a"; "b"] [] [rat 1 1; rat 1 1] false)
      "pagerank" "networkx".
Proof.
  apply sparse_methods_ignore_bias.
  - repeat split; repeat constructor.
  - repeat split; repeat constructor.
  - by right.
Defined.

(** X17.  Whenever [calc_simple_rank] returns a ranking dictionary and
    a ranking list, the list holds exactly the entries of the
    dictionary, each key once; when the scores are finite, no entry is
    followed by one of larger score. *)
Theorem calc_simple_rank_list_sorted (lib : library) (G : matrix)
    (variables : list string) (b : list float64) (data : NoderankData)
    (rank_method package : string) (rankingdict : gmap string float64)
    (rankinglist : list (string * float64)) :
  calc_simple_rank lib G variables b data rank_method package
  = Ok (rankingdict, rankinglist) →
  rankinglist ≡ₚ map_to_list rankingdict
  ∧ NoDup rankinglist.*1
  ∧ (∀ k x, (k, x) ∈ rankinglist ↔ rankingdict !! k = Some x)
  ∧ ((∀ k x, rankingdict !! k = Some x → is_finite x = true) →
     StronglySorted (λ x y, fltb x.2 y.2 = false) rankinglist).
Proof.
  unfold calc_simple_rank. intros Hrun.
  destruct (calc_simple_rank_call _ _ _ _ _ _) as [call|]; [|done].
  rewrite bind_Ok in Hrun.
  destruct (run_centrality lib variables call) as [d|]; [|done].
  rewrite bind_Ok in Hrun. injection Hrun as <- <-.
  split_and!.
  - apply sorted_desc_Permutation.
  - rewrite sorted_desc_Permutation. apply NoDup_fst_map_to_list.
  - intros k x. rewrite sorted_desc_Permutation. apply elem_of_map_to_list.
  - intros Hfin. apply sorted_desc_sorted, Forall_forall.
    intros [k x] Hkx%elem_of_map_to_list. by eapply Hfin.
Qed.

Lemma calc_simple_rank_list_sorted_witness :
  [("b", rat 3 4); ("a", rat 1 4)]
  ≡ₚ map_to_list (list_to_map [("a", rat 1 4); ("b", rat 3 4)]
                    : gmap string float64).
Proof.
  refine (proj1 (calc_simple_rank_list_sorted
    (mkLibrary (λ _, Ok (list_to_map [("a", rat 1 1); ("b", rat 3 1)]))
               (λ _ _, Raise (ValueError "stub"))
               (λ _ _, Raise (ValueError "stub")) (λ _, Raise (ValueError "stub")))
    [[rat 0 1; rat 1 1]; [rat 1 1; rat 0 1]] ["a"; "b"] [rat 1 1; rat 1 1]
    (mkNoderankData (rat 1 2) None ["a"; "b"] [] [rat 1 1; rat 1 1] false)
    "eigenvector" "networkx" _ _ _)).
  compute_done.
Defined.

(** ** The first column normalisation *)

Lemma Qcopp_nonneg a : a < 0 → 0 ≤ - a.
Proof.
  intros Ha. replace 0 with (- 0) by ring.
  by apply Qcopp_le_compat, Qclt_le_weak.
Qed.

Lemma fabs_fin a : ∃ p, fabs (Fin a) = Fin p ∧ 0 ≤ p ∧ (p = 0 → a = 0).
Proof.
  unfold fabs. case_decide as Ha.
  - exists (- a). split_and!; [done|by apply Qcopp_nonneg|].
    intros H0. rewrite <-(Qcopp_involutive a), H0. ring.
  - exists a. split_and!; [done|by apply Qcnot_lt_le|done].
Qed.

Lemma fsum_abs_nonneg xs :
  Forall (λ x, is_finite x = true) xs →
  ∃ s, fsum (fabs <$> xs) = Fin s ∧ 0 ≤ s.
Proof.
  induction 1 as [|x xs Hx _ (s & IH & Hs)].
  - exists 0. split; [done|apply Qcle_refl].
  - destruct x as [a| | |]; try done.
    destruct (fabs_fin a) as (p & Hp & Hp0 & _).
    rewrite fmap_cons, fsum_cons, IH, Hp. exists (p + s). split; [done|].
    replace 0 with (0 + 0) by ring. by apply Qcplus_le_compat.
Qed.

Lemma feqb_0_false x : feqb x (Fin 0) = false → x ≠ Fin 0.
Proof. intros H ->. by compute in H. Qed.

Lemma column_finite n (G : matrix) j :
  square n G → Forall (Forall (λ x, is_finite x = true)) G → (j < n)%nat →
  Forall (λ x, is_finite x = true) (column G j).
Proof.
  intros [_ Hrows] Hfin Hj. unfold column. apply Forall_fmap.
  rewrite Forall_forall in Hrows, Hfin. apply Forall_forall. intros r Hr. simpl.
  destruct (lookup_lt_is_Some_2 r j) as [x Hx]; [by rewrite (Hrows r Hr)|].
  rewrite Hx. simpl. specialize (Hfin r Hr). rewrite Forall_forall in Hfin.
  apply Hfin. by eapply list_elem_of_lookup_2.
Qed.

(** X18.  The first normalisation of a square gain matrix treats the
    columns one by one: the matrix stays square, and each of its
    columns is the column of the input, unchanged when its absolute
    values sum to zero and divided by that sum otherwise. *)
Theorem gain_columns_normalised (G : matrix) (j : nat) :
  square (length G) G → (j < length G)%nat →
  square (length G) (normalise_columns_skip_zero (length G) G)
  ∧ column (normalise_columns_skip_zero (length G) G) j
    = if feqb (fsum (fabs <$> column G j)) (Fin 0) then column G j
      else (λ x, fdiv x (fsum (fabs <$> column G j))) <$> column G j.
Proof.
  intros HG Hj. split; [by apply normalise_columns_skip_zero_square|].
  destruct (normalise_columns_skip_zero_spec (length G) G (length G))
    as (_ & _ & Hcol); [apply HG|lia|].
  by rewrite Hcol, decide_True.
Qed.

Lemma gain_columns_normalised_witness :
  column (normalise_columns_skip_zero 2
            [[rat 0 1; rat 1 1]; [rat 0 1; rat (-3) 1]]) 1
  = [rat 1 4; rat (-3) 4].
Proof.
  destruct (gain_columns_normalised
              [[rat 0 1; rat 1 1]; [rat 0 1; rat (-3) 1]] 1) as [_ Hcol].
  - split; [done|]. repeat constructor.
  - simpl. lia.
  - etrans; [exact Hcol|]. compute_done.
Defined.

(** ** [gainmatrix_preprocessing] *)

Lemma fneb_0_iff x : fneb x (Fin 0) = true ↔ x ≠ Fin 0.
Proof.
  unfold fneb. split.
  - intros H ->. by compute in H.
  - intros H. by rewrite feqb_ne.
Qed.

Lemma nonzero_row_entries (r : nat) (row : list float64) (F : nat * nat → float64)
    (j : nat → nat) :
  (∀ c x, row !! c = Some x → F (r, j c) = x) →
  F <$> (imap (λ c x, (j c, x)) row ≫=
           (λ '(c, x), if fneb x (Fin 0) then [(r, c)] else []))
  = filter (λ x, x ≠ Fin 0) row.
Proof.
  revert j. induction row as [|x row IH]; intros j Hj; [done|].
  rewrite imap_cons, bind_cons, fmap_app.
  change (imap ((λ c x, (j c, x)) ∘ S) row)
    with (imap (λ c x, ((j ∘ S) c, x)) row).
  rewrite (IH (j ∘ S)) by (intros c y Hc; by apply (Hj (S c))).
  destruct (fneb x (Fin 0)) eqn:Hx.
  - rewrite filter_cons_True by by apply fneb_0_iff.
    simpl. f_equal. by apply (Hj 0%nat).
  - rewrite filter_cons_False; [done|].
    intros Hnz%fneb_0_iff. congruence.
Qed.

Lemma nonzero_matrix_entries (G : matrix) (F : nat * nat → float64) (i : nat → nat) :
  (∀ r row c x, G !! r = Some row → row !! c = Some x → F (i r, c) = x) →
  F <$> (imap (λ r row, (i r, row)) G ≫=
           (λ '(r, row), '(c, x) ← enumerate row;
                         if fneb x (Fin 0) then [(r, c)] else []))
  = filter (λ x, x ≠ Fin 0) (concat G).
Proof.
  revert i. induction G as [|row G IH]; intros i Hi; [done|].
  rewrite imap_cons, bind_cons, fmap_app.
  change (imap ((λ r row, (i r, row)) ∘ S) G)
    with (imap (λ r row, ((i ∘ S) r, row)) G).
  rewrite (IH (i ∘ S)) by (intros r rw c y Hr Hc; by apply (Hi (S r) rw)).
  simpl concat. rewrite filter_app. f_equal.
  apply (nonzero_row_entries (i 0%nat) row F id).
  intros c x Hc. by apply (Hi 0%nat row).
Qed.

(** The entries at the positions of [M.nonzero()] are the entries that
    differ from zero, in row-major order. *)
Lemma nonzero_entries (G : matrix) :
  (λ '(r, c), entry G r c) <$> nonzero G
  = filter (λ x, x ≠ Fin 0) (concat G).
Proof.
  apply (nonzero_matrix_entries G (λ '(r, c), entry G r c) id).
  intros r row c x Hr Hc. cbv beta iota. unfold id, entry.
  rewrite Hr. simpl. by rewrite Hc.
Qed.

Lemma sum_count_loop (G : matrix) ps s n :
  foldl (λ '(gainsum, counter) '(row, col),
           (fadd gainsum (entry G row col), S counter)) (s, n) ps
  = (foldl fadd s ((λ '(r, c), entry G r c) <$> ps), (n + length ps)%nat).
Proof.
  revert s n. induction ps as [|[r c] ps IH]; intros s n.
  - simpl. f_equal. lia.
  - cbn [foldl fmap list_fmap length]. rewrite IH. f_equal. lia.
Qed.

Lemma rescale_loop (G : matrix) (ms : float64) ps :
  (∀ p, p ∈ ps → p ∈ nonzero G) →
  foldl (λ M '(row, col), set_entry M row col (fmul (entry G row col) ms))
        ((λ r : list float64, (λ _ : float64, Fin 0) <$> r) <$> G) ps
  = imap (λ r row, imap (λ c x, if bool_decide ((r, c) ∈ ps)
                                then fmul x ms else Fin 0) row) G.
Proof.
  induction ps as [|[r c] ps IH] using rev_ind; intros Hps.
  - simpl. apply list_eq. intros i.
    rewrite list_lookup_fmap, list_lookup_imap.
    destruct (G !! i) as [row|]; [|done]. simpl. f_equal.
    apply list_eq. intros k. rewrite list_lookup_fmap, list_lookup_imap.
    by destruct (row !! k).
  - rewrite foldl_app, IH by (intros p Hp; apply Hps; set_solver).
    cbn [foldl]. unfold set_entry.
    destruct (proj1 (elem_of_nonzero G r c)) as (x & Hx & _);
      [apply Hps; set_solver|].
    destruct (G !! r) as [row|] eqn:Hrow; [|done]. simpl in Hx.
    assert (entry G r c = x) as ->
      by (unfold entry; rewrite Hrow; simpl; by rewrite Hx).
    apply list_eq. intros i. destruct (decide (i = r)) as [->|Hi].
    + rewrite list_lookup_alter_eq, !list_lookup_imap, Hrow. simpl. f_equal.
      apply list_eq. intros k. destruct (decide (k = c)) as [->|Hk].
      * rewrite list_lookup_insert_eq
          by (rewrite length_imap; by eapply lookup_lt_Some).
        rewrite list_lookup_imap, Hx. simpl.
        rewrite bool_decide_eq_true_2; [done|]. set_solver.
      * rewrite list_lookup_insert_ne by done.
        rewrite !list_lookup_imap. destruct (row !! k); [|done]. simpl.
        by rewrite (bool_decide_ext ((r, k) ∈ ps ++ [(r, c)]) ((r, k) ∈ ps))
          by (rewrite elem_of_app, list_elem_of_singleton; naive_solver).
    + rewrite list_lookup_alter_ne by done.
      rewrite !list_lookup_imap. destruct (G !! i) as [rw|]; [|done]. simpl.
      f_equal. apply imap_ext. intros k y _.
      by rewrite (bool_decide_ext ((i, k) ∈ ps ++ [(r, c)]) ((i, k) ∈ ps))
        by (rewrite elem_of_app, list_elem_of_singleton; naive_solver).
Qed.

Lemma rescale_loop_all (G : matrix) (ms : float64) :
  imap (λ r row, imap (λ c x, if bool_decide ((r, c) ∈ nonzero G)
                              then fmul x ms else Fin 0) row) G
  = (λ row : list float64,
       (λ x, if fneb x (Fin 0) then fmul x ms else Fin 0) <$> row) <$> G.
Proof.
  apply list_eq. intros r. rewrite list_lookup_fmap, list_lookup_imap.
  destruct (G !! r) as [row|] eqn:Hrow; [|done]. simpl. f_equal.
  apply list_eq. intros c. rewrite list_lookup_fmap, list_lookup_imap.
  destruct (row !! c) as [x|] eqn:Hx; [|done]. simpl. f_equal.
  destruct (fneb x (Fin 0)) eqn:Hnz.
  - rewrite bool_decide_eq_true_2; [done|].
    apply elem_of_nonzero. exists x. rewrite Hrow. simpl. by rewrite Hx.
  - rewrite bool_decide_eq_false_2; [done|].
    intros (y & Hy & Hynz)%elem_of_nonzero.
    rewrite Hrow in Hy. simpl in Hy. congruence.
Qed.

(** The function in closed form: the mean is taken over the entries
    that differ from zero, each of them is multiplied by its inverse,
    and the zero entries stay zero. *)
Lemma gainmatrix_preprocessing_unfold (G : matrix) :
  let nz := filter (λ x, x ≠ Fin 0) (concat G) in
  let mean := fdiv (fsum nz) (Fin (Qc_of_Z (Z.of_nat (length nz)))) in
  gainmatrix_preprocessing G
  = if decide (length nz = 0%nat) then Raise ZeroDivisionError
    else Ok ((λ row : list float64,
                (λ x, if fneb x (Fin 0)
                      then fmul x (fdiv (Fin 1) mean) else Fin 0) <$> row)
               <$> G, mean).
Proof.
  intros nz mean. unfold gainmatrix_preprocessing.
  rewrite sum_count_loop, nonzero_entries. fold nz.
  cbn [Nat.add].
  assert (length (nonzero G) = length nz) as Hlen
    by (unfold nz; by rewrite <-nonzero_entries, length_fmap).
  rewrite Hlen. destruct (decide (length nz = 0%nat)) as [Hz|Hz]; [done|].
  change (foldl fadd (Fin 0) nz) with (fsum nz). fold mean.
  by rewrite rescale_loop, rescale_loop_all.
Qed.

Lemma filter_nonzero_nil (l : list float64) :
  filter (λ x, x ≠ Fin 0) l = [] ↔ Forall (λ x, x = Fin 0) l.
Proof.
  induction l as [|x l IH]; [by split|].
  destruct (decide (x = Fin 0)) as [Hx|Hx].
  - rewrite filter_cons_False by (by intros ?). rewrite IH, Forall_cons.
    naive_solver.
  - rewrite filter_cons_True by done. rewrite Forall_cons. naive_solver.
Qed.

Lemma nonzero_entries_nil (G : matrix) :
  filter (λ x, x ≠ Fin 0) (concat G) = [] ↔ Forall (Forall (λ x, x = Fin 0)) G.
Proof.
  rewrite filter_nonzero_nil. induction G as [|row G IH]; [by split|].
  simpl concat. rewrite Forall_app, Forall_cons, IH. done.
Qed.

(** X20.  [gainmatrix_preprocessing] raises [ZeroDivisionError] exactly
    when every entry of the gain matrix is zero (an empty matrix
    included): the mean is taken over no entries at all. *)
Theorem gainmatrix_preprocessing_zero_division (G : matrix) :
  gainmatrix_preprocessing G = Raise ZeroDivisionError
  ↔ Forall (Forall (λ x, x = Fin 0)) G.
Proof.
  rewrite gainmatrix_preprocessing_unfold, <-nonzero_entries_nil.
  case_decide as Hlen.
  - split; [intros _|done]. by apply length_zero_iff_nil.
  - split; [done|]. intros Hnil. by rewrite Hnil in Hlen.
Qed.

(** X21.  When some entry differs from zero, [gainmatrix_preprocessing]
    returns the mean of the entries that differ from zero, and the
    matrix in which each of them is multiplied by the inverse of that
    mean while the zero entries stay zero. *)
Theorem gainmatrix_preprocessing_rescales (G : matrix) :
  let nz := filter (λ x, x ≠ Fin 0) (concat G) in
  let mean := fdiv (fsum nz) (Fin (Qc_of_Z (Z.of_nat (length nz)))) in
  ¬ Forall (Forall (λ x, x = Fin 0)) G →
  gainmatrix_preprocessing G
  = Ok ((λ row : list float64,
           (λ x, if fneb x (Fin 0)
                 then fmul x (fdiv (Fin 1) mean) else Fin 0) <$> row) <$> G,
        mean).
Proof.
  intros nz mean Hnz. rewrite gainmatrix_preprocessing_unfold.
  fold nz. fold mean. rewrite decide_False; [done|].
  intros Hlen%length_zero_iff_nil. by apply Hnz, nonzero_entries_nil.
Qed.

Lemma gainmatrix_preprocessing_rescales_witness :
  gainmatrix_preprocessing [[rat 0 1; rat 2 1]; [rat 4 1; rat 0 1]]
  = Ok ([[rat 0 1; rat 2 3]; [rat 4 3; rat 0 1]], rat 3 1).
Proof.
  rewrite (gainmatrix_preprocessing_rescales
             [[rat 0 1; rat 2 1]; [rat 4 1; rat 0 1]]).
  - compute_done.
  - intros H. apply Forall_cons in H as [H _].
    apply Forall_cons in H as [_ H]. by apply Forall_cons in H as [H _].
Defined.

Lemma Fin_inj a b : Fin a = Fin b → a = b.
Proof. congruence. Qed.

(** ** Preprocessing in [dorankcalc] *)

Lemma preprocessing_loop_zero_box (Gs : list matrix) (G : matrix)
    (acc : option matrix) :
  G ∈ Gs → Forall (Forall (λ x, x = Fin 0)) G →
  foldlM (λ _ gainmatrix,
            '(modgainmatrix, _) ← gainmatrix_preprocessing gainmatrix;
            Ok (Some modgainmatrix)) acc Gs
  = Raise ZeroDivisionError.
Proof.
  intros Hin Hzero. revert acc.
  induction Gs as [|G' Gs IH]; intros acc; [by apply elem_of_nil in Hin|].
  cbn [foldlM]. rewrite gainmatrix_preprocessing_unfold.
  case_decide as Hlen; [done|]. rewrite !bind_Ok. apply IH.
  apply elem_of_cons in Hin as [->|Hin]; [|exact Hin].
  destruct Hlen. apply length_zero_iff_nil. by apply nonzero_entries_nil.
Qed.

(** X23.  With preprocessing switched on, [dorankcalc] preprocesses
    the gain matrix of every box although it ranks only the last one:
    one box whose gain matrix is entirely zero, at any place of the
    list, makes the call raise [ZeroDivisionError]. *)
Theorem dorankcalc_preprocessing_zero_box (lib : library)
    (rankbackward : rankbackward_t) (noderankdata : NoderankData)
    (rank_method : string) (gainmatrices : list matrix) (G : matrix) :
  G ∈ gainmatrices → Forall (Forall (λ x, x = Fin 0)) G →
  dorankcalc_rankingdicts lib rankbackward noderankdata rank_method true
    gainmatrices
  = Raise ZeroDivisionError.
Proof.
  intros Hin Hzero. unfold dorankcalc_rankingdicts.
  by rewrite (preprocessing_loop_zero_box gainmatrices G None Hin Hzero).
Qed.

Lemma dorankcalc_preprocessing_zero_box_witness :
  dorankcalc_rankingdicts
    (mkLibrary (λ _, Ok (list_to_map [("a", rat 1 1); ("b", rat 1 1)]))
               (λ _ _, Raise (ValueError "unused"))
               (λ _ _, Raise (ValueError "unused"))
               (λ _, Raise (ValueError "unused")))
    (λ variables gain connection bias _ _, Ok (connection, gain, variables, bias))
    (mkNoderankData (rat 1 2) None ["a"; "b"]
       [[rat 1 1; rat 1 1]; [rat 1 1; rat 1 1]] [rat 1 1; rat 1 1] false)
    "eigenvector" true
    [[[rat 0 1; rat 0 1]; [rat 0 1; rat 0 1]];
     [[rat 0 1; rat 2 1]; [rat 3 1; rat 0 1]]]
  = Raise ZeroDivisionError.
Proof.
  apply (dorankcalc_preprocessing_zero_box _ _ _ _ _
           [[rat 0 1; rat 0 1]; [rat 0 1; rat 0 1]]).
  - apply elem_of_cons. by left.
  - repeat constructor.
Defined.

(** ** The files read by [get_gainmatrices] *)

(** X24.  For a weight method whose name starts with
    [transfer_entropy], none of the array types that [noderankcalc]
    ranks binds the file name in [get_gainmatrices]: with at least one
    box the call raises [UnboundLocalError] before any file is read. *)
Theorem transfer_entropy_typenames_unbound_fname
    (read_gainmatrix : string → result matrix) (weight_method sigtype : string)
    (typename datadir : string) (boxes : list Z) :
  slice_to 16 weight_method = "transfer_entropy" →
  typename ∈ typenames weight_method sigtype →
  boxes ≠ [] →
  get_gainmatrices read_gainmatrix boxes datadir typename
  = Raise (UnboundLocalError "fname").
Proof.
  intros Hwm Hin Hboxes. unfold typenames in Hin.
  rewrite decide_True in Hin by done.
  assert (gainmatrix_fname typename = None) as Hfname.
  { case_decide; set_unfold; destruct_or!; by subst. }
  unfold get_gainmatrices. rewrite Hfname.
  destruct boxes as [|b boxes]; [done|]. cbn [foldlM]. done.
Qed.

Lemma transfer_entropy_typenames_unbound_fname_witness :
  get_gainmatrices (λ _, Ok []) [0%Z; 1%Z] "weightdata/case/scenario"
    "weight_absolute_arrays"
  = Raise (UnboundLocalError "fname").
Proof.
  apply (transfer_entropy_typenames_unbound_fname _
           "transfer_entropy_kernel" "sigtest").
  - done.
  - unfold typenames. rewrite decide_True by done. apply elem_of_cons. by left.
  - done.
Defined.

Lemma string_app_cons (x : Ascii.ascii) (a b : string) :
  String x a +:+ b = String x (a +:+ b).
Proof. done. Qed.

Lemma string_app_assoc (a b c : string) : (a +:+ b) +:+ c = a +:+ b +:+ c.
Proof.
  induction a as [|x a IH]; [done|]. by rewrite !string_app_cons, IH.
Qed.

Lemma string_app_nonempty (a b : string) : b ≠ EmptyString → a +:+ b ≠ EmptyString.
Proof. intros Hb. destruct a; [exact Hb|by rewrite string_app_cons]. Qed.

Lemma endswith_slash_cons (c : Ascii.ascii) (s : string) :
  s ≠ EmptyString → endswith_slash (String c s) = endswith_slash s.
Proof. by destruct s. Qed.

Lemma endswith_slash_app (a b : string) :
  b ≠ EmptyString → endswith_slash (a +:+ b) = endswith_slash b.
Proof.
  intros Hb. induction a as [|x a IH]; [done|].
  by rewrite string_app_cons, endswith_slash_cons
    by by apply string_app_nonempty.
Qed.

(** The decimal digits of a number are not empty and do not end in a
    slash. *)
Lemma pretty_N_go_no_slash (x : N) (s : string) :
  s ≠ EmptyString → endswith_slash s = false →
  pretty_N_go x s ≠ EmptyString ∧ endswith_slash (pretty_N_go x s) = false.
Proof.
  revert s. induction (N.lt_wf_0 x) as [x _ IH]. intros s Hs Hslash.
  assert (x = 0 ∨ 0 < x)%N as [->|Hx] by lia; [by rewrite pretty_N_go_0|].
  rewrite pretty_N_go_step by done. apply IH.
  - by apply N.div_lt.
  - done.
  - by rewrite endswith_slash_cons.
Qed.

Lemma pretty_N_no_slash (x : N) :
  pretty x ≠ EmptyString ∧ endswith_slash (pretty x) = false.
Proof.
  unfold pretty, pretty_N. case_decide as Hx; [done|].
  rewrite pretty_N_go_step by lia. apply pretty_N_go_no_slash; [done|].
  unfold pretty_N_char. by repeat case_match.
Qed.

Lemma format_03d_no_slash (z : Z) :
  format_03d z ≠ EmptyString ∧ endswith_slash (format_03d z) = false.
Proof.
  assert (∀ w (x : N), zero_pad w (pretty x) ≠ EmptyString
                 ∧ endswith_slash (zero_pad w (pretty x)) = false) as Hpad.
  { intros w x. destruct (pretty_N_no_slash x) as [Hne Hs]. unfold zero_pad.
    split; [by apply string_app_nonempty|by rewrite endswith_slash_app]. }
  unfold format_03d. destruct z as [|p|p]; try apply Hpad.
  destruct (Hpad 2%nat (N.pos p)) as [Hne Hs].
  split; [done|]. by rewrite endswith_slash_app.
Qed.

Lemma os_path_join_cons (a b : string) (p : list string) :
  a ≠ EmptyString → endswith_slash a = false → String.prefix "/" b = false →
  os_path_join a (b :: p) = os_path_join (a +:+ "/" +:+ b) p.
Proof.
  intros Ha Has Hb. unfold os_path_join. cbn [foldl].
  by rewrite Hb, bool_decide_eq_false_2, Has.
Qed.

Lemma box_file_path (datadir typename fname : string) (z : Z) :
  datadir ≠ EmptyString → endswith_slash datadir = false →
  typename ≠ EmptyString → endswith_slash typename = false →
  String.prefix "/" typename = false → String.prefix "/" fname = false →
  os_path_join datadir [typename; "box" +:+ format_03d z; fname]
  = datadir +:+ "/" +:+ typename +:+ "/box" +:+ format_03d z +:+ "/" +:+ fname.
Proof.
  intros Hd Hds Ht Hts Htp Hfp. destruct (format_03d_no_slash z) as [Hz Hzs].
  rewrite os_path_join_cons by done.
  rewrite os_path_join_cons.
  - rewrite os_path_join_cons.
    + unfold os_path_join. cbn [foldl]. by rewrite !string_app_assoc.
    + by apply string_app_nonempty.
    + rewrite endswith_slash_app by done.
      change ("/" +:+ "box" +:+ format_03d z) with ("/box" +:+ format_03d z).
      by rewrite endswith_slash_app.
    + done.
  - by apply string_app_nonempty.
  - rewrite endswith_slash_app by by apply string_app_nonempty.
    by rewrite endswith_slash_app.
  - done.
Qed.

Lemma read_loop (read : Z → result matrix) (boxes : list Z) (acc : list matrix) :
  foldlM (λ gainmatrices boxindex,
            gainmatrix ← read boxindex; Ok (gainmatrices ++ [gainmatrix]))
         acc boxes
  = (ms ← mapM read boxes; Ok (acc ++ ms)).
Proof.
  revert acc. induction boxes as [|b boxes IH]; intros acc.
  - simpl. by rewrite app_nil_r.
  - cbn [foldlM mapM]. destruct (read b) as [gm|e]; [|done].
    rewrite !bind_Ok, IH. destruct (mapM read boxes) as [ms|e]; [|done].
    simpl. by rewrite <-app_assoc.
Qed.

Lemma mapM_ext_result {A B} (f g : A → result B) (l : list A) :
  (∀ x, f x = g x) → mapM f l = mapM g l.
Proof.
  intros Hfg. induction l as [|x l IH]; [done|].
  cbn [mapM]. by rewrite Hfg, IH.
Qed.

(** X25.  For a weight method other than transfer entropy, and a data
    directory that is not empty and does not end in a slash, every
    array type that [noderankcalc] ranks has its file name bound, and
    [get_gainmatrices] reads, box by box in the order of the box list,
    the file [datadir/typename/boxNNN/fname], where NNN is the box
    index plus one; it returns the matrices in that order, or the
    error of the first read that fails. *)
Theorem get_gainmatrices_reads_box_files
    (read_gainmatrix : string → result matrix) (weight_method sigtype : string)
    (typename datadir : string) (boxes : list Z) :
  slice_to 16 weight_method ≠ "transfer_entropy" →
  typename ∈ typenames weight_method sigtype →
  datadir ≠ EmptyString → endswith_slash datadir = false →
  ∃ fname,
    gainmatrix_fname typename = Some fname
    ∧ get_gainmatrices read_gainmatrix boxes datadir typename
      = mapM (λ boxindex,
                read_gainmatrix
                  (datadir +:+ "/" +:+ typename +:+ "/box"
                   +:+ format_03d (boxindex + 1) +:+ "/" +:+ fname))
             boxes.
Proof.
  intros Hwm Hin Hd Hds. unfold typenames in Hin.
  rewrite decide_False in Hin by done.
  assert (∃ fname, gainmatrix_fname typename = Some fname
                   ∧ typename ≠ EmptyString ∧ endswith_slash typename = false
                   ∧ String.prefix "/" typename = false
                   ∧ String.prefix "/" fname = false)
    as (fname & Hfname & Ht & Hts & Htp & Hfp).
  { case_decide; set_unfold; destruct_or!; subst; by eexists. }
  exists fname. split; [done|].
  unfold get_gainmatrices. rewrite Hfname.
  etrans; [apply (read_loop
    (λ boxindex, read_gainmatrix
       (os_path_join datadir
          [typename; "box" +:+ format_03d (boxindex + 1); fname])))|].
  rewrite (mapM_ext_result _
    (λ boxindex, read_gainmatrix
       (datadir +:+ "/" +:+ typename +:+ "/box"
        +:+ format_03d (boxindex + 1) +:+ "/" +:+ fname)))
    by (intros b; by rewrite box_file_path).
  by destruct (mapM _ boxes).
Qed.

Lemma get_gainmatrices_reads_box_files_witness :
  ∃ fname,
    gainmatrix_fname "sigweight_arrays" = Some fname
    ∧ get_gainmatrices
        (λ path, if decide (path = "data/sigweight_arrays/box012/sigweight_array.csv")
                 then Ok [[rat 1 1]] else Raise (ValueError path))
        [11%Z; 0%Z] "data" "sigweight_arrays"
      = mapM (λ boxindex : Z,
                (λ path, if decide (path = "data/sigweight_arrays/box012/sigweight_array.csv")
                         then Ok [[rat 1 1]] else Raise (ValueError path))
                  ("data" +:+ "/" +:+ "sigweight_arrays" +:+ "/box"
                   +:+ format_03d (boxindex + 1) +:+ "/" +:+ fname))
             [11%Z; 0%Z].
Proof.
  apply (get_gainmatrices_reads_box_files _ "cross_correlation" "sigtest").
  - done.
  - unfold typenames. rewrite decide_False by done. set_solver.
  - done.
  - done.
Defined.

(** ** The columns of the weight matrix *)

(** X19.  On a square gain matrix and a bias vector of its size,
    column [c] of the weight matrix is made from row [c] of the
    normalised gain matrix alone: it is the row
    [m * gain[c,:] + (1-m) * bias/sum(bias)], divided by the sum of
    its absolute values. *)
Theorem weightmatrix_column_closed_form (G : matrix) (b : list float64)
    (mm : float64) (c : nat) :
  square (length G) G → length b = length G → (c < length G)%nat →
  ∃ g,
    normalise_columns_skip_zero (length G) G !! c = Some g
    ∧ column (weight_matrices G b mm).1.1 c
      = scaled (zip_with (λ x y, fadd (fmul mm x) (fmul (fsub (Fin 1) mm) y))
                  g ((λ x, fdiv x (fsum b)) <$> b)).
Proof.
  intros HG Hb Hc.
  pose proof (normalise_columns_skip_zero_square _ G HG) as [HG1 _].
  destruct (lookup_lt_is_Some_2 (normalise_columns_skip_zero (length G) G) c)
    as [g Hg]; [lia|].
  exists g. split; [exact Hg|].
  destruct (weightmatrix_spec G b mm HG Hb) as [_ Hcols].
  exact (Hcols c _ (mix_lookup mm _ _ c g _ Hg
                      (resetmatrix_lookup (length G) b c Hc))).
Qed.

Lemma weightmatrix_column_closed_form_witness :
  column (weight_matrices [[rat 0 1; rat 1 1]; [rat 0 1; rat 0 1]]
            [rat 1 1; rat 3 1] (rat 1 2)).1.1 0
  = [rat 1 8; rat 7 8].
Proof.
  destruct (weightmatrix_column_closed_form
              [[rat 0 1; rat 1 1]; [rat 0 1; rat 0 1]] [rat 1 1; rat 3 1]
              (rat 1 2) 0) as (g & Hg & ->).
  - split; [done|]. repeat constructor.
  - done.
  - simpl. lia.
  - assert (normalise_columns_skip_zero 2
              [[rat 0 1; rat 1 1]; [rat 0 1; rat 0 1]] !! 0%nat
            = Some [rat 0 1; rat 1 1]) as Heq by compute_done.
    assert (Some g = Some [rat 0 1; rat 1 1]) as Hg'
      by (etrans; [symmetry; exact Hg|exact Heq]).
    injection Hg' as ->. compute_done.
Defined.

(** ** The graph of the katz and pagerank methods *)

(** The second graph built by [build_graphs] has an edge for the
    nonzero entries of the gain matrix, and no other. *)
Lemma build_graphs_sparse_spec n (WM GM : matrix) (variables : list string)
    reset sparse :
  square n WM → square n GM → (length variables ≤ n)%nat →
  build_graphs WM GM variables = Ok (reset, sparse) →
  (∀ row col rv cv,
     variables !! row = Some rv → variables !! col = Some cv →
     fneb (entry GM row col) (Fin 0) = true →
     is_Some (edge_weight sparse rv cv))
  ∧ (∀ u v g, edge_weight sparse u v = Some g →
       ∃ row col, variables !! row = Some u ∧ variables !! col = Some v
                  ∧ g = entry GM row col ∧ fneb g (Fin 0) = true).
Proof.
  intros HWM HGM Hlen Hrun.
  set (inner := λ (col : nat) (colvar : string)
         '((reset_gaingraph, sparse_gaingraph) : DiGraph * DiGraph)
         '((row, rowvar) : nat * string),
      w ← get_entry WM row col;
      let reset_gaingraph :=
        add_edge reset_gaingraph rowvar colvar {["weight" := w]} in
      g ← get_entry GM row col;
      if fneb g (Fin 0) then
        Ok (reset_gaingraph,
            add_edge sparse_gaingraph rowvar colvar {["weight" := g]})
      else Ok (reset_gaingraph, sparse_gaingraph)).
  set (sound := λ G : DiGraph, ∀ u v g, edge_weight G u v = Some g →
         ∃ row col, variables !! row = Some u ∧ variables !! col = Some v
                    ∧ g = entry GM row col ∧ fneb g (Fin 0) = true).
  (* one turn of the inner loop *)
  assert (∀ col cv row rv gs gs', variables !! col = Some cv →
            variables !! row = Some rv →
            inner col cv gs (row, rv) = Ok gs' →
            gs'.2 = if fneb (entry GM row col) (Fin 0)
                    then add_edge gs.2 rv cv {["weight" := entry GM row col]}
                    else gs.2)
    as Hinner.
  { intros col cv row rv [r s] gs' Hcol Hrow. unfold inner.
    apply lookup_lt_Some in Hcol, Hrow.
    rewrite (get_entry_ok n WM row col), (get_entry_ok n GM row col)
      by (done || lia).
    rewrite !bind_Ok. cbv zeta.
    destruct (fneb _ _); by intros [= <-]. }
  (* the inner loop, for one column *)
  assert (∀ col cv gs gs', variables !! col = Some cv → sound gs.2 →
            foldlM (inner col cv) gs (enumerate variables) = Ok gs' →
            sound gs'.2
            ∧ (∀ u v, is_Some (edge_weight gs.2 u v) →
                      is_Some (edge_weight gs'.2 u v))
            ∧ (∀ row rv, variables !! row = Some rv →
                         fneb (entry GM row col) (Fin 0) = true →
                         is_Some (edge_weight gs'.2 rv cv)))
    as Hcolumn.
  { intros col cv gs gs' Hcol Hsound Hloop.
    pose proof (foldlM_ind (inner col cv)
      (λ pre a, sound a.2
         ∧ (∀ u v, is_Some (edge_weight gs.2 u v) → is_Some (edge_weight a.2 u v))
         ∧ (∀ row rv, (row, rv) ∈ pre →
                      fneb (entry GM row col) (Fin 0) = true →
                      is_Some (edge_weight a.2 rv cv)))
      (enumerate variables) gs gs' Hloop) as Hind.
    destruct Hind as (Hs & Hmono & Hpres).
    - split_and!; [exact Hsound|by intros|]. intros ?? []%elem_of_nil.
    - intros pre [row rv] a a' Hx%elem_of_enumerate (Hs & Hmono & Hpres) Hstep.
      rewrite (Hinner col cv row rv a a' Hcol Hx Hstep).
      destruct (fneb (entry GM row col) (Fin 0)) eqn:Hnz.
      + split_and!.
        * intros u v g.
          rewrite (edge_weight_add_edge _ _ _ _ (entry GM row col))
            by apply lookup_singleton_eq.
          case_decide as Huv.
          -- intros [= <-]. injection Huv as -> ->. by exists row, col.
          -- apply Hs.
        * intros u v Huv.
          rewrite (edge_weight_add_edge _ _ _ _ (entry GM row col))
            by apply lookup_singleton_eq.
          case_decide; [by eexists|]. by apply Hmono.
        * intros row' rv' Hin Hnz'.
          rewrite (edge_weight_add_edge _ _ _ _ (entry GM row col))
            by apply lookup_singleton_eq.
          case_decide; [by eexists|].
          apply elem_of_app in Hin as [Hin|Hin%list_elem_of_singleton].
          -- by apply (Hpres row' rv').
          -- by simplify_eq.
      + split_and!; [exact Hs|exact Hmono|].
        intros row' rv' Hin Hnz'.
        apply elem_of_app in Hin as [Hin|Hin%list_elem_of_singleton].
        * by apply (Hpres row' rv').
        * simplify_eq. congruence.
    - split_and!; [exact Hs|exact Hmono|].
      intros row rv Hrow. apply (Hpres row rv). by apply elem_of_enumerate. }
  (* the outer loop *)
  set (outer := λ (graphs : DiGraph * DiGraph) '((col, colvar) : nat * string),
         foldlM (inner col colvar) graphs (enumerate variables)).
  assert (build_graphs WM GM variables
          = foldlM outer (empty_DiGraph, empty_DiGraph) (enumerate variables))
    as Hbuild by reflexivity.
  rewrite Hbuild in Hrun.
  assert (∀ pre gs gs', Forall (λ x, x ∈ enumerate variables) pre →
            sound gs.2 → foldlM outer gs pre = Ok gs' →
            sound gs'.2
            ∧ (∀ u v, is_Some (edge_weight gs.2 u v) →
                      is_Some (edge_weight gs'.2 u v))
            ∧ (∀ col cv, (col, cv) ∈ pre → ∀ row rv,
                 variables !! row = Some rv →
                 fneb (entry GM row col) (Fin 0) = true →
                 is_Some (edge_weight gs'.2 rv cv)))
    as Houter.
  { induction pre as [|[col cv] pre IH]; intros gs gs' Hall Hs Hloop.
    - cbn [foldlM] in Hloop. injection Hloop as <-.
      split_and!; [exact Hs|by intros|]. intros ?? []%elem_of_nil.
    - apply Forall_cons in Hall as [Hx%elem_of_enumerate Hall].
      cbn [foldlM] in Hloop.
      destruct (outer gs (col, cv)) as [gs1|] eqn:Hrun1; [|discriminate Hloop].
      rewrite bind_Ok in Hloop.
      destruct (Hcolumn col cv gs gs1 Hx Hs Hrun1) as (Hs1 & Hmono1 & Hpres1).
      destruct (IH gs1 gs' Hall Hs1 Hloop) as (Hs' & Hmono' & Hpres').
      split_and!; [exact Hs'|by auto|].
      intros col' cv' Hin row rv Hrow Hnz.
      apply elem_of_cons in Hin as [Heq|Hin].
      + simplify_eq. apply Hmono'. by apply (Hpres1 row rv).
      + by apply (Hpres' col' cv' Hin row rv). }
  destruct (Houter (enumerate variables) (empty_DiGraph, empty_DiGraph)
              (reset, sparse)) as (Hs & _ & Hpres); [| |exact Hrun|].
  { by apply Forall_forall. }
  { intros u v w Hw. unfold edge_weight in Hw. simpl in Hw.
    by rewrite lookup_empty in Hw. }
  split; [|exact Hs].
  intros row col rv cv Hrow Hcol Hnz.
  eapply (Hpres col cv); [by apply elem_of_enumerate|done|done].
Qed.

Lemma scaled_skip_zero_lookup xs i x :
  Forall (λ x, is_finite x = true) xs → xs !! i = Some x →
  ∃ y, scaled_skip_zero xs !! i = Some y ∧ is_finite y = true
       ∧ (y = Fin 0 ↔ x = Fin 0).
Proof.
  intros Hfin Hx.
  assert (is_finite x = true) as Hxfin
    by (by apply (Forall_lookup_1 _ _ _ _ Hfin Hx)).
  unfold scaled_skip_zero. destruct (feqb _ _) eqn:Hz; [by exists x|].
  apply feqb_0_false in Hz. unfold scaled.
  destruct (fsum_abs_nonneg xs Hfin) as (s & Hs & Hs0).
  rewrite Hs in Hz |- *. apply Fin_ne_0 in Hz.
  rewrite list_lookup_fmap, Hx. simpl.
  destruct x as [a| | |]; try done. rewrite fdiv_fin by done.
  eexists. split_and!; [done|done|]. split.
  - intros Ha%Fin_inj. f_equal.
    replace a with (a / s * s) by by field. rewrite Ha. ring.
  - intros ->%Fin_inj. f_equal. by field.
Qed.

Lemma column_lookup_entry (M : matrix) i j :
  (i < length M)%nat → column M j !! i = Some (entry M i j).
Proof.
  intros Hi. destruct (lookup_lt_is_Some_2 M i Hi) as [r Hr].
  unfold column, entry. rewrite list_lookup_fmap, Hr. done.
Qed.

(** The first normalisation keeps the entries finite and keeps the
    places of the zeros. *)
Lemma normalise_columns_skip_zero_entry n (G : matrix) i j :
  square n G → Forall (Forall (λ x, is_finite x = true)) G →
  (i < n)%nat → (j < n)%nat →
  is_finite (entry (normalise_columns_skip_zero n G) i j) = true
  ∧ (entry (normalise_columns_skip_zero n G) i j = Fin 0
     ↔ entry G i j = Fin 0).
Proof.
  intros HG Hfin Hi Hj.
  destruct (normalise_columns_skip_zero_spec n G n) as (_ & _ & Hcol);
    [apply HG|lia|].
  rewrite entry_column, Hcol, decide_True by done.
  destruct (scaled_skip_zero_lookup (column G j) i (entry G i j))
    as (y & -> & Hy & Hiff).
  - by apply (column_finite n).
  - apply column_lookup_entry. destruct HG as [-> _]. done.
  - done.
Qed.

Lemma entry_transpose n (M : matrix) i j :
  square n M → (i < n)%nat → (j < n)%nat →
  entry (transpose M) i j = entry M j i.
Proof.
  intros HM Hi Hj.
  destruct (lookup_lt_is_Some_2 M j) as [r Hr]; [destruct HM; lia|].
  rewrite entry_column, (column_transpose n M j r HM Hr).
  unfold entry. rewrite Hr. done.
Qed.

Lemma square_Forall_entries (P : float64 → Prop) n (M : matrix) :
  square n M → (∀ i j, (i < n)%nat → (j < n)%nat → P (entry M i j)) →
  Forall (Forall P) M.
Proof.
  intros HM HP. apply Forall_lookup. intros i r Hr.
  apply Forall_lookup. intros j x Hx.
  pose proof (square_rows n M i r HM Hr) as Hlen.
  assert (entry M i j = x) as <-
    by (unfold entry; rewrite Hr; simpl; by rewrite Hx).
  apply HP.
  - destruct HM as [<- _]. by eapply lookup_lt_Some.
  - rewrite <-Hlen. by eapply lookup_lt_Some.
Qed.

(** The gain matrix of the second graph is zero where the transposed
    input is. *)
Lemma gainmatrix2_zero_pattern (G : matrix) b mm i j :
  square (length G) G → Forall (Forall (λ x, is_finite x = true)) G →
  (i < length G)%nat → (j < length G)%nat →
  entry (weight_matrices G b mm).1.2 i j = Fin 0 ↔ entry G j i = Fin 0.
Proof.
  intros HG Hfin Hi Hj. unfold weight_matrices. cbn [fst snd].
  set (n := length G) in *.
  set (G1 := normalise_columns_skip_zero n G).
  assert (square n G1) as HG1 by by apply normalise_columns_skip_zero_square.
  assert (square n (transpose G1)) as HT by by apply transpose_square.
  assert (Forall (Forall (λ x, is_finite x = true)) (transpose G1)) as HTfin.
  { apply (square_Forall_entries _ n); [done|]. intros i' j' Hi' Hj'.
    rewrite (entry_transpose n) by done.
    by apply normalise_columns_skip_zero_entry. }
  rewrite (proj2 (normalise_columns_skip_zero_entry n (transpose G1) i j
                    HT HTfin Hi Hj)).
  rewrite (entry_transpose n) by done.
  by apply normalise_columns_skip_zero_entry.
Qed.

(** X26.  For well-shaped input and distinct variable names, the
    graph handed to [pagerank] (and to [katz_centrality] when [alpha]
    is set) is given by the transposed, twice normalised gain matrix
    [M] of lines 184-198: it has an edge from variable [i] to variable
    [j] exactly when [M[j,i]] differs from zero, and the weight of
    that edge is [M[j,i]]. *)
Theorem sparse_graph_edges (G : matrix) (variables : list string)
    (b : list float64) (data : NoderankData) :
  well_shaped G variables b → NoDup variables →
  ∃ sparse,
    calc_simple_rank_call G variables b data "pagerank" "networkx"
    = Ok (pagerank (DiGraph_reverse sparse) (m data))
    ∧ (∀ a, alpha data = Some a →
         calc_simple_rank_call G variables b data "katz" "networkx"
         = Ok (katz_centrality (DiGraph_reverse sparse) a))
    ∧ ∀ i j u v,
        variables !! i = Some u → variables !! j = Some v →
        edge_weight (DiGraph_reverse sparse) u v
        = if fneb (entry (weight_matrices G b (m data)).1.2 j i) (Fin 0)
          then Some (entry (weight_matrices G b (m data)).1.2 j i)
          else None.
Proof.
  intros Hshape Hnd.
  destruct (calc_simple_rank_graphs G variables b (m data) Hshape)
    as (reset & sparse & Hbuild & _).
  destruct Hshape as (HG & Hv & Hb).
  destruct (weight_matrices_square G b (m data) HG Hb) as [HW HG2].
  destruct (build_graphs_sparse_spec (length G) _ _ variables reset sparse
              HW HG2 ltac:(lia) Hbuild) as [Hpres Hsound].
  exists sparse. split_and!.
  - unfold calc_simple_rank_call.
    destruct (weight_matrices G b (m data)) as [[WM GM] G1].
    cbn [fst snd] in Hbuild. rewrite decide_True by done.
    rewrite Hbuild, bind_Ok. by rewrite !decide_False, decide_True by done.
  - intros a Ha. unfold calc_simple_rank_call.
    destruct (weight_matrices G b (m data)) as [[WM GM] G1].
    cbn [fst snd] in Hbuild. rewrite decide_True by done.
    rewrite Hbuild, bind_Ok.
    by rewrite decide_False, decide_True, Ha by done.
  - intros i j u v Hi Hj. rewrite edge_weight_reverse.
    destruct (fneb _ _) eqn:Hz.
    + destruct (Hpres j i v u Hj Hi Hz) as [g Hg].
      destruct (Hsound v u g Hg) as (row & col & Hrow & Hcol & -> & _).
      rewrite (NoDup_lookup variables row j v Hnd Hrow Hj) in Hg.
      by rewrite (NoDup_lookup variables col i u Hnd Hcol Hi) in Hg.
    + destruct (edge_weight sparse v u) as [g|] eqn:Hg; [|done].
      destruct (Hsound v u g Hg) as (row & col & Hrow & Hcol & -> & Hnz).
      rewrite (NoDup_lookup variables row j v Hnd Hrow Hj) in Hnz.
      rewrite (NoDup_lookup variables col i u Hnd Hcol Hi) in Hnz.
      congruence.
Qed.

Lemma sparse_graph_edges_witness :
  ∃ sparse,
    calc_simple_rank_call [[rat 0 1; rat 2 1]; [rat 0 1; rat 0 1]] ["a"; "b"]
      [rat 1 1; rat 1 1]
      (mkNoderankData (rat 1 2) None ["a"; "b"] [] [rat 1 1; rat 1 1] false)
      "pagerank" "networkx"
    = Ok (pagerank (DiGraph_reverse sparse) (rat 1 2))
    ∧ edge_weight (DiGraph_reverse sparse) "a" "b" = Some (rat 1 1)
    ∧ edge_weight (DiGraph_reverse sparse) "b" "a" = None.
Proof.
  destruct (sparse_graph_edges
              [[rat 0 1; rat 2 1]; [rat 0 1; rat 0 1]] ["a"; "b"]
              [rat 1 1; rat 1 1]
              (mkNoderankData (rat 1 2) None ["a"; "b"] [] [rat 1 1; rat 1 1] false))
    as (sparse & Hcall & _ & Hedges).
  - repeat split; repeat constructor.
  - compute_done.
  - exists sparse. split; [exact Hcall|]. split.
    + rewrite (Hedges 0%nat 1%nat "a" "b") by done. compute_done.
    + rewrite (Hedges 1%nat 0%nat "b" "a") by done. compute_done.
Defined.

(** X31.  A zero gain gives no edge: for well-shaped input with finite
    entries and distinct variable names, the graph handed to
    [pagerank] has no edge from variable [i] to variable [j] when
    [gainmatrix[i,j]] is zero. *)
Theorem sparse_graph_no_edge_at_zero_gain (G : matrix)
    (variables : list string) (b : list float64) (data : NoderankData) :
  well_shaped G variables b → NoDup variables →
  Forall (Forall (λ x, is_finite x = true)) G →
  ∃ sparse,
    calc_simple_rank_call G variables b data "pagerank" "networkx"
    = Ok (pagerank (DiGraph_reverse sparse) (m data))
    ∧ ∀ i j u v,
        variables !! i = Some u → variables !! j = Some v →
        entry G i j = Fin 0 →
        edge_weight (DiGraph_reverse sparse) u v = None.
Proof.
  intros Hshape Hnd Hfin.
  destruct (calc_simple_rank_graphs G variables b (m data) Hshape)
    as (reset & sparse & Hbuild & _).
  destruct Hshape as (HG & Hv & Hb).
  destruct (weight_matrices_square G b (m data) HG Hb) as [HW HG2].
  destruct (build_graphs_sparse_spec (length G) _ _ variables reset sparse
              HW HG2 ltac:(lia) Hbuild) as [_ Hsound].
  exists sparse. split.
  - unfold calc_simple_rank_call.
    destruct (weight_matrices G b (m data)) as [[WM GM] G1].
    cbn [fst snd] in Hbuild. rewrite decide_True by done.
    rewrite Hbuild, bind_Ok. by rewrite !decide_False, decide_True by done.
  - intros i j u v Hi Hj Hz. rewrite edge_weight_reverse.
    assert (i < length G)%nat as Hilt
      by (rewrite <-Hv; by eapply lookup_lt_Some).
    assert (j < length G)%nat as Hjlt
      by (rewrite <-Hv; by eapply lookup_lt_Some).
    destruct (edge_weight sparse v u) as [g|] eqn:Hg; [|done].
    destruct (Hsound v u g Hg) as (row & col & Hrow & Hcol & -> & Hnz).
    rewrite (NoDup_lookup variables row j v Hnd Hrow Hj) in Hnz.
    rewrite (NoDup_lookup variables col i u Hnd Hcol Hi) in Hnz.
    apply fneb_0_iff in Hnz. destruct Hnz.
    by apply (gainmatrix2_zero_pattern G b (m data) j i HG Hfin Hjlt Hilt).
Qed.

Lemma sparse_graph_no_edge_at_zero_gain_witness :
  ∃ sparse,
    calc_simple_rank_call [[rat 0 1; rat 2 1]; [rat 0 1; rat 0 1]] ["a"; "b"]
      [rat 1 1; rat 1 1]
      (mkNoderankData (rat 1 2) None ["a"; "b"] [] [rat 1 1; rat 1 1] false)
      "pagerank" "networkx"
    = Ok (pagerank (DiGraph_reverse sparse) (rat 1 2))
    ∧ edge_weight (DiGraph_reverse sparse) "b" "a" = None.
Proof.
  destruct (sparse_graph_no_edge_at_zero_gain
              [[rat 0 1; rat 2 1]; [rat 0 1; rat 0 1]] ["a"; "b"]
              [rat 1 1; rat 1 1]
              (mkNoderankData (rat 1 2) None ["a"; "b"] [] [rat 1 1; rat 1 1] false))
    as (sparse & Hcall & Hedges).
  - repeat split; repeat constructor.
  - compute_done.
  - repeat constructor.
  - exists sparse. split; [exact Hcall|].
    by apply (Hedges 1%nat 0%nat "b" "a").
Defined.

(** ** The folders of a path ([getfolders]) *)

Lemma string_app_nil_r (a : string) : a +:+ EmptyString = a.
Proof. induction a as [|x a IH]; [done|]. by rewrite string_app_cons, IH. Qed.

Lemma string_length_app (a b : string) :
  String.length (a +:+ b) = (String.length a + String.length b)%nat.
Proof.
  induction a as [|x a IH]; [done|]. rewrite string_app_cons. simpl. by rewrite IH.
Qed.

Lemma substring_0_length (s : string) : String.substring 0 (String.length s) s = s.
Proof. induction s as [|c s IH]; [done|]. simpl. by rewrite IH. Qed.

Lemma substring_0_app (a b : string) (n : nat) :
  String.substring 0 (String.length a + n) (a +:+ b)
  = a +:+ String.substring 0 n b.
Proof.
  induction a as [|x a IH]; [done|].
  rewrite !string_app_cons. simpl. by rewrite IH.
Qed.

Lemma substring_app_r (a b : string) (n m : nat) :
  String.substring (String.length a + n) m (a +:+ b) = String.substring n m b.
Proof.
  induction a as [|x a IH]; [done|]. rewrite string_app_cons. simpl. by rewrite IH.
Qed.

Lemma substring_0_0 (s : string) : String.substring 0 0 s = EmptyString.
Proof. by destruct s. Qed.

Lemma length_substring_0 (n : nat) (s : string) :
  (String.length (String.substring 0 n s) ≤ n)%nat.
Proof.
  revert s. induction n as [|n IH]; intros s.
  - by rewrite substring_0_0.
  - destruct s as [|c s]; simpl; [lia|]. specialize (IH s). lia.
Qed.

Lemma length_substring (i m : nat) (s : string) :
  (String.length (String.substring i m s) ≤ String.length s - i)%nat.
Proof.
  revert s m. induction i as [|i IH]; intros s m.
  - revert s. induction m as [|m IHm]; intros s.
    + rewrite substring_0_0. simpl. lia.
    + destruct s as [|c s]; simpl; [lia|]. specialize (IHm s). lia.
  - destruct s as [|c s]; simpl; [lia|]. apply IH.
Qed.

Lemma rfind_slash_free (x : string) :
  slash_free x = true → rfind_slash x = (-1)%Z.
Proof.
  induction x as [|c x IH]; [done|]. simpl.
  intros [Hc Hx]%andb_true_iff. rewrite (IH Hx). simpl.
  by destruct (is_slash c).
Qed.

Lemma rfind_slash_app (a x : string) :
  slash_free x = true →
  rfind_slash (a +:+ String "/"%char x) = Z.of_nat (String.length a).
Proof.
  intros Hx. induction a as [|c a IH].
  - simpl. change (EmptyString +:+ String "/"%char x) with (String "/"%char x).
    simpl. by rewrite (rfind_slash_free x Hx).
  - rewrite string_app_cons. cbn [rfind_slash]. rewrite IH.
    rewrite decide_False by lia. simpl String.length. lia.
Qed.

Lemma rstrip_slash_no_trailing (a : string) :
  endswith_slash a = false → rstrip_slash a = a.
Proof.
  induction a as [|c a IH]; [done|]. intros Hc. cbn [rstrip_slash].
  destruct (decide (a = EmptyString)) as [->|Hne].
  - simpl in *. unfold is_slash. by rewrite Hc.
  - rewrite endswith_slash_cons in Hc by done.
    rewrite (IH Hc). by rewrite decide_False.
Qed.

Lemma rstrip_slash_app_slash (a : string) :
  rstrip_slash (a +:+ "/") = rstrip_slash a.
Proof.
  induction a as [|c a IH]; [done|].
  rewrite string_app_cons. cbn [rstrip_slash]. by rewrite IH.
Qed.

Lemma slashes_S (n : nat) : slashes (S n) = String "/"%char (slashes n).
Proof.
  unfold slashes. destruct n as [|n]; [done|].
  cbn [replicate String.concat]. done.
Qed.

Lemma slashes_endswith (s : string) :
  s ≠ EmptyString → s = slashes (String.length s) → endswith_slash s = true.
Proof.
  induction s as [|c s IH]; [done|]. intros _ Heq.
  simpl String.length in Heq. rewrite slashes_S in Heq.
  injection Heq as -> Hs. destruct s as [|c' s]; [done|].
  rewrite endswith_slash_cons by done. by apply IH.
Qed.

Lemma os_path_split_slash_free (x : string) :
  slash_free x = true → os_path_split x = (EmptyString, x).
Proof.
  intros Hx. unfold os_path_split. rewrite (rfind_slash_free x Hx).
  change (Z.to_nat (-1 + 1)) with 0%nat. rewrite substring_0_0.
  rewrite Nat.sub_0_r, substring_0_length. done.
Qed.

Lemma os_path_split_app (a x : string) :
  slash_free x = true →
  os_path_split (a +:+ String "/"%char x)
  = (if bool_decide (a +:+ "/" ≠ slashes (String.length (a +:+ "/")))
     then rstrip_slash a else a +:+ "/", x).
Proof.
  intros Hx.
  assert (String.substring 0 (String.length a + 1) (a +:+ String "/"%char x)
          = a +:+ "/") as Hhead.
  { rewrite substring_0_app. simpl. by rewrite substring_0_0. }
  assert (String.substring (String.length a + 1)
            (String.length (a +:+ String "/"%char x) - (String.length a + 1))
            (a +:+ String "/"%char x) = x) as Htail.
  { rewrite string_length_app. simpl String.length.
    replace (String.length a + S (String.length x) - (String.length a + 1))%nat
      with (String.length x) by lia.
    rewrite substring_app_r. simpl. apply substring_0_length. }
  unfold os_path_split. rewrite (rfind_slash_app a x Hx).
  replace (Z.to_nat (Z.of_nat (String.length a) + 1))
    with (String.length a + 1)%nat by lia.
  rewrite Hhead, Htail. f_equal.
  rewrite bool_decide_eq_true_2 by (by apply string_app_nonempty).
  cbn [andb]. case_bool_decide; [|done]. by rewrite rstrip_slash_app_slash.
Qed.

Lemma os_path_split_dir (a x : string) :
  a ≠ EmptyString → endswith_slash a = false → slash_free x = true →
  os_path_split (a +:+ String "/"%char x) = (a, x).
Proof.
  intros Ha Hs Hx. rewrite os_path_split_app by done.
  rewrite bool_decide_eq_true_2.
  - by rewrite rstrip_slash_no_trailing.
  - intros Heq. destruct a as [|c a]; [done|].
    rewrite string_app_cons in Heq. simpl String.length in Heq.
    rewrite slashes_S in Heq. injection Heq as -> Heq.
    (* the rest of [a], followed by a slash, is all slashes: so is [a] *)
    assert (∀ b, b +:+ "/" = slashes (String.length (b +:+ "/")) →
                 String "/"%char b = slashes (String.length (String "/"%char b))) as Hall.
    { clear. induction b as [|c b IH]; [done|].
      rewrite string_app_cons. simpl String.length. rewrite !slashes_S.
      intros [= -> Hb]. f_equal. rewrite <-slashes_S. by apply IH. }
    apply Hall in Heq. apply slashes_endswith in Heq; [|done]. congruence.
Qed.

Lemma length_rstrip_slash (s : string) :
  (String.length (rstrip_slash s) ≤ String.length s)%nat.
Proof.
  induction s as [|c s IH]; [done|]. cbn [rstrip_slash].
  case_decide; [destruct (is_slash c)|]; simpl; lia.
Qed.

(** When [os.path.split] finds a last component, what is left of the
    path is shorter. *)
Lemma os_path_split_shorter (p h t : string) :
  os_path_split p = (h, t) → t ≠ EmptyString →
  (String.length h < String.length p)%nat.
Proof.
  unfold os_path_split. intros [= <- <-] Ht.
  set (i := Z.to_nat (rfind_slash p + 1)) in *.
  assert (0 < String.length (String.substring i (String.length p - i) p))%nat
    as Hpos.
  { destruct (String.substring i (String.length p - i) p); [done|simpl; lia]. }
  pose proof (length_substring i (String.length p - i) p) as Hle.
  pose proof (length_substring_0 i p) as Hhead.
  pose proof (length_rstrip_slash (String.substring 0 i p)) as Hstrip.
  destruct (_ && _); lia.
Qed.

Lemma getfolders_loop_total (fuel : nat) (path : string) (folders : list string) :
  (String.length path < fuel)%nat →
  is_Some (getfolders_loop fuel path folders).
Proof.
  revert path folders. induction fuel as [|fuel IH]; intros path folders Hlen;
    [lia|].
  cbn [getfolders_loop].
  destruct (os_path_split path) as [h t] eqn:Hsplit.
  case_decide as Ht; [|by eexists].
  apply IH. pose proof (os_path_split_shorter path h t Hsplit Ht). lia.
Qed.

Lemma slash_free_endswith (x : string) :
  slash_free x = true → endswith_slash x = false.
Proof.
  induction x as [|c x IH]; [done|]. simpl.
  intros [Hc Hx]%andb_true_iff. destruct x as [|c' x].
  - unfold is_slash in Hc. by destruct (bool_decide _).
  - by apply IH.
Qed.

Lemma concat_slash_cons (x : string) (xs : list string) :
  xs ≠ [] →
  String.concat "/" (x :: xs) = x +:+ "/" +:+ String.concat "/" xs.
Proof. by destruct xs. Qed.

Lemma concat_slash_snoc (init : list string) (x : string) :
  init ≠ [] →
  String.concat "/" (init ++ [x]) = String.concat "/" init +:+ "/" +:+ x.
Proof.
  induction init as [|y init IH]; [done|]. intros _.
  destruct init as [|z init]; [done|].
  rewrite <-app_comm_cons, concat_slash_cons by done.
  rewrite IH by done. rewrite (concat_slash_cons y) by done.
  by rewrite !string_app_assoc.
Qed.

Lemma concat_slash_names (names : list string) :
  names ≠ [] →
  Forall (λ n, n ≠ EmptyString ∧ slash_free n = true) names →
  String.concat "/" names ≠ EmptyString
  ∧ endswith_slash (String.concat "/" names) = false.
Proof.
  induction names as [|x names _] using rev_ind; [done|].
  intros _ [_ [[Hx Hsf] _]%Forall_cons]%Forall_app.
  destruct (decide (names = [])) as [->|Hne].
  - split; [done|]. by apply slash_free_endswith.
  - rewrite concat_slash_snoc by done. split.
    + by apply string_app_nonempty, string_app_nonempty.
    + rewrite !endswith_slash_app by (done || by apply string_app_nonempty).
      by apply slash_free_endswith.
Qed.

Lemma length_concat_slash (names : list string) :
  Forall (λ n, n ≠ EmptyString ∧ slash_free n = true) names →
  (length names ≤ String.length (String.concat "/" names))%nat.
Proof.
  induction 1 as [|x names [Hx _] _ IH]; [done|].
  assert (0 < String.length x)%nat by (destruct x; [done|simpl; lia]).
  destruct names as [|y names]; [simpl; lia|].
  rewrite concat_slash_cons, !string_length_app by done.
  cbn [length] in *. lia.
Qed.

(** The loop on a path made of folder names: [pre] is empty for a
    relative path and ["/"] for an absolute one. *)
Lemma getfolders_loop_names (pre : string) (names folders : list string)
    (fuel : nat) :
  pre = EmptyString ∨ pre = "/" →
  Forall (λ n, n ≠ EmptyString ∧ slash_free n = true) names →
  (length names < fuel)%nat →
  getfolders_loop fuel (pre +:+ String.concat "/" names) folders
  = Some (folders ++ reverse names
          ++ (if decide (pre = EmptyString) then [] else [pre])).
Proof.
  intros Hpre. revert folders fuel.
  induction names as [|x init IH] using rev_ind; intros folders fuel Hnames Hfuel.
  - destruct fuel as [|fuel]; [simpl in Hfuel; lia|]. cbn [getfolders_loop].
    destruct Hpre as [-> | ->]; [by rewrite app_nil_r|done].
  - apply Forall_app in Hnames as [Hinit [[Hx Hsf] _]%Forall_cons].
    destruct fuel as [|fuel]; [lia|]. cbn [getfolders_loop].
    rewrite length_app in Hfuel. simpl in Hfuel.
    assert (os_path_split (pre +:+ String.concat "/" (init ++ [x]))
            = (pre +:+ String.concat "/" init, x)) as ->.
    { destruct (decide (init = [])) as [->|Hne].
      - simpl. rewrite string_app_nil_r.
        destruct Hpre as [-> | ->].
        + by apply os_path_split_slash_free.
        + etrans; [exact (os_path_split_app EmptyString x Hsf)|done].
      - rewrite concat_slash_snoc, <-string_app_assoc by done.
        destruct (concat_slash_names init Hne Hinit) as [Hne' Hends].
        apply os_path_split_dir; [|by rewrite endswith_slash_app|done].
        by apply string_app_nonempty. }
    rewrite decide_True by done.
    rewrite IH by (done || lia).
    by rewrite reverse_app, <-!app_assoc.
Qed.

(** X27.  [getfolders] undoes the joining of folder names: for a
    relative path made of non-empty names without slashes, joined by
    single slashes, it returns the names in order. *)
Theorem getfolders_relative (names : list string) :
  Forall (λ n, n ≠ EmptyString ∧ slash_free n = true) names →
  getfolders (String.concat "/" names) = Some names.
Proof.
  intros Hnames. unfold getfolders.
  rewrite (getfolders_loop_names EmptyString names []).
  - rewrite decide_True by done. simpl.
    by rewrite app_nil_r, reverse_involutive.
  - by left.
  - done.
  - pose proof (length_concat_slash names Hnames). lia.
Qed.

Lemma getfolders_relative_witness :
  getfolders "results/weightdata/case/scenario"
  = Some ["results"; "weightdata"; "case"; "scenario"].
Proof.
  apply (getfolders_relative ["results"; "weightdata"; "case"; "scenario"]).
  repeat constructor; done.
Defined.

(** X28.  For an absolute path made of such names, the root ["/"] is
    returned as the first folder. *)
Theorem getfolders_absolute (names : list string) :
  Forall (λ n, n ≠ EmptyString ∧ slash_free n = true) names →
  getfolders ("/" +:+ String.concat "/" names) = Some ("/" :: names).
Proof.
  intros Hnames. unfold getfolders.
  rewrite (getfolders_loop_names "/" names []).
  - rewrite decide_False by done. simpl.
    by rewrite reverse_app, reverse_involutive.
  - by right.
  - done.
  - pose proof (length_concat_slash names Hnames).
    rewrite string_length_app. lia.
Qed.

Lemma getfolders_absolute_witness :
  getfolders "/results/weightdata" = Some ["/"; "results"; "weightdata"].
Proof.
  apply (getfolders_absolute ["results"; "weightdata"]).
  repeat constructor; done.
Defined.

(** X29.  A trailing slash stops the decomposition: for a non-empty
    path [a] that does not end in a slash, [getfolders] of [a/] is the
    one-element list of [a], whatever slashes [a] contains. *)
Theorem getfolders_trailing_slash (a : string) :
  a ≠ EmptyString → endswith_slash a = false →
  getfolders (a +:+ "/") = Some [a].
Proof.
  intros Ha Hs. unfold getfolders. cbn [getfolders_loop].
  change (a +:+ "/") with (a +:+ String "/"%char EmptyString).
  rewrite os_path_split_dir by done.
  rewrite decide_False by (by intros ?). by rewrite decide_True.
Qed.

Lemma getfolders_trailing_slash_witness :
  getfolders "results/weightdata/" = Some ["results/weightdata"].
Proof. by apply (getfolders_trailing_slash "results/weightdata"). Defined.

(** X30.  The loop of [getfolders] ends on every path: each turn that
    finds a last component leaves a shorter path. *)
Theorem getfolders_returns (path : string) : is_Some (getfolders path).
Proof.
  unfold getfolders.
  destruct (getfolders_loop_total (S (String.length path)) path [])
    as [folders ->]; [lia|]. by eexists.
Qed.
